(** * Poise: verification of the native signal-processing core

    Shallow embedding of the C++ sources under [app/src/main/cpp]:
    [vad.cpp], [resampler.cpp], [poise_processor.cpp] and [stft.cpp].

    Number model.  Samples ([float]) and the resampler's [double] fields are
    idealised as real numbers ([R]): every arithmetic operation of the
    source is the exact operation on [R], and decimal literals denote their
    decimal value.  Signed counters ([int] fields that are only ever
    incremented) are mathematical integers ([Z]); the model is the program
    as long as they stay below [2^31].  Conversions from a floating value
    to [int] are partial, as in C++: outside the range of [int] the
    behaviour is undefined and the model says so. *)

From Stdlib Require Import Reals List ZArith Lia Lra Psatz Bool.
Import ListNotations.

Open Scope R_scope.

(** ** Numeric conversions shared by the components *)

Definition INT_MIN : Z := (- 2 ^ 31)%Z.
Definition INT_MAX : Z := (2 ^ 31 - 1)%Z.

(** Truncation toward zero, the rounding of [static_cast<int>]. *)
Definition trunc (x : R) : Z :=
  if Rle_dec 0 x then Int_part x else (- Int_part (- x))%Z.

(** [static_cast<int>(x)] for a floating [x]: defined only when the
    truncated value is representable. *)
Definition static_cast_int (x : R) : option Z :=
  let z := trunc x in
  if ((INT_MIN <=? z) && (z <=? INT_MAX))%Z then Some z else None.

(** [std::fmod(x, y)]: the remainder has the sign of [x]. *)
Definition fmod (x y : R) : R := x - IZR (trunc (x / y)) * y.

(** Comparison of reals as a boolean, for the source's [a > b] and [a < b]. *)
Definition Rgtb (a b : R) : bool := if Rgt_dec a b then true else false.
Definition Rltb (a b : R) : bool := if Rlt_dec a b then true else false.

(** ** Voice activity detector ([vad.h], [vad.cpp]) *)

Module VAD.

Definition DEFAULT_FRAME_SIZE : Z := 480.

Record t : Type := mk {
  thresholdDb_ : R;
  thresholdLinear_ : R;
  hangFrames_ : Z;
  framesSinceActive_ : Z;
  totalFrames_ : Z;
  activeFrames_ : Z;
  bypassedFrames_ : Z
}.

(** Constructor.  [hangFrames_] is the truncation of
    [hangTimeMs * sampleRate / 1000 / DEFAULT_FRAME_SIZE]. *)
Definition VoiceActivityDetector (thresholdDb hangTimeMs : R) (sampleRate : Z)
  : option t :=
  match static_cast_int
          (hangTimeMs * IZR sampleRate / 1000 / IZR DEFAULT_FRAME_SIZE) with
  | Some hang =>
      Some {| thresholdDb_ := thresholdDb;
              thresholdLinear_ := Rpower 10 (thresholdDb / 20);
              hangFrames_ := hang;
              framesSinceActive_ := hang + 1;
              totalFrames_ := 0;
              activeFrames_ := 0;
              bypassedFrames_ := 0 |}
  | None => None
  end.

(** The accumulation loop [for (float sample : audio) sumSquares += sample * sample]. *)
Definition sumSquares (audio : list R) : R :=
  fold_left (fun acc sample => acc + sample * sample) audio 0.

Definition rms (audio : list R) : R :=
  sqrt (sumSquares audio / INR (length audio)).

(** [rms > thresholdLinear_].  For an empty vector the quotient is [0/0],
    a NaN in the source, and every comparison with a NaN is false. *)
Definition isActive (v : t) (audio : list R) : bool :=
  match audio with
  | [] => false
  | _ => Rgtb (rms audio) (thresholdLinear_ v)
  end.

Definition isSpeech (v : t) (audio : list R) : bool * t :=
  let total := (totalFrames_ v + 1)%Z in
  if isActive v audio then
    (true, {| thresholdDb_ := thresholdDb_ v;
              thresholdLinear_ := thresholdLinear_ v;
              hangFrames_ := hangFrames_ v;
              framesSinceActive_ := 0;
              totalFrames_ := total;
              activeFrames_ := activeFrames_ v + 1;
              bypassedFrames_ := bypassedFrames_ v |})
  else
    let since := (framesSinceActive_ v + 1)%Z in
    if (since <? hangFrames_ v)%Z then
      (true, {| thresholdDb_ := thresholdDb_ v;
                thresholdLinear_ := thresholdLinear_ v;
                hangFrames_ := hangFrames_ v;
                framesSinceActive_ := since;
                totalFrames_ := total;
                activeFrames_ := activeFrames_ v + 1;
                bypassedFrames_ := bypassedFrames_ v |})
    else
      (false, {| thresholdDb_ := thresholdDb_ v;
                 thresholdLinear_ := thresholdLinear_ v;
                 hangFrames_ := hangFrames_ v;
                 framesSinceActive_ := since;
                 totalFrames_ := total;
                 activeFrames_ := activeFrames_ v;
                 bypassedFrames_ := bypassedFrames_ v + 1 |}).

Definition reset (v : t) : t :=
  {| thresholdDb_ := thresholdDb_ v;
     thresholdLinear_ := thresholdLinear_ v;
     hangFrames_ := hangFrames_ v;
     framesSinceActive_ := hangFrames_ v + 1;
     totalFrames_ := 0;
     activeFrames_ := 0;
     bypassedFrames_ := 0 |}.

(** Successive calls of [isSpeech] on a sequence of frames: the verdicts,
    in order, and the final state. *)
Fixpoint run (v : t) (frames : list (list R)) : list bool * t :=
  match frames with
  | [] => ([], v)
  | f :: rest =>
      let '(b, v1) := isSpeech v f in
      let '(bs, v2) := run v1 rest in
      (b :: bs, v2)
  end.

(** A frame of [n] zero samples. *)
Definition silence (n : nat) : list R := repeat 0 n.

(** [VADStats] and [getStats]. *)
Record VADStats : Type := mkStats {
  total : Z;
  active : Z;
  bypassed : Z;
  bypassRatio : R
}.

Definition getStats (v : t) : VADStats :=
  {| total := totalFrames_ v;
     active := activeFrames_ v;
     bypassed := bypassedFrames_ v;
     bypassRatio :=
       if (0 <? totalFrames_ v)%Z
       then IZR (bypassedFrames_ v) / IZR (totalFrames_ v)
       else 0 |}.

End VAD.

(** ** Outcomes of a call that can fail *)

Inductive outcome (A : Type) : Type :=
| Ok (a : A)        (* the call returns normally *)
| Throws            (* a C++ exception leaves the call *)
| Undefined.        (* the execution has undefined behaviour *)

Arguments Ok {A} a.
Arguments Throws {A}.
Arguments Undefined {A}.

(** ** Streaming resampler ([resampler.h], [resampler.cpp]) *)

Module Resampler.

Record t : Type := mk {
  inputSampleRate_ : Z;
  outputSampleRate_ : Z;
  ratio_ : R;
  phase_ : R;
  accumulator_ : list R
}.

(** Constructor.  In the source [ratio_] is a [double], the quotient
    rounded to binary64; here it is the quotient itself.  The two are
    equal when the rates are in a power-of-two ratio.  Otherwise they
    differ by one rounding, which matters where [outputSize / ratio_] is a
    whole number: there the source can compute a quotient just below it
    and remove one sample less than this model does (44.1 kHz to 48 kHz
    with 480 samples). *)
Definition StreamingResampler (inputSr outputSr : Z) : t :=
  {| inputSampleRate_ := inputSr;
     outputSampleRate_ := outputSr;
     ratio_ := IZR outputSr / IZR inputSr;
     phase_ := 0;
     accumulator_ := [] |}.

(** [size_t] subtraction wraps modulo [2^64]. *)
Definition size_sub (a b : Z) : Z := ((a - b) mod 2 ^ 64)%Z.

(** [static_cast<int>] of a [size_t]: reduction modulo [2^32] into the
    signed range. *)
Definition size_to_int (n : Z) : Z := ((n + 2 ^ 31) mod 2 ^ 32 - 2 ^ 31)%Z.

(** [accumulator_[i]] for an [int] index: outside the vector the read is
    undefined. *)
Definition at_ (acc : list R) (i : Z) : option R :=
  if (i <? 0)%Z then None else nth_error acc (Z.to_nat i).

(** [srcPos = (i + phase_) / ratio_]: where output sample [i] of a call
    lies in the accumulator, in input samples from its front. *)
Definition srcPos (st : t) (i : Z) : R := (IZR i + phase_ st) / ratio_ st.

(** Body of the interpolation loop for output index [i].  [srcIndex + 1]
    is an [int] sum: it must not overflow. *)
Definition interpolate (st : t) (acc : list R) (i : Z) : option R :=
  match static_cast_int (srcPos st i) with
  | None => None
  | Some srcIndex =>
      let frac := srcPos st i - IZR srcIndex in
      let size := size_to_int (Z.of_nat (length acc)) in
      if (INT_MAX <? srcIndex + 1)%Z then None
      else if (srcIndex + 1 <? size)%Z then
        match at_ acc srcIndex, at_ acc (srcIndex + 1) with
        | Some a, Some b => Some (a * (1 - frac) + b * frac)
        | _, _ => None
        end
      else if (srcIndex <? size)%Z then at_ acc srcIndex
      else Some 0
  end.

Fixpoint traverse {A B : Type} (f : A -> option B) (l : list A)
  : option (list B) :=
  match l with
  | [] => Some []
  | a :: rest =>
      match f a, traverse f rest with
      | Some b, Some bs => Some (b :: bs)
      | _, _ => None
      end
  end.

(** The loop counter values [0, 1, ..., n-1]. *)
Definition indices (n : Z) : list Z := map Z.of_nat (seq 0 (Z.to_nat n)).

Definition process (st : t) (input : list R) (outputSize : Z)
  : outcome (list R * t) :=
  if (inputSampleRate_ st =? outputSampleRate_ st)%Z then Ok (input, st)
  else
    let acc := accumulator_ st ++ input in
    let size := Z.of_nat (length acc) in
    match static_cast_int (IZR (size_sub size 1) * ratio_ st) with
    | None => Undefined
    | Some availableOutputSamples =>
        if (availableOutputSamples <? outputSize)%Z then
          Ok ([], {| inputSampleRate_ := inputSampleRate_ st;
                     outputSampleRate_ := outputSampleRate_ st;
                     ratio_ := ratio_ st;
                     phase_ := phase_ st;
                     accumulator_ := acc |})
        else if (outputSize <? 0)%Z then
          (* [std::vector<float> output(outputSize)]: std::length_error *)
          Throws
        else
          match traverse (interpolate st acc) (indices outputSize) with
          | None => Undefined
          | Some output =>
              let consumedInputSamples := IZR outputSize / ratio_ st in
              match static_cast_int consumedInputSamples with
              | None => Undefined
              | Some samplesToRemove =>
                  let phase :=
                    fmod (phase_ st + consumedInputSamples
                          - IZR samplesToRemove) 1 in
                  let acc' :=
                    if ((0 <? samplesToRemove)
                        && (samplesToRemove <=? size_to_int size))%Z
                    then skipn (Z.to_nat samplesToRemove) acc
                    else acc in
                  Ok (output, {| inputSampleRate_ := inputSampleRate_ st;
                                 outputSampleRate_ := outputSampleRate_ st;
                                 ratio_ := ratio_ st;
                                 phase_ := phase;
                                 accumulator_ := acc' |})
              end
          end
    end.

Definition reset (st : t) : t :=
  {| inputSampleRate_ := inputSampleRate_ st;
     outputSampleRate_ := outputSampleRate_ st;
     ratio_ := ratio_ st;
     phase_ := 0;
     accumulator_ := [] |}.

End Resampler.

(** ** Frame processor ([poise_processor.h], [poise_processor.cpp]) *)

Module Processor.

Definition ONNX_STATE_SIZE : Z := 45304.
Definition DEFAULT_FRAME_SIZE : Z := 480.
Definition DEFAULT_SAMPLE_RATE : Z := 48000.
Definition SOFT_LIMITER_THRESHOLD : R := 98 / 100.
Definition AUDIO_CLIP_MIN : R := -1.
Definition AUDIO_CLIP_MAX : R := 1.

Record t : Type := mk {
  vadThresholdDb_ : R;
  attenLimDb_ : R;
  frameSize_ : Z;
  sampleRate_ : Z;
  states_ : list R;
  frameCount_ : Z;
  totalProcessingTimeMs_ : R;
  vad_ : VAD.t
}.

Definition PoiseProcessor (vadThresholdDb attenLimDb : R) : option t :=
  match VAD.VoiceActivityDetector vadThresholdDb 300 DEFAULT_SAMPLE_RATE with
  | Some vad =>
      Some {| vadThresholdDb_ := vadThresholdDb;
              attenLimDb_ := attenLimDb;
              frameSize_ := DEFAULT_FRAME_SIZE;
              sampleRate_ := DEFAULT_SAMPLE_RATE;
              states_ := repeat 0 (Z.to_nat ONNX_STATE_SIZE);
              frameCount_ := 0;
              totalProcessingTimeMs_ := 0;
              vad_ := vad |}
  | None => None
  end.

(** [result(frameSize_, 0.0f)] overwritten by the first
    [min(audio.size(), frameSize_)] samples of [audio]. *)
Definition normalizeFrameSize (p : t) (audio : list R) : list R :=
  let n := Z.to_nat (frameSize_ p) in
  firstn n audio ++ repeat 0 (n - length audio).

Definition normalizeOutputShape (p : t) (output fallback : list R) : list R :=
  match output with
  | [] => fallback
  | _ =>
      let n := Z.to_nat (frameSize_ p) in
      firstn n output ++ repeat 0 (n - length output)
  end.

(** [maxVal = std::max(maxVal, std::abs(sample))] over the frame, from [0]. *)
Definition peak (audio : list R) : R :=
  fold_left (fun maxVal sample => Rmax maxVal (Rabs sample)) audio 0.

Definition softLimit (audio : list R) : list R :=
  let maxVal := peak audio in
  if Rgtb maxVal SOFT_LIMITER_THRESHOLD && Rgtb maxVal 0 then
    let scale := SOFT_LIMITER_THRESHOLD / maxVal in
    map (fun sample => sample * scale) audio
  else audio.

(** [std::clamp(v, lo, hi)]. *)
Definition clamp (v lo hi : R) : R :=
  if Rltb v lo then lo else if Rltb hi v then hi else v.

Definition clip (audio : list R) : list R :=
  map (fun sample => clamp sample AUDIO_CLIP_MIN AUDIO_CLIP_MAX) audio.

Definition mean (audio : list R) : R :=
  fold_left (fun m sample => m + sample) audio 0 / INR (length audio).

Definition removeDC (audio : list R) : list R :=
  let m := mean audio in
  map (fun sample => sample - m) audio.

Definition postprocessAudio (audio : list R) : list R :=
  match audio with
  | [] => []
  | _ => removeDC (clip (softLimit audio))
  end.

Section Callback.

(** The inference callback is foreign code: it reads the frame, may
    rewrite the model state it receives by reference, and acts on a world
    [W] of its own. *)
Variable W : Type.

Definition OnnxInferenceCallback : Type :=
  list R -> list R -> R -> W -> list R * list R * W.

(** [elapsedMs] is the wall-clock duration the two clock readings around
    the callback measure. *)
Definition processFrame (p : t) (inputFrame : list R)
    (inferenceCallback : OnnxInferenceCallback) (w : W) (elapsedMs : R)
  : list R * t * W :=
  let frame := normalizeFrameSize p inputFrame in
  let '(speech, vad) := VAD.isSpeech (vad_ p) frame in
  if negb speech then
    (frame,
     {| vadThresholdDb_ := vadThresholdDb_ p;
        attenLimDb_ := attenLimDb_ p;
        frameSize_ := frameSize_ p;
        sampleRate_ := sampleRate_ p;
        states_ := states_ p;
        frameCount_ := frameCount_ p;
        totalProcessingTimeMs_ := totalProcessingTimeMs_ p;
        vad_ := vad |},
     w)
  else
    let '(enhancedFrame, states, w') :=
      inferenceCallback frame (states_ p) (attenLimDb_ p) w in
    let p' :=
      {| vadThresholdDb_ := vadThresholdDb_ p;
         attenLimDb_ := attenLimDb_ p;
         frameSize_ := frameSize_ p;
         sampleRate_ := sampleRate_ p;
         states_ := states;
         frameCount_ := frameCount_ p + 1;
         totalProcessingTimeMs_ := totalProcessingTimeMs_ p + elapsedMs;
         vad_ := vad |} in
    (postprocessAudio (normalizeOutputShape p enhancedFrame frame), p', w').

End Callback.

Arguments processFrame {W} p inputFrame inferenceCallback w elapsedMs.

(** [std::fill(states_.begin(), states_.end(), 0.0f)] and the counters. *)
Definition reset (p : t) : t :=
  {| vadThresholdDb_ := vadThresholdDb_ p;
     attenLimDb_ := attenLimDb_ p;
     frameSize_ := frameSize_ p;
     sampleRate_ := sampleRate_ p;
     states_ := map (fun _ => 0) (states_ p);
     frameCount_ := 0;
     totalProcessingTimeMs_ := 0;
     vad_ := VAD.reset (vad_ p) |}.

Definition getAverageProcessingTimeMs (p : t) : R :=
  if (0 <? frameCount_ p)%Z
  then totalProcessingTimeMs_ p / IZR (frameCount_ p)
  else 0.

Record ProcessingStats : Type := mkStats {
  frameCount : Z;
  avgTimeMs : R;
  rtf : R;
  vadTotal : Z;
  vadActive : Z;
  vadBypassed : Z;
  vadBypassRatio : R
}.

Definition getStats (p : t) : ProcessingStats :=
  let avg := getAverageProcessingTimeMs p in
  let frameDurationMs := IZR (frameSize_ p) / IZR (sampleRate_ p) * 1000 in
  let vadStats := VAD.getStats (vad_ p) in
  {| frameCount := frameCount_ p;
     avgTimeMs := avg;
     rtf := if Rgtb frameDurationMs 0 then avg / frameDurationMs else 0;
     vadTotal := VAD.total vadStats;
     vadActive := VAD.active vadStats;
     vadBypassed := VAD.bypassed vadStats;
     vadBypassRatio := VAD.bypassRatio vadStats |}.

Definition updateStates (p : t) (newStates : list R) : t :=
  if (length newStates =? length (states_ p))%nat then
    {| vadThresholdDb_ := vadThresholdDb_ p;
       attenLimDb_ := attenLimDb_ p;
       frameSize_ := frameSize_ p;
       sampleRate_ := sampleRate_ p;
       states_ := newStates;
       frameCount_ := frameCount_ p;
       totalProcessingTimeMs_ := totalProcessingTimeMs_ p;
       vad_ := vad_ p |}
  else p.

End Processor.

(** ** Short-time Fourier engine ([stft.h], [stft.cpp]) *)

Module STFT.

Definition FFT_SIZE : nat := 512.
Definition HOP_SIZE : nat := 256.
Definition NUM_BINS : nat := 257.

(** [std::complex<float>] and the operators the source uses. *)
Record complex : Type := mkC { re : R; im : R }.

Definition C0 : complex := mkC 0 0.
Definition C1 : complex := mkC 1 0.
Definition Cadd (a b : complex) : complex := mkC (re a + re b) (im a + im b).
Definition Csub (a b : complex) : complex := mkC (re a - re b) (im a - im b).
Definition Cmul (a b : complex) : complex :=
  mkC (re a * re b - im a * im b) (re a * im b + im a * re b).
Definition Copp (a : complex) : complex := mkC (- re a) (- im a).
Definition conj (a : complex) : complex := mkC (re a) (- im a).
(** [z /= x] for a real [x]. *)
Definition Cdivr (a : complex) (x : R) : complex := mkC (re a / x) (im a / x).

(** A C array, seen from its base address: the cell at each index. *)
Definition array (A : Type) : Type := nat -> A.

Definition upd {A : Type} (a : array A) (i : nat) (v : A) : array A :=
  fun k => if Nat.eqb k i then v else a k.

(** [for (int i = 0; i < n; i++) body]. *)
Definition for_ {S : Type} (n : nat) (body : nat -> S -> S) (s : S) : S :=
  fold_left (fun s i => body i s) (seq 0 n) s.

(** [std::memset(a, 0, n * sizeof(float))]. *)
Definition memset0 (a : array R) (n : nat) : array R :=
  fun k => if k <? n then 0 else a k.

(** [std::memmove(a, a + off, n * sizeof(float))]. *)
Definition memmove (a : array R) (off n : nat) : array R :=
  fun k => if k <? n then a (k + off)%nat else a k.

(** [std::memcpy(a + dst, src, n * sizeof(float))], [src] holding the
    samples of a caller's buffer. *)
Definition memcpy (a : array R) (dst : nat) (src : list R) (n : nat)
  : array R :=
  fun k => if (dst <=? k) && (k <? dst + n) then nth (k - dst) src 0 else a k.

Record t : Type := mk {
  window_ : array R;
  stftBuffer_ : array R;
  overlapBuffer_ : array R;
  fftBuffer_ : array complex
}.

Definition initWindow (window : array R) : array R :=
  for_ FFT_SIZE
    (fun i window =>
       let hann := 0.5 * (1 - cos (2 * PI * INR i / INR FFT_SIZE)) in
       upd window i (sqrt hann))
    window.

Definition reset (st : t) : t :=
  {| window_ := window_ st;
     stftBuffer_ := memset0 (stftBuffer_ st) FFT_SIZE;
     overlapBuffer_ := memset0 (overlapBuffer_ st) FFT_SIZE;
     fftBuffer_ := fftBuffer_ st |}.

(** Constructor: [initWindow(); reset();] on a fresh object. *)
Definition STFTProcessor : t :=
  reset {| window_ := initWindow (fun _ => 0);
           stftBuffer_ := fun _ => 0;
           overlapBuffer_ := fun _ => 0;
           fftBuffer_ := fun _ => C0 |}.

(** [while ((1 << bits) < n) bits++;] *)
Fixpoint count_bits (fuel bits n : nat) : nat :=
  match fuel with
  | O => bits
  | S fuel' => if 2 ^ bits <? n then count_bits fuel' (S bits) n else bits
  end.

(** The inner loop of [bitReverse]: [j = (j << 1) | ((i >> k) & 1)]. *)
Definition reverse (bits i : nat) : nat :=
  for_ bits (fun k j => Nat.lor (Nat.shiftl j 1) (Nat.land (Nat.shiftr i k) 1))
    0%nat.

Definition swap {A : Type} (a : array A) (i j : nat) : array A :=
  upd (upd a i (a j)) j (a i).

Definition bitReverse (data : array complex) (n : nat) : array complex :=
  let bits := count_bits n 0 n in
  for_ n
    (fun i data =>
       let j := reverse bits i in
       if i <? j then swap data i j else data)
    data.

(** The loop over [k] of one butterfly block; the state is the array and
    the running twiddle factor [w]. *)
Definition butterflies (start half : nat) (wn : complex)
    (data : array complex) : array complex :=
  fst (for_ half
         (fun k '(data, w) =>
            let t := Cmul w (data (start + k + half)%nat) in
            let u := data (start + k)%nat in
            let data := upd data (start + k)%nat (Cadd u t) in
            let data := upd data (start + k + half)%nat (Csub u t) in
            (data, Cmul w wn))
         (data, C1)).

(** The values of [start] in [for (start = 0; start < n; start += size)]. *)
Definition starts (n size : nat) : list nat :=
  map (fun b => (b * size)%nat) (seq 0 ((n + size - 1) / size)).

Definition angle (inverse : bool) (size : nat) : R :=
  (if inverse then 2 else -2) * PI / INR size.

(** One pass of the loop over [size]. *)
Definition stage (n size : nat) (inverse : bool) (data : array complex)
  : array complex :=
  let wn := mkC (cos (angle inverse size)) (sin (angle inverse size)) in
  fold_left (fun data start => butterflies start (size / 2) wn data)
    (starts n size) data.

(** [for (int size = 2; size <= n; size *= 2)]. *)
Fixpoint stages (fuel size n : nat) (inverse : bool) (data : array complex)
  : array complex :=
  match fuel with
  | O => data
  | S fuel' =>
      if size <=? n
      then stages fuel' (size * 2)%nat n inverse (stage n size inverse data)
      else data
  end.

Definition fft (data : array complex) (n : nat) (inverse : bool)
  : array complex :=
  let data := bitReverse data n in
  let data := stages n 2 n inverse data in
  if inverse
  then for_ n (fun i data => upd data i (Cdivr (data i) (INR n))) data
  else data.

(** [computeSTFT(audioChunk, realOut, imagOut)]: the two output buffers and
    the new state. *)
Definition computeSTFT (st : t) (audioChunk : list R)
  : list R * list R * t :=
  let stftBuffer := memmove (stftBuffer_ st) HOP_SIZE (FFT_SIZE - HOP_SIZE) in
  let stftBuffer :=
    memcpy stftBuffer (FFT_SIZE - HOP_SIZE) audioChunk HOP_SIZE in
  let fftBuffer :=
    for_ FFT_SIZE
      (fun i fftBuffer =>
         upd fftBuffer i (mkC (stftBuffer i * window_ st i) 0))
      (fftBuffer_ st) in
  let fftBuffer := fft fftBuffer FFT_SIZE false in
  (map (fun i => re (fftBuffer i)) (seq 0 NUM_BINS),
   map (fun i => im (fftBuffer i)) (seq 0 NUM_BINS),
   {| window_ := window_ st;
      stftBuffer_ := stftBuffer;
      overlapBuffer_ := overlapBuffer_ st;
      fftBuffer_ := fftBuffer |}).

(** [reconstructAudio(realIn, imagIn, audioOut)]: the output buffer and the
    new state. *)
Definition reconstructAudio (st : t) (realIn imagIn : list R)
  : list R * t :=
  let fftBuffer :=
    for_ NUM_BINS
      (fun i fftBuffer => upd fftBuffer i (mkC (nth i realIn 0) (nth i imagIn 0)))
      (fftBuffer_ st) in
  let fftBuffer :=
    fold_left
      (fun fftBuffer i => upd fftBuffer (FFT_SIZE - i) (conj (fftBuffer i)))
      (seq 1 (NUM_BINS - 1 - 1)) fftBuffer in
  let fftBuffer := fft fftBuffer FFT_SIZE true in
  let overlapBuffer :=
    for_ FFT_SIZE
      (fun i overlapBuffer =>
         upd overlapBuffer i
           (overlapBuffer i + re (fftBuffer i) * window_ st i))
      (overlapBuffer_ st) in
  let audioOut := map overlapBuffer (seq 0 HOP_SIZE) in
  let overlapBuffer := memmove overlapBuffer HOP_SIZE (FFT_SIZE - HOP_SIZE) in
  let overlapBuffer :=
    fun k =>
      if (FFT_SIZE - HOP_SIZE <=? k) && (k <? FFT_SIZE) then 0
      else overlapBuffer k in
  (audioOut,
   {| window_ := window_ st;
      stftBuffer_ := stftBuffer_ st;
      overlapBuffer_ := overlapBuffer;
      fftBuffer_ := fftBuffer |}).

(** One chunk through analysis and synthesis, the bins passed unchanged. *)
Definition roundTrip (st : t) (audioChunk : list R) : list R * t :=
  let '(realOut, imagOut, st1) := computeSTFT st audioChunk in
  reconstructAudio st1 realOut imagOut.

(** A stream of chunks fed in order: the reconstructed chunks. *)
Fixpoint stream (st : t) (chunks : list (list R)) : list (list R) :=
  match chunks with
  | [] => []
  | chunk :: rest =>
      let '(audioOut, st') := roundTrip st chunk in
      audioOut :: stream st' rest
  end.

End STFT.

(** ** Session bridge ([jni_bridge.cpp])

    The entry points without the JNI marshalling: a Java float array is the
    list of its elements, [nullptr] is [None], and the three global maps
    and the handle counter are the fields of [registry]. *)

Module Bridge.

(** A [std::unordered_map<jlong, std::unique_ptr<T>>]: the object stored
    under each handle, if any. *)
Definition table (T : Type) : Type := Z -> option T.

Definition empty {T : Type} : table T := fun _ => None.

(** [m[handle] = obj]. *)
Definition insert {T : Type} (m : table T) (handle : Z) (obj : T) : table T :=
  fun h => if (h =? handle)%Z then Some obj else m h.

(** [m.erase(handle)]. *)
Definition erase {T : Type} (m : table T) (handle : Z) : table T :=
  fun h => if (h =? handle)%Z then None else m h.

Record registry : Type := mkRegistry {
  processors : table Processor.t;
  inputResamplers : table Resampler.t;
  outputResamplers : table Resampler.t;
  nextHandle : Z
}.

(** The maps and the counter when the library is loaded. *)
Definition initial : registry :=
  {| processors := empty;
     inputResamplers := empty;
     outputResamplers := empty;
     nextHandle := 1 |}.

Definition nativeInit (reg : registry) (vadThresholdDb attenLimDb : R)
  : option (Z * registry) :=
  match Processor.PoiseProcessor vadThresholdDb attenLimDb with
  | Some p =>
      let handle := nextHandle reg in
      Some (handle,
            {| processors := insert (processors reg) handle p;
               inputResamplers := inputResamplers reg;
               outputResamplers := outputResamplers reg;
               nextHandle := nextHandle reg + 1 |})
  | None => None
  end.

Definition nativeSetupInputResampler (reg : registry) (handle inputSr targetSr : Z)
  : registry :=
  if negb (inputSr =? targetSr)%Z then
    {| processors := processors reg;
       inputResamplers :=
         insert (inputResamplers reg) handle
           (Resampler.StreamingResampler inputSr targetSr);
       outputResamplers := outputResamplers reg;
       nextHandle := nextHandle reg |}
  else reg.

Definition nativeSetupOutputResampler (reg : registry)
    (handle targetSr outputSr : Z) : registry :=
  if negb (targetSr =? outputSr)%Z then
    {| processors := processors reg;
       inputResamplers := inputResamplers reg;
       outputResamplers :=
         insert (outputResamplers reg) handle
           (Resampler.StreamingResampler targetSr outputSr);
       nextHandle := nextHandle reg |}
  else reg.

(** [input.resize(480, 0.0f)] when shorter, [input.resize(480)] when
    longer. *)
Definition resize480 (input : list R) : list R :=
  if (length input <? 480)%nat then input ++ repeat 0 (480 - length input)
  else if (480 <? length input)%nat then firstn 480 input
  else input.

Definition nativeProcessPreInference (reg : registry) (handle : Z)
    (audioData : list R) : outcome (option (list R) * registry) :=
  match processors reg handle with
  | None => Ok (None, reg)
  | Some _ =>
      match inputResamplers reg handle with
      | Some resampler =>
          match Resampler.process resampler audioData 480 with
          | Ok (input, resampler') =>
              let reg' :=
                {| processors := processors reg;
                   inputResamplers :=
                     insert (inputResamplers reg) handle resampler';
                   outputResamplers := outputResamplers reg;
                   nextHandle := nextHandle reg |} in
              match input with
              | [] => Ok (None, reg')
              | _ => Ok (Some (resize480 input), reg')
              end
          | Throws => Throws
          | Undefined => Undefined
          end
      | None => Ok (Some (resize480 audioData), reg)
      end
  end.

(** [std::log10]. *)
Definition log10 (x : R) : R := ln x / ln 10.

(** The energy test of [nativeCheckVAD].  For an empty array the mean
    square is [0/0], a NaN: [rms > 1e-10f] is false and the level stays at
    its default. *)
Definition energyDb (audio : list R) : R :=
  match audio with
  | [] => -100
  | _ =>
      let rms := sqrt (VAD.sumSquares audio / INR (length audio)) in
      if Rgtb rms 1e-10 then 20 * log10 rms else -100
  end.

Definition nativeCheckVAD (reg : registry) (handle : Z) (audioData : list R)
  : bool :=
  match processors reg handle with
  | None => true
  | Some p => Rgtb (energyDb audioData) (Processor.vadThresholdDb_ p)
  end.

(** The loop [sample = std::clamp(sample, -1.0f, 1.0f); mean += sample]:
    the clamped samples so far and the running sum. *)
Definition clipAndSum (audio : list R) : list R * R :=
  fold_left
    (fun '(done, mean) sample =>
       let sample := Processor.clamp sample (-1) 1 in
       (done ++ [sample], mean + sample))
    audio ([], 0).

(** The limiter, clamp and DC removal written out in [nativePostProcess]. *)
Definition postProcessSamples (audio : list R) : list R :=
  let maxVal :=
    fold_left (fun maxVal sample => Rmax maxVal (Rabs sample)) audio 0 in
  let audio :=
    if Rgtb maxVal 0.98 && Rgtb maxVal 0 then
      let scale := 0.98 / maxVal in
      map (fun sample => sample * scale) audio
    else audio in
  let '(audio, mean) := clipAndSum audio in
  let mean := mean / INR (length audio) in
  map (fun sample => sample - mean) audio.

(** [static_cast<int>(480 * outputSr / inputSr)] in [int] arithmetic: the
    product must not overflow and the divisor must not be zero. *)
Definition outputSize (resampler : Resampler.t) : option Z :=
  let product := (480 * Resampler.outputSampleRate_ resampler)%Z in
  if ((INT_MIN <=? product) && (product <=? INT_MAX))%Z then
    if (Resampler.inputSampleRate_ resampler =? 0)%Z then None
    else Some (Z.quot product (Resampler.inputSampleRate_ resampler))
  else None.

Definition nativePostProcess (reg : registry) (handle : Z)
    (audioData : list R) : outcome (list R * registry) :=
  match processors reg handle with
  | None => Ok (audioData, reg)
  | Some _ =>
      let audio := postProcessSamples audioData in
      match outputResamplers reg handle with
      | Some resampler =>
          match outputSize resampler with
          | None => Undefined
          | Some n =>
              match Resampler.process resampler audio n with
              | Ok (audio', resampler') =>
                  Ok (audio',
                      {| processors := processors reg;
                         inputResamplers := inputResamplers reg;
                         outputResamplers :=
                           insert (outputResamplers reg) handle resampler';
                         nextHandle := nextHandle reg |})
              | Throws => Throws
              | Undefined => Undefined
              end
          end
      | None => Ok (audio, reg)
      end
  end.

Definition nativeReset (reg : registry) (handle : Z) : registry :=
  {| processors :=
       match processors reg handle with
       | Some p => insert (processors reg) handle (Processor.reset p)
       | None => processors reg
       end;
     inputResamplers :=
       match inputResamplers reg handle with
       | Some r => insert (inputResamplers reg) handle (Resampler.reset r)
       | None => inputResamplers reg
       end;
     outputResamplers :=
       match outputResamplers reg handle with
       | Some r => insert (outputResamplers reg) handle (Resampler.reset r)
       | None => outputResamplers reg
       end;
     nextHandle := nextHandle reg |}.

Definition nativeDestroy (reg : registry) (handle : Z) : registry :=
  {| processors := erase (processors reg) handle;
     inputResamplers := erase (inputResamplers reg) handle;
     outputResamplers := erase (outputResamplers reg) handle;
     nextHandle := nextHandle reg |}.

(** The transform engines live in a map and a counter of their own. *)
Record stftRegistry : Type := mkStftRegistry {
  stftProcessors : table STFT.t;
  nextStftHandle : Z
}.

Definition stftInitial : stftRegistry :=
  {| stftProcessors := empty; nextStftHandle := 1 |}.

Definition nativeSTFTInit (reg : stftRegistry) : Z * stftRegistry :=
  let handle := nextStftHandle reg in
  (handle,
   {| stftProcessors := insert (stftProcessors reg) handle STFT.STFTProcessor;
      nextStftHandle := nextStftHandle reg + 1 |}).

(** The 514 floats returned: 257 real parts, then 257 imaginary parts.
    The engine reads 256 samples from [audioChunk]; the caller is to pass
    that many. *)
Definition nativeComputeSTFT (reg : stftRegistry) (handle : Z)
    (audioChunk : list R) : option (list R) * stftRegistry :=
  match stftProcessors reg handle with
  | None => (None, reg)
  | Some st =>
      let '(realOut, imagOut, st') := STFT.computeSTFT st audioChunk in
      (Some (realOut ++ imagOut),
       {| stftProcessors := insert (stftProcessors reg) handle st';
          nextStftHandle := nextStftHandle reg |})
  end.

(** [realIn = data; imagIn = data + 257]; the caller is to pass the 514
    floats. *)
Definition nativeReconstruct (reg : stftRegistry) (handle : Z)
    (stftData : list R) : option (list R) * stftRegistry :=
  match stftProcessors reg handle with
  | None => (None, reg)
  | Some st =>
      let '(audioOut, st') :=
        STFT.reconstructAudio st stftData (skipn 257 stftData) in
      (Some audioOut,
       {| stftProcessors := insert (stftProcessors reg) handle st';
          nextStftHandle := nextStftHandle reg |})
  end.

Definition nativeSTFTReset (reg : stftRegistry) (handle : Z) : stftRegistry :=
  match stftProcessors reg handle with
  | Some st =>
      {| stftProcessors := insert (stftProcessors reg) handle (STFT.reset st);
         nextStftHandle := nextStftHandle reg |}
  | None => reg
  end.

Definition nativeSTFTDestroy (reg : stftRegistry) (handle : Z) : stftRegistry :=
  {| stftProcessors := erase (stftProcessors reg) handle;
     nextStftHandle := nextStftHandle reg |}.

End Bridge.

(** * Specification vocabulary and fixtures *)

Declare Scope complex_scope.
Delimit Scope complex_scope with C.
Bind Scope complex_scope with STFT.complex.
Notation "a + b" := (STFT.Cadd a b) : complex_scope.
Notation "a - b" := (STFT.Csub a b) : complex_scope.
Notation "a * b" := (STFT.Cmul a b) : complex_scope.
Notation "- a" := (STFT.Copp a) : complex_scope.

Section SampleVocabulary.

(** The sum of the samples of a frame. *)
Fixpoint sum_samples (frame : list R) : R :=
  match frame with
  | [] => 0
  | s :: rest => s + sum_samples rest
  end.

(** The largest magnitude in a frame, 0 for the empty frame. *)
Fixpoint max_abs (frame : list R) : R :=
  match frame with
  | [] => 0
  | s :: rest => Rmax (Rabs s) (max_abs rest)
  end.

(** The root of the mean of the squares of a frame. *)
Definition root_mean_square (frame : list R) : R :=
  sqrt (sum_samples (map (fun s => s * s) frame) / INR (length frame)).

End SampleVocabulary.

Section VADFixtures.

Import VAD.

(** A frame of 480 samples at 0.005, half the -40 dB threshold. *)
Definition faint : list R := repeat (5 / 1000) 480.

(** The detector of a default session: threshold -40 dB, 300 ms hang
    time, 48 kHz. *)
Definition vad0 : VAD.t :=
  {| thresholdDb_ := -40;
     thresholdLinear_ := Rpower 10 (-40 / 20);
     hangFrames_ := 30;
     framesSinceActive_ := 31;
     totalFrames_ := 0;
     activeFrames_ := 0;
     bypassedFrames_ := 0 |}.

(** A full-scale frame, well above the threshold. *)
Definition loud : list R := repeat 1 480.

End VADFixtures.

Section ResamplerVocabulary.

Import Resampler.

(** The new phase when [outputSize] samples have been produced. *)
Definition next_phase (st : t) (outputSize : Z) : R :=
  frac_part (phase_ st + frac_part (IZR outputSize / ratio_ st)).

(** A resampler from 24 kHz to 48 kHz (ratio 2) at phase [phase] with
    [accumulator] buffered. *)
Definition doubler (phase : R) (accumulator : list R) : t :=
  {| inputSampleRate_ := 24000;
     outputSampleRate_ := 48000;
     ratio_ := IZR 48000 / IZR 24000;
     phase_ := phase;
     accumulator_ := accumulator |}.

(** Three samples of a ramp. *)
Definition ramp : list R := [1; 2; 3].

End ResamplerVocabulary.

Section ProcessorFixtures.

Import Processor.

(** The processor of a default session. *)
Definition processor0 : t :=
  {| vadThresholdDb_ := -40;
     attenLimDb_ := -60;
     frameSize_ := 480;
     sampleRate_ := 48000;
     states_ := repeat 0 (Z.to_nat ONNX_STATE_SIZE);
     frameCount_ := 0;
     totalProcessingTimeMs_ := 0;
     vad_ := vad0 |}.

(** A stub callback that returns its input and leaves everything else
    alone. *)
Definition stub : OnnxInferenceCallback unit :=
  fun frame states _ w => (frame, states, w).

(** A callback that returns nothing. *)
Definition mute : OnnxInferenceCallback unit :=
  fun _ states _ w => ([], states, w).

(** A short frame with peak amplitude 1.5. *)
Definition overdriven : list R := [1.5; -0.5; 0.25].

(** One sample at [+1], the other 479 at [-1]. *)
Definition spike : list R := 1 :: repeat (-1) 479.

End ProcessorFixtures.

Section FourierVocabulary.

Import STFT.

(** [cis x] is the point of the unit circle at angle [x]. *)
Definition cis (x : R) : complex := mkC (cos x) (sin x).

(** [csum f n] is [f 0 + ... + f (n-1)]. *)
Fixpoint csum (f : nat -> complex) (n : nat) : complex :=
  match n with
  | O => C0
  | S k => (csum f k + f k)%C
  end.

(** The array after the first [m] butterflies of the block at [start]. *)
Definition butterflies_fun (start half : nat) (a : R) (data : array complex)
    (m : nat) : array complex :=
  fun p =>
    if ((start <=? p) && (p <? start + m))%nat then
      (data p + cis (INR (p - start) * a) * data (p + half)%nat)%C
    else if ((start + half <=? p) && (p <? start + half + m))%nat then
      (data (p - half)%nat - cis (INR (p - half - start) * a) * data p)%C
    else data p.

(** The array after one whole pass with blocks of [2 * half] cells. *)
Definition stage_fun (half : nat) (a : R) (data : array complex)
  : array complex :=
  fun p =>
    if (p mod (2 * half) <? half)%nat then
      (data p + cis (INR (p mod (2 * half)) * a) * data (p + half)%nat)%C
    else
      (data (p - half)%nat
       - cis (INR (p mod (2 * half) - half) * a) * data p)%C.

(** The discrete Fourier sum of the first [n] cells of [x] at bin [k],
    with the sign of the exponent chosen as [fft] does. *)
Definition dft (inverse : bool) (x : array complex) (n k : nat) : complex :=
  csum (fun j => (x j * cis (angle inverse n * INR (j * k)))%C) n.

(** After the passes up to blocks of [2^t] cells, with [2^b] blocks: block
    [B] holds the transform of the [2^t] inputs at stride [2^b] from
    position [reverse b B]. *)
Definition passes_done (inverse : bool) (x : array complex) (t b : nat)
    (data : array complex) : Prop :=
  forall B k, (B < 2 ^ b)%nat -> (k < 2 ^ t)%nat ->
    data (B * 2 ^ t + k)%nat
    = csum (fun j => (x (reverse b B + j * 2 ^ b)%nat
                      * cis (angle inverse (2 ^ t) * INR (j * k)))%C)
        (2 ^ t).

(** The Hann window, whose square root [initWindow] stores. *)
Definition hann (i : nat) : R :=
  0.5 * (1 - cos (2 * PI * INR i / INR FFT_SIZE)).

(** What the engine holds between two chunks when [prev] was the last
    chunk fed: the window, [prev] in the upper half of the sliding buffer,
    and the tail of [prev]'s synthesis frame in the lower half of the
    overlap buffer. *)
Definition primed (st : t) (prev : list R) : Prop :=
  (forall i, (i < FFT_SIZE)%nat -> window_ st i = sqrt (hann i))
  /\ (forall i, (i < HOP_SIZE)%nat ->
        stftBuffer_ st (HOP_SIZE + i)%nat = nth i prev 0)
  /\ (forall i, (i < HOP_SIZE)%nat ->
        overlapBuffer_ st i = hann (i + HOP_SIZE) * nth i prev 0)
  /\ (forall i, (HOP_SIZE <= i < FFT_SIZE)%nat -> overlapBuffer_ st i = 0).

End FourierVocabulary.

Section FurtherVocabulary.

(** The engines a session can hold: a new one, and whatever the three
    operations make of an engine a session can hold. *)
Inductive reachable : STFT.t -> Prop :=
| reach_new : reachable STFT.STFTProcessor
| reach_compute (st : STFT.t) (audioChunk : list R) :
    reachable st -> reachable (snd (STFT.computeSTFT st audioChunk))
| reach_reconstruct (st : STFT.t) (realIn imagIn : list R) :
    reachable st -> reachable (snd (STFT.reconstructAudio st realIn imagIn))
| reach_reset (st : STFT.t) : reachable st -> reachable (STFT.reset st).

(** What the constructor of [StreamingResampler] establishes for positive
    rates and every call keeps. *)
Definition resampler_wf (st : Resampler.t) : Prop :=
  (0 < Resampler.inputSampleRate_ st <= INT_MAX)%Z
  /\ (0 < Resampler.outputSampleRate_ st)%Z
  /\ Resampler.ratio_ st
     = IZR (Resampler.outputSampleRate_ st)
       / IZR (Resampler.inputSampleRate_ st)
  /\ 0 <= Resampler.phase_ st < 1.

(** The value linear interpolation gives output sample [i]. *)
Definition interpolated (st : Resampler.t) (acc : list R) (i : Z) : R :=
  let k := Z.to_nat (Int_part (Resampler.srcPos st i)) in
  nth k acc 0 * (1 - frac_part (Resampler.srcPos st i))
  + nth (S k) acc 0 * frac_part (Resampler.srcPos st i).

(** The counters of a processor and of its detector tell the same story. *)
Definition counters_consistent (p : Processor.t) : Prop :=
  Processor.frameCount_ p = VAD.activeFrames_ (Processor.vad_ p)
  /\ VAD.totalFrames_ (Processor.vad_ p)
     = (VAD.activeFrames_ (Processor.vad_ p)
        + VAD.bypassedFrames_ (Processor.vad_ p))%Z
  /\ (0 <= VAD.activeFrames_ (Processor.vad_ p))%Z
  /\ (0 <= VAD.bypassedFrames_ (Processor.vad_ p))%Z.

(** No handle at or above the counter is in use. *)
Definition handles_fresh (reg : Bridge.registry) : Prop :=
  forall h, (Bridge.nextHandle reg <= h)%Z -> Bridge.processors reg h = None.

(** The registry after one [nativeInit (-40) (-60)] on a newly loaded
    library. *)
Definition session0 : Bridge.registry :=
  {| Bridge.processors := Bridge.insert Bridge.empty 1 processor0;
     Bridge.inputResamplers := Bridge.empty;
     Bridge.outputResamplers := Bridge.empty;
     Bridge.nextHandle := 2 |}.

(** The transform registry after one [nativeSTFTInit]. *)
Definition stftSession0 : Bridge.stftRegistry :=
  snd (Bridge.nativeSTFTInit Bridge.stftInitial).

End FurtherVocabulary.

(** * Proofs *)

(** Case analysis on every index comparison of the goal. *)
Ltac range_cases :=
  repeat match goal with
    | |- context [(?a <=? ?b)%nat] => destruct (Nat.leb_spec a b)
    | |- context [(?a <? ?b)%nat] => destruct (Nat.ltb_spec a b)
    end;
  cbn [andb orb negb]; try lia.

(** Distribute [INR] over sums and products. *)
Ltac push_INR :=
  repeat (rewrite mult_INR || rewrite plus_INR);
  change (INR 2) with 2; change (INR 1) with 1.


(** ** Facts about the numeric conversions *)

Lemma Rgtb_true a b : a > b -> Rgtb a b = true.
Proof. unfold Rgtb; destruct (Rgt_dec a b); intuition. Qed.

Lemma Rgtb_false a b : a <= b -> Rgtb a b = false.
Proof. unfold Rgtb; destruct (Rgt_dec a b); [lra | reflexivity]. Qed.

Lemma Rltb_true a b : a < b -> Rltb a b = true.
Proof. unfold Rltb; destruct (Rlt_dec a b); intuition. Qed.

Lemma Rltb_false a b : b <= a -> Rltb a b = false.
Proof. unfold Rltb; destruct (Rlt_dec a b); [lra | reflexivity]. Qed.

Lemma Int_part_bounds x : IZR (Int_part x) <= x < IZR (Int_part x) + 1.
Proof. destruct (base_Int_part x); lra. Qed.

Lemma Int_part_IZR z : Int_part (IZR z) = z.
Proof. symmetry; apply Int_part_spec; lra. Qed.

Lemma trunc_nonneg x : 0 <= x -> trunc x = Int_part x.
Proof. intros H; unfold trunc; destruct (Rle_dec 0 x); [reflexivity | lra]. Qed.

Lemma trunc_IZR z : trunc (IZR z) = z.
Proof.
  unfold trunc; destruct (Rle_dec 0 (IZR z)).
  - apply Int_part_IZR.
  - rewrite <- opp_IZR, Int_part_IZR; lia.
Qed.

Lemma Int_part_nonneg x : 0 <= x -> (0 <= Int_part x)%Z.
Proof.
  intros H. destruct (Int_part_bounds x) as [_ Hu].
  assert (IZR (-1) < IZR (Int_part x)) by (simpl; lra).
  apply lt_IZR in H0; lia.
Qed.

Lemma Int_part_le_IZR x z : x < IZR z + 1 -> (Int_part x <= z)%Z.
Proof.
  intros H. destruct (Int_part_bounds x) as [Hl _].
  assert (IZR (Int_part x) < IZR (z + 1)) by (rewrite plus_IZR; lra).
  apply lt_IZR in H0; lia.
Qed.

Lemma Int_part_ge_IZR x z : IZR z <= x -> (z <= Int_part x)%Z.
Proof.
  intros H. destruct (Int_part_bounds x) as [_ Hu].
  assert (IZR z < IZR (Int_part x + 1)) by (rewrite plus_IZR; lra).
  apply lt_IZR in H0; lia.
Qed.

Lemma static_cast_int_IZR z :
  (INT_MIN <= z <= INT_MAX)%Z -> static_cast_int (IZR z) = Some z.
Proof.
  intros [Hl Hu]. unfold static_cast_int. rewrite trunc_IZR.
  apply Z.leb_le in Hl, Hu. now rewrite Hl, Hu.
Qed.

Lemma static_cast_int_Some x z :
  static_cast_int x = Some z -> z = trunc x /\ (INT_MIN <= z <= INT_MAX)%Z.
Proof.
  unfold static_cast_int.
  destruct ((INT_MIN <=? trunc x)%Z && (trunc x <=? INT_MAX)%Z) eqn:E;
    [|discriminate].
  intros [= <-]. apply andb_prop in E as [E1 E2].
  apply Z.leb_le in E1, E2. auto.
Qed.


(** ** Voice activity detector *)

Section VADFacts.

Import VAD.

Lemma sumSquares_from (audio : list R) (a : R) :
  fold_left (fun acc sample => acc + sample * sample) audio a
  = a + sumSquares audio.
Proof.
  unfold sumSquares. revert a.
  induction audio as [|s audio IH]; intros a; simpl.
  - lra.
  - rewrite IH, (IH (0 + s * s)). lra.
Qed.

Lemma sumSquares_repeat (c : R) (n : nat) :
  sumSquares (repeat c n) = INR n * (c * c).
Proof.
  induction n as [|n IH].
  - simpl. unfold sumSquares. simpl. lra.
  - replace (sumSquares (repeat c (S n))) with (c * c + sumSquares (repeat c n)).
    + rewrite IH, S_INR. lra.
    + unfold sumSquares. simpl. rewrite !sumSquares_from. lra.
Qed.

Lemma rms_silence (n : nat) : rms (silence n) = 0.
Proof.
  unfold rms, silence. rewrite sumSquares_repeat.
  replace (INR n * (0 * 0) / INR (length (repeat 0 n))) with 0
    by (unfold Rdiv; ring).
  apply sqrt_0.
Qed.

Lemma rms_ones (n : nat) : (0 < n)%nat -> rms (repeat 1 n) = 1.
Proof.
  intros Hn. unfold rms. rewrite sumSquares_repeat, repeat_length.
  assert (0 < INR n) by (apply lt_0_INR; exact Hn).
  replace (INR n * (1 * 1) / INR n) with 1 by (field; lra).
  apply sqrt_1.
Qed.

Lemma Rpower_10_pos (x : R) : 0 < Rpower 10 x.
Proof. unfold Rpower. apply exp_pos. Qed.

Lemma Rpower_10_neg_lt_1 (x : R) : x < 0 -> Rpower 10 x < 1.
Proof.
  intros Hx. unfold Rpower. rewrite <- exp_0. apply exp_increasing.
  assert (0 < ln 10) by (rewrite <- ln_1; apply ln_increasing; lra).
  nra.
Qed.

(** A zero frame is below every positive threshold. *)
Lemma isActive_silence (v : t) (n : nat) :
  0 <= thresholdLinear_ v -> isActive v (silence n) = false.
Proof.
  intros Hthr. unfold isActive.
  destruct (silence n) eqn:E; [reflexivity|].
  rewrite <- E. apply Rgtb_false. rewrite rms_silence. exact Hthr.
Qed.

Lemma isActive_ones (v : t) (n : nat) :
  (0 < n)%nat -> thresholdLinear_ v < 1 -> isActive v (repeat 1 n) = true.
Proof.
  intros Hn Hthr. unfold isActive.
  destruct (repeat 1 n) eqn:E.
  - destruct n; [lia | discriminate].
  - rewrite <- E. apply Rgtb_true. rewrite rms_ones by exact Hn. lra.
Qed.

(** The activity test reads the threshold only. *)
Lemma isActive_ext (v v' : t) (audio : list R) :
  thresholdLinear_ v' = thresholdLinear_ v ->
  isActive v' audio = isActive v audio.
Proof. intros H. unfold isActive. now rewrite H. Qed.

Lemma isSpeech_thresholdLinear (v : t) (audio : list R) :
  thresholdLinear_ (snd (isSpeech v audio)) = thresholdLinear_ v.
Proof.
  unfold isSpeech. destruct (isActive v audio); [reflexivity|].
  destruct (_ <? _)%Z; reflexivity.
Qed.

Lemma isSpeech_hangFrames (v : t) (audio : list R) :
  hangFrames_ (snd (isSpeech v audio)) = hangFrames_ v.
Proof.
  unfold isSpeech. destruct (isActive v audio); [reflexivity|].
  destruct (_ <? _)%Z; reflexivity.
Qed.

Lemma isSpeech_active (v : t) (audio : list R) :
  isActive v audio = true ->
  fst (isSpeech v audio) = true
  /\ framesSinceActive_ (snd (isSpeech v audio)) = 0%Z.
Proof. intros H. unfold isSpeech. rewrite H. auto. Qed.

Lemma isSpeech_inactive (v : t) (audio : list R) :
  isActive v audio = false ->
  fst (isSpeech v audio)
  = (framesSinceActive_ v + 1 <? hangFrames_ v)%Z
  /\ framesSinceActive_ (snd (isSpeech v audio))
     = (framesSinceActive_ v + 1)%Z
  /\ bypassedFrames_ (snd (isSpeech v audio))
     = (bypassedFrames_ v
        + (if (framesSinceActive_ v + 1 <? hangFrames_ v)%Z then 0 else 1))%Z
  /\ activeFrames_ (snd (isSpeech v audio))
     = (activeFrames_ v
        + (if (framesSinceActive_ v + 1 <? hangFrames_ v)%Z then 1 else 0))%Z.
Proof.
  intros H. unfold isSpeech. rewrite H.
  destruct (_ <? _)%Z; simpl; repeat split; lia.
Qed.

Lemma isSpeech_since_bound (v : t) (audio : list R) :
  (0 <= framesSinceActive_ v)%Z ->
  (0 <= framesSinceActive_ (snd (isSpeech v audio))
     <= framesSinceActive_ v + 1)%Z.
Proof.
  intros H. unfold isSpeech. destruct (isActive v audio); simpl; [lia|].
  destruct (_ <? _)%Z; simpl; lia.
Qed.

Lemma run_cons (v : t) (f : list R) (frames : list (list R)) :
  run v (f :: frames)
  = (fst (isSpeech v f) :: fst (run (snd (isSpeech v f)) frames),
     snd (run (snd (isSpeech v f)) frames)).
Proof.
  simpl. destruct (isSpeech v f) as [b v1]. simpl.
  destruct (run v1 frames) as [bs v2]. reflexivity.
Qed.

Lemma run_cons_snd (v : t) (f : list R) (frames : list (list R)) :
  snd (run v (f :: frames)) = snd (run (snd (isSpeech v f)) frames).
Proof. rewrite run_cons. reflexivity. Qed.

Lemma run_cons_fst (v : t) (f : list R) (frames : list (list R)) :
  fst (run v (f :: frames))
  = fst (isSpeech v f) :: fst (run (snd (isSpeech v f)) frames).
Proof. rewrite run_cons. reflexivity. Qed.

Lemma run_app (frames more : list (list R)) (v : t) :
  run v (frames ++ more)
  = (fst (run v frames) ++ fst (run (snd (run v frames)) more),
     snd (run (snd (run v frames)) more)).
Proof.
  revert v. induction frames as [|f frames IH]; intros v.
  - simpl. now destruct (run v more).
  - rewrite <- app_comm_cons, !run_cons, IH. reflexivity.
Qed.

Lemma run_hangFrames (frames : list (list R)) (v : t) :
  hangFrames_ (snd (run v frames)) = hangFrames_ v.
Proof.
  revert v. induction frames as [|f frames IH]; intros v; [reflexivity|].
  rewrite run_cons. simpl. rewrite IH. apply isSpeech_hangFrames.
Qed.

Lemma run_thresholdLinear (frames : list (list R)) (v : t) :
  thresholdLinear_ (snd (run v frames)) = thresholdLinear_ v.
Proof.
  revert v. induction frames as [|f frames IH]; intros v; [reflexivity|].
  rewrite run_cons. simpl. rewrite IH. apply isSpeech_thresholdLinear.
Qed.

(** While the counter cannot reach [hangFrames_], every verdict is
    "speech", whatever the frames hold. *)
Lemma run_within_hang (frames : list (list R)) (v : t) :
  (0 <= framesSinceActive_ v)%Z ->
  (framesSinceActive_ v + Z.of_nat (length frames) < hangFrames_ v)%Z ->
  Forall (fun b => b = true) (fst (run v frames)).
Proof.
  revert v. induction frames as [|f frames IH]; intros v H0 Hlt.
  - constructor.
  - rewrite run_cons. simpl fst. simpl length in Hlt.
    pose proof (isSpeech_since_bound v f H0) as Hb.
    constructor.
    + destruct (isActive v f) eqn:E.
      * apply isSpeech_active; exact E.
      * destruct (isSpeech_inactive v f E) as [-> _].
        apply Z.ltb_lt. lia.
    + apply IH; [lia|]. rewrite isSpeech_hangFrames. lia.
Qed.

(** Verdicts on a run of frames that are all below threshold: the
    [j]-th one is "speech" iff the counter is still below [hangFrames_]. *)
Lemma run_quiet (quiet : list (list R)) (v : t) :
  Forall (fun q => isActive v q = false) quiet ->
  fst (run v quiet)
  = map (fun j => (framesSinceActive_ v + Z.of_nat j <? hangFrames_ v)%Z)
        (seq 1 (length quiet))
  /\ framesSinceActive_ (snd (run v quiet))
     = (framesSinceActive_ v + Z.of_nat (length quiet))%Z.
Proof.
  revert v. induction quiet as [|q quiet IH]; intros v Hq.
  - simpl. split; [reflexivity | lia].
  - inversion Hq as [|? ? Hq1 Hq2]; subst.
    rewrite run_cons. simpl fst. simpl snd.
    destruct (isSpeech_inactive v q Hq1) as (Hb & Hs & _).
    destruct (IH (snd (isSpeech v q))) as [IH1 IH2].
    { eapply Forall_impl; [|exact Hq2]. intros a Ha. simpl in Ha.
      rewrite (isActive_ext v); [exact Ha | apply isSpeech_thresholdLinear]. }
    split.
    + simpl length. rewrite <- cons_seq. simpl map. f_equal.
      * rewrite Hb. f_equal.
      * rewrite IH1, <- (seq_shift (length quiet) 1), map_map.
        apply map_ext. intros j. rewrite Hs, isSpeech_hangFrames.
        f_equal. lia.
    + rewrite IH2, Hs. simpl length. lia.
Qed.

Lemma VoiceActivityDetector_default (thresholdDb : R) :
  VoiceActivityDetector thresholdDb 300 48000
  = Some {| thresholdDb_ := thresholdDb;
            thresholdLinear_ := Rpower 10 (thresholdDb / 20);
            hangFrames_ := 30;
            framesSinceActive_ := 31;
            totalFrames_ := 0;
            activeFrames_ := 0;
            bypassedFrames_ := 0 |}.
Proof.
  unfold VoiceActivityDetector, DEFAULT_FRAME_SIZE.
  replace (300 * 48000 / 1000 / 480) with (IZR 30) by (simpl; field).
  rewrite static_cast_int_IZR; [reflexivity|].
  unfold INT_MIN, INT_MAX. lia.
Qed.

Lemma VoiceActivityDetector_hangFrames thr hangTimeMs sr v :
  VoiceActivityDetector thr hangTimeMs sr = Some v ->
  hangFrames_ v = trunc (hangTimeMs * IZR sr / 1000 / 480)
  /\ thresholdLinear_ v = Rpower 10 (thr / 20).
Proof.
  unfold VoiceActivityDetector, DEFAULT_FRAME_SIZE.
  destruct (static_cast_int _) as [h|] eqn:E; [|discriminate].
  intros [= <-]. simpl. apply static_cast_int_Some in E. tauto.
Qed.

End VADFacts.

Section VADClaims.

Import VAD.

Lemma vad0_constructed : VoiceActivityDetector (-40) 300 48000 = Some vad0.
Proof. apply VoiceActivityDetector_default. Qed.

Lemma threshold_minus40 : 0 < Rpower 10 (-40 / 20) < 1.
Proof.
  split; [apply Rpower_10_pos | apply Rpower_10_neg_lt_1; lra].
Qed.

Lemma isActive_loud (v : t) :
  thresholdLinear_ v < 1 -> isActive v loud = true.
Proof. intros H. apply isActive_ones; [lia | exact H]. Qed.

Lemma Forall_repeat {A} (P : A -> Prop) (a : A) (n : nat) :
  P a -> Forall P (repeat a n).
Proof. intros H. induction n; simpl; constructor; assumption. Qed.

(** One loud frame, then [k] zero frames: the verdicts on the zero frames
    and the counter afterwards. *)
Lemma loud_then_silence (v : t) (n k : nat) :
  0 <= thresholdLinear_ v < 1 ->
  let v1 := snd (isSpeech v loud) in
  fst (isSpeech v loud) = true
  /\ fst (run v1 (repeat (silence n) k))
     = map (fun j => (Z.of_nat j <? hangFrames_ v)%Z) (seq 1 k)
  /\ framesSinceActive_ (snd (run v1 (repeat (silence n) k))) = Z.of_nat k
  /\ hangFrames_ (snd (run v1 (repeat (silence n) k))) = hangFrames_ v
  /\ thresholdLinear_ (snd (run v1 (repeat (silence n) k)))
     = thresholdLinear_ v.
Proof.
  intros [H0 H1] v1.
  destruct (isSpeech_active v loud (isActive_loud v H1)) as [Hb Hs].
  assert (Ht : thresholdLinear_ v1 = thresholdLinear_ v)
    by apply isSpeech_thresholdLinear.
  assert (Hh : hangFrames_ v1 = hangFrames_ v) by apply isSpeech_hangFrames.
  destruct (run_quiet (repeat (silence n) k) v1) as [Hv Hc].
  { apply Forall_repeat. apply isActive_silence. rewrite Ht. exact H0. }
  rewrite repeat_length in Hv, Hc. fold v1 in Hs.
  rewrite Hs, Hh in Hv. rewrite Hs in Hc.
  repeat split; try assumption.
  - rewrite run_hangFrames. exact Hh.
  - rewrite run_thresholdLinear. exact Ht.
Qed.

(** C3, amended: once a frame is active by its energy (RMS above the
    linear threshold), the next [hangFrames_ - 1] calls of [isSpeech]
    return true, whatever those frames hold. *)
Theorem vad_hold_after_energy_active
    (v : t) (f : list R) (frames : list (list R)) :
  isActive v f = true ->
  (Z.of_nat (length frames) <= hangFrames_ v - 1)%Z ->
  fst (isSpeech v f) = true
  /\ Forall (fun b => b = true) (fst (run (snd (isSpeech v f)) frames)).
Proof.
  intros Hact Hlen. destruct (isSpeech_active v f Hact) as [Hb Hs].
  split; [exact Hb|].
  apply run_within_hang.
  - rewrite Hs. lia.
  - rewrite Hs, isSpeech_hangFrames. lia.
Qed.

Lemma vad_hold_after_energy_active_witness :
  isActive vad0 loud = true
  /\ (Z.of_nat (length [silence 480; loud; silence 480])
      <= hangFrames_ vad0 - 1)%Z
  /\ fst (isSpeech vad0 loud) = true
  /\ Forall (fun b => b = true)
       (fst (run (snd (isSpeech vad0 loud))
               [silence 480; loud; silence 480])).
Proof.
  assert (H1 : isActive vad0 loud = true).
  { apply isActive_loud. simpl. apply threshold_minus40. }
  assert (H2 : (Z.of_nat (length [silence 480; loud; silence 480])
                <= hangFrames_ vad0 - 1)%Z) by (simpl; lia).
  split; [exact H1|]. split; [exact H2|].
  exact (vad_hold_after_energy_active vad0 loud
           [silence 480; loud; silence 480] H1 H2).
Defined.

(** C3 as stated fails: a call that returns true only because of the
    hold does not start a new hold.  In a default session, after one loud
    frame and 28 zero frames the next zero frame still returns true, and
    the zero frame after it returns false. *)
Lemma vad_hold_after_true_counterexample :
  exists (v0 : t) (history : list (list R)) (f : list R)
         (frames : list (list R)),
    VoiceActivityDetector (-40) 300 48000 = Some v0
    /\ fst (isSpeech (snd (run v0 history)) f) = true
    /\ (Z.of_nat (length frames)
        <= hangFrames_ (snd (run v0 history)) - 1)%Z
    /\ ~ Forall (fun b => b = true)
           (fst (run (snd (isSpeech (snd (run v0 history)) f)) frames)).
Proof.
  exists vad0, (loud :: repeat (silence 480) 28), (silence 480),
    [silence 480].
  pose proof threshold_minus40 as Hthr.
  destruct (loud_then_silence vad0 480 28) as (_ & _ & Hc & Hh & Ht).
  { simpl. lra. }
  rewrite run_cons_snd.
  set (v := snd (run (snd (isSpeech vad0 loud)) (repeat (silence 480) 28)))
    in *.
  change (hangFrames_ vad0) with 30%Z in Hh.
  change (thresholdLinear_ vad0) with (Rpower 10 (-40 / 20)) in Ht.
  assert (Hq : isActive v (silence 480) = false).
  { apply isActive_silence. rewrite Ht. lra. }
  destruct (isSpeech_inactive v (silence 480) Hq) as (Hb & Hs & _).
  rewrite Hc, Hh in Hb. rewrite Hc in Hs.
  split; [apply vad0_constructed|].
  split; [rewrite Hb; reflexivity|].
  split; [rewrite Hh; simpl; lia|].
  intros HF. rewrite run_cons_fst in HF.
  inversion HF as [|? ? Hfalse _]; subst.
  assert (Hq' : isActive (snd (isSpeech v (silence 480))) (silence 480)
                = false).
  { apply isActive_silence. rewrite isSpeech_thresholdLinear, Ht. lra. }
  destruct (isSpeech_inactive _ _ Hq') as (Hb' & _).
  rewrite Hs, isSpeech_hangFrames, Hh in Hb'.
  rewrite Hb' in Hfalse. discriminate.
Qed.

(** C4, amended: in a detector built by the constructor, a frame that is
    active by its energy is followed by a hold of [hangFrames - 1] frames,
    where [hangFrames] is [hangTimeMs * sampleRate / 1000 / 480]
    truncated: of the below-threshold frames that follow, the [j]-th is
    classified as speech exactly when [j < hangFrames]. *)
Theorem vad_hold_length
    (thresholdDb hangTimeMs : R) (sampleRate : Z) (v0 : t)
    (history : list (list R)) (f : list R) (quiet : list (list R)) :
  VoiceActivityDetector thresholdDb hangTimeMs sampleRate = Some v0 ->
  isActive v0 f = true ->
  Forall (fun q => isActive v0 q = false) quiet ->
  fst (run (snd (isSpeech (snd (run v0 history)) f)) quiet)
  = map (fun j =>
           (Z.of_nat j <? trunc (hangTimeMs * IZR sampleRate / 1000 / 480))%Z)
        (seq 1 (length quiet)).
Proof.
  intros Hv0 Hact Hq.
  destruct (VoiceActivityDetector_hangFrames _ _ _ _ Hv0) as [Hh _].
  set (v := snd (run v0 history)).
  assert (Ht : thresholdLinear_ v = thresholdLinear_ v0)
    by apply run_thresholdLinear.
  assert (Hact' : isActive v f = true)
    by (rewrite (isActive_ext v0); assumption).
  destruct (isSpeech_active v f Hact') as [_ Hs].
  destruct (run_quiet quiet (snd (isSpeech v f))) as [Hr _].
  { eapply Forall_impl; [|exact Hq]. intros a Ha. simpl in Ha.
    rewrite (isActive_ext v0); [exact Ha|].
    rewrite isSpeech_thresholdLinear. exact Ht. }
  rewrite Hr, Hs, isSpeech_hangFrames. unfold v.
  rewrite run_hangFrames, Hh. reflexivity.
Qed.

Lemma vad_hold_length_witness :
  VoiceActivityDetector (-40) 300 48000 = Some vad0
  /\ isActive vad0 loud = true
  /\ Forall (fun q => isActive vad0 q = false) [silence 480; silence 480]
  /\ fst (run (snd (isSpeech (snd (run vad0 [silence 480])) loud))
            [silence 480; silence 480])
     = map (fun j =>
              (Z.of_nat j <? trunc (300 * IZR 48000 / 1000 / 480))%Z)
           (seq 1 (length [silence 480; silence 480])).
Proof.
  assert (H1 : isActive vad0 loud = true).
  { apply isActive_loud. simpl. apply threshold_minus40. }
  assert (H2 : Forall (fun q => isActive vad0 q = false)
                 [silence 480; silence 480]).
  { pose proof threshold_minus40.
    repeat constructor; apply isActive_silence; simpl; lra. }
  split; [exact vad0_constructed|]. split; [exact H1|]. split; [exact H2|].
  exact (vad_hold_length (-40) 300 48000 vad0 [silence 480] loud
           [silence 480; silence 480] vad0_constructed H1 H2).
Defined.

(** C4 as stated fails by one frame: in a default session
    ([hangFrames = 30]) the 30th zero frame after a loud frame is
    classified as silence. *)
Lemma vad_hold_length_counterexample :
  exists v0 : t,
    VoiceActivityDetector (-40) 300 48000 = Some v0
    /\ hangFrames_ v0 = 30%Z
    /\ isActive v0 loud = true
    /\ Forall (fun q => isActive v0 q = false) (repeat (silence 480) 30)
    /\ nth 29 (fst (run (snd (isSpeech v0 loud)) (repeat (silence 480) 30)))
           true
       = false.
Proof.
  exists vad0. pose proof threshold_minus40 as Hthr.
  destruct (loud_then_silence vad0 480 30) as (_ & Hv & _).
  { simpl. lra. }
  split; [apply vad0_constructed|]. split; [reflexivity|].
  split; [apply isActive_loud; simpl; lra|].
  split; [apply Forall_repeat, isActive_silence; simpl; lra|].
  rewrite Hv. reflexivity.
Qed.

Lemma vad_silence_bypassed_aux (v : t) (n : nat) :
  thresholdLinear_ v = Rpower 10 (-40 / 20) ->
  (hangFrames_ v <= framesSinceActive_ v + 1)%Z ->
  fst (isSpeech v (silence n)) = false.
Proof.
  intros Hthr Hhang. pose proof threshold_minus40 as Hpos.
  assert (Hq : isActive v (silence n) = false).
  { apply isActive_silence. rewrite Hthr. lra. }
  destruct (isSpeech_inactive v (silence n) Hq) as (-> & _).
  apply Z.ltb_ge. lia.
Qed.

Lemma sumSquares_sum_samples (audio : list R) :
  sumSquares audio = sum_samples (map (fun s => s * s) audio).
Proof.
  induction audio as [|s audio IH].
  - reflexivity.
  - unfold sumSquares. cbn [fold_left map sum_samples].
    rewrite sumSquares_from, IH. lra.
Qed.

Lemma rms_root_mean_square (audio : list R) :
  rms audio = root_mean_square audio.
Proof. unfold rms, root_mean_square. now rewrite sumSquares_sum_samples. Qed.

Lemma threshold_minus40_value : Rpower 10 (-40 / 20) = 1 / 100.
Proof.
  replace (-40 / 20) with (- INR 2) by (simpl; lra).
  rewrite Rpower_Ropp, Rpower_pow by lra. simpl. lra.
Qed.

Lemma root_mean_square_silence (n : nat) : root_mean_square (silence n) = 0.
Proof. rewrite <- rms_root_mean_square. apply rms_silence. Qed.

Lemma root_mean_square_repeat (c : R) (n : nat) :
  (0 < n)%nat -> 0 <= c -> root_mean_square (repeat c n) = c.
Proof.
  intros Hn Hc. rewrite <- rms_root_mean_square. unfold rms.
  rewrite sumSquares_repeat, repeat_length.
  assert (0 < INR n) by (apply lt_0_INR; exact Hn).
  replace (INR n * (c * c) / INR n) with (c * c) by (field; lra).
  apply sqrt_square. exact Hc.
Qed.

(** A frame at or below the threshold is not active. *)
Lemma isActive_quiet (v : t) (audio : list R) :
  root_mean_square audio <= thresholdLinear_ v -> isActive v audio = false.
Proof.
  intros H. unfold isActive. destruct audio as [|s audio]; [reflexivity|].
  apply Rgtb_false. rewrite rms_root_mean_square. exact H.
Qed.

(** C5, amended: with the -40 dB threshold, which is 0.01 on the linear
    scale, a frame whose root mean square is at most 0.01 (every zero
    frame among them) is not active by its energy; outside the hold (no
    active frame among the last [hangFrames_ - 1] calls, as in a new or
    reset detector) [isSpeech] returns false on it and [bypassed] grows by
    exactly one, and this remains so on the next call. *)
Theorem vad_silence_bypassed (v : t) (audio : list R) :
  thresholdLinear_ v = Rpower 10 (-40 / 20) ->
  (hangFrames_ v <= framesSinceActive_ v + 1)%Z ->
  root_mean_square audio <= 1 / 100 ->
  Rpower 10 (-40 / 20) = 1 / 100
  /\ (forall n, root_mean_square (silence n) = 0)
  /\ isActive v audio = false
  /\ fst (isSpeech v audio) = false
  /\ bypassedFrames_ (snd (isSpeech v audio)) = (bypassedFrames_ v + 1)%Z
  /\ activeFrames_ (snd (isSpeech v audio)) = activeFrames_ v
  /\ thresholdLinear_ (snd (isSpeech v audio)) = Rpower 10 (-40 / 20)
  /\ (hangFrames_ (snd (isSpeech v audio))
      <= framesSinceActive_ (snd (isSpeech v audio)) + 1)%Z.
Proof.
  intros Hthr Hhang Hrms.
  split; [exact threshold_minus40_value|].
  split; [exact root_mean_square_silence|].
  assert (Hq : isActive v audio = false).
  { apply isActive_quiet. rewrite Hthr, threshold_minus40_value. exact Hrms. }
  destruct (isSpeech_inactive v audio Hq) as (Hb & Hs & Hby & Hac).
  assert (E : (framesSinceActive_ v + 1 <? hangFrames_ v)%Z = false)
    by (apply Z.ltb_ge; lia).
  rewrite E in Hb, Hby, Hac.
  repeat split; try assumption.
  - lia.
  - rewrite isSpeech_thresholdLinear. exact Hthr.
  - rewrite isSpeech_hangFrames, Hs. lia.
Qed.

Lemma vad_silence_bypassed_witness :
  thresholdLinear_ vad0 = Rpower 10 (-40 / 20)
  /\ (hangFrames_ vad0 <= framesSinceActive_ vad0 + 1)%Z
  /\ root_mean_square faint <= 1 / 100
  /\ fst (isSpeech vad0 faint) = false
  /\ bypassedFrames_ (snd (isSpeech vad0 faint)) = 1%Z.
Proof.
  assert (H1 : thresholdLinear_ vad0 = Rpower 10 (-40 / 20))
    by reflexivity.
  assert (H2 : (hangFrames_ vad0 <= framesSinceActive_ vad0 + 1)%Z)
    by (simpl; lia).
  assert (H3 : root_mean_square faint <= 1 / 100).
  { unfold faint. rewrite root_mean_square_repeat by (try lia; lra). lra. }
  split; [exact H1|]. split; [exact H2|]. split; [exact H3|].
  destruct (vad_silence_bypassed vad0 faint H1 H2 H3)
    as (_ & _ & _ & Hb & Hby & _).
  split; [exact Hb | exact Hby].
Defined.

(** C5 as stated fails inside the hold: in a default session, the zero
    frame that follows a loud frame is classified as speech and
    [bypassed] does not move. *)
Lemma vad_silence_bypassed_counterexample :
  exists v0 : t,
    VoiceActivityDetector (-40) 300 48000 = Some v0
    /\ fst (isSpeech (snd (isSpeech v0 loud)) (silence 480)) = true
    /\ bypassedFrames_ (snd (isSpeech (snd (isSpeech v0 loud)) (silence 480)))
       = bypassedFrames_ (snd (isSpeech v0 loud)).
Proof.
  exists vad0. pose proof threshold_minus40 as Hthr.
  split; [apply vad0_constructed|].
  assert (Ha : isActive vad0 loud = true)
    by (apply isActive_loud; simpl; lra).
  destruct (isSpeech_active vad0 loud Ha) as [_ Hs].
  set (v1 := snd (isSpeech vad0 loud)) in *.
  assert (Hq : isActive v1 (silence 480) = false).
  { apply isActive_silence. unfold v1. rewrite isSpeech_thresholdLinear.
    simpl. lra. }
  destruct (isSpeech_inactive v1 (silence 480) Hq) as (Hb & _ & Hby & _).
  assert (Hh : hangFrames_ v1 = 30%Z) by apply isSpeech_hangFrames.
  rewrite Hs, Hh in Hb, Hby. simpl in Hb, Hby.
  split; [exact Hb | lia].
Qed.

End VADClaims.

(** ** Streaming resampler *)

Section ResamplerFacts.

Import Resampler.

Lemma size_sub_1 (n : Z) :
  (1 <= n <= INT_MAX)%Z -> size_sub n 1 = (n - 1)%Z.
Proof.
  unfold size_sub, INT_MAX. intros H. apply Z.mod_small. lia.
Qed.

Lemma size_sub_0_1 : size_sub 0 1 = (2 ^ 64 - 1)%Z.
Proof. reflexivity. Qed.

Lemma size_to_int_small (n : Z) :
  (0 <= n <= INT_MAX)%Z -> size_to_int n = n.
Proof.
  unfold size_to_int, INT_MAX. intros H.
  rewrite Z.mod_small by lia. lia.
Qed.

Lemma static_cast_int_nonneg (x : R) :
  0 <= x -> x < IZR INT_MAX + 1 -> static_cast_int x = Some (Int_part x).
Proof.
  intros H0 H1. unfold static_cast_int. rewrite trunc_nonneg by exact H0.
  pose proof (Int_part_nonneg x H0) as Hn.
  pose proof (Int_part_le_IZR x INT_MAX H1) as Hm.
  replace (INT_MIN <=? Int_part x)%Z with true
    by (symmetry; apply Z.leb_le; unfold INT_MIN; lia).
  replace (Int_part x <=? INT_MAX)%Z with true
    by (symmetry; apply Z.leb_le; lia).
  reflexivity.
Qed.

Lemma static_cast_int_nonneg_Some (x : R) (z : Z) :
  0 <= x -> static_cast_int x = Some z ->
  z = Int_part x /\ (0 <= z <= INT_MAX)%Z /\ x < IZR INT_MAX + 1.
Proof.
  intros H0 H. apply static_cast_int_Some in H as [Hz Hr].
  rewrite trunc_nonneg in Hz by exact H0. subst z.
  pose proof (Int_part_nonneg x H0). pose proof (Int_part_bounds x) as [_ Hu].
  repeat split; try lia.
  assert (IZR (Int_part x) <= IZR INT_MAX) by (apply IZR_le; lia). lra.
Qed.

Lemma traverse_length {A B} (f : A -> option B) (l : list A) (bs : list B) :
  traverse f l = Some bs -> length bs = length l.
Proof.
  revert bs. induction l as [|a l IH]; intros bs; simpl.
  - intros [= <-]. reflexivity.
  - destruct (f a); [|discriminate].
    destruct (traverse f l) as [bs'|]; [|discriminate].
    intros [= <-]. simpl. f_equal. apply IH. reflexivity.
Qed.

Lemma traverse_defined {A B} (f : A -> option B) (l : list A) :
  (forall a, In a l -> f a <> None) -> exists bs, traverse f l = Some bs.
Proof.
  induction l as [|a l IH]; intros H; simpl.
  - eexists; reflexivity.
  - destruct (f a) eqn:E; [|exfalso; apply (H a); [now left | exact E]].
    destruct IH as [bs Hbs]; [intros x Hx; apply H; now right|].
    rewrite Hbs. eexists; reflexivity.
Qed.

Lemma indices_length (n : Z) : length (indices n) = Z.to_nat n.
Proof. unfold indices. now rewrite length_map, length_seq. Qed.

Lemma indices_In (n i : Z) : In i (indices n) -> (0 <= i < n)%Z.
Proof.
  unfold indices. rewrite in_map_iff. intros (k & <- & Hk).
  apply in_seq in Hk. lia.
Qed.

Lemma at_defined (acc : list R) (i : Z) :
  (0 <= i < Z.of_nat (length acc))%Z -> at_ acc i <> None.
Proof.
  intros H. unfold at_.
  replace (i <? 0)%Z with false by (symmetry; apply Z.ltb_ge; lia).
  apply nth_error_Some. lia.
Qed.

(** Inside the buffered range every interpolation step is defined. *)
Lemma interpolate_defined (st : t) (acc : list R) (i : Z) :
  0 < ratio_ st -> 0 <= phase_ st ->
  (0 <= i)%Z ->
  (1 <= Z.of_nat (length acc) <= INT_MAX)%Z ->
  srcPos st i < IZR (Z.of_nat (length acc)) - 1 ->
  interpolate st acc i <> None.
Proof.
  intros Hr Hp Hi Hlen Hpos. unfold interpolate.
  assert (H0 : 0 <= srcPos st i).
  { unfold srcPos. apply Rmult_le_pos.
    - apply IZR_le in Hi. lra.
    - left. apply Rinv_0_lt_compat. exact Hr. }
  assert (Hmax : IZR (Z.of_nat (length acc)) <= IZR INT_MAX)
    by (apply IZR_le; lia).
  rewrite static_cast_int_nonneg by lra.
  rewrite size_to_int_small by lia.
  pose proof (Int_part_nonneg (srcPos st i) H0) as Hn.
  assert (Hidx : (Int_part (srcPos st i) <= Z.of_nat (length acc) - 2)%Z).
  { apply Int_part_le_IZR. rewrite minus_IZR. lra. }
  replace (INT_MAX <? Int_part (srcPos st i) + 1)%Z with false
    by (symmetry; apply Z.ltb_ge; lia).
  replace (Int_part (srcPos st i) + 1 <? Z.of_nat (length acc))%Z with true
    by (symmetry; apply Z.ltb_lt; lia).
  destruct (at_ acc (Int_part (srcPos st i))) eqn:E1;
    [|exfalso; revert E1; apply at_defined; lia].
  destruct (at_ acc (Int_part (srcPos st i) + 1)) eqn:E2;
    [|exfalso; revert E2; apply at_defined; lia].
  discriminate.
Qed.

Lemma Rdiv_le_of_le_mult (a b r : R) : 0 < r -> a <= b * r -> a / r <= b.
Proof.
  intros Hr H. apply Rmult_le_reg_r with r; [exact Hr|].
  unfold Rdiv. rewrite Rmult_assoc, Rinv_l by lra. lra.
Qed.

Lemma Rdiv_lt_of_lt (a b r : R) : 0 < r -> a < b -> a / r < b / r.
Proof.
  intros Hr H. unfold Rdiv. apply Rmult_lt_compat_r; [|exact H].
  apply Rinv_0_lt_compat. exact Hr.
Qed.

Lemma fmod_1_frac (x : R) : 0 <= x -> fmod x 1 = frac_part x.
Proof.
  intros H. unfold fmod, frac_part.
  replace (x / 1) with x by field.
  rewrite trunc_nonneg by exact H. ring.
Qed.

Lemma frac_part_range (x : R) : 0 <= frac_part x < 1.
Proof. destruct (base_fp x). lra. Qed.

(** The call when the accumulator cannot yet yield [outputSize] samples. *)
Lemma process_not_ready (st : t) (input : list R) (n a : Z) :
  inputSampleRate_ st <> outputSampleRate_ st ->
  static_cast_int
    (IZR (size_sub (Z.of_nat (length (accumulator_ st ++ input))) 1)
     * ratio_ st) = Some a ->
  (a < n)%Z ->
  process st input n
  = Ok ([], {| inputSampleRate_ := inputSampleRate_ st;
               outputSampleRate_ := outputSampleRate_ st;
               ratio_ := ratio_ st;
               phase_ := phase_ st;
               accumulator_ := accumulator_ st ++ input |}).
Proof.
  intros Hrate Ha Hlt. unfold process.
  replace (inputSampleRate_ st =? outputSampleRate_ st)%Z with false
    by (symmetry; apply Z.eqb_neq; exact Hrate).
  rewrite Ha.
  replace (a <? n)%Z with true by (symmetry; apply Z.ltb_lt; exact Hlt).
  reflexivity.
Qed.

(** The call when enough samples are buffered. *)
Lemma process_ready (st : t) (input : list R) (n a : Z) :
  inputSampleRate_ st <> outputSampleRate_ st ->
  0 < ratio_ st -> 0 <= phase_ st < 1 ->
  (1 <= Z.of_nat (length (accumulator_ st ++ input)) <= INT_MAX)%Z ->
  static_cast_int
    (IZR (Z.of_nat (length (accumulator_ st ++ input)) - 1) * ratio_ st)
  = Some a ->
  (0 <= n <= a)%Z ->
  (Int_part (IZR n / ratio_ st)
   <= Z.of_nat (length (accumulator_ st ++ input)) - 1)%Z
  /\ exists output,
       length output = Z.to_nat n
       /\ process st input n
          = Ok (output,
                {| inputSampleRate_ := inputSampleRate_ st;
                   outputSampleRate_ := outputSampleRate_ st;
                   ratio_ := ratio_ st;
                   phase_ := next_phase st n;
                   accumulator_ :=
                     skipn (Z.to_nat (Int_part (IZR n / ratio_ st)))
                       (accumulator_ st ++ input) |}).
Proof.
  intros Hrate Hr Hp Hlen Ha Hn.
  set (acc := accumulator_ st ++ input) in *.
  set (len := Z.of_nat (length acc)) in *.
  assert (HX : 0 <= IZR (len - 1) * ratio_ st).
  { apply Rmult_le_pos; [apply IZR_le; lia | lra]. }
  destruct (static_cast_int_nonneg_Some _ _ HX Ha) as (Hza & Hra & HXmax).
  assert (HnX : IZR n <= IZR (len - 1) * ratio_ st).
  { pose proof (Int_part_bounds (IZR (len - 1) * ratio_ st)) as [Hl _].
    assert (IZR n <= IZR a) by (apply IZR_le; lia).
    rewrite <- Hza in Hl. lra. }
  assert (Hcons : IZR n / ratio_ st <= IZR (len - 1))
    by (apply Rdiv_le_of_le_mult; assumption).
  assert (Hcons0 : 0 <= IZR n / ratio_ st).
  { apply Rmult_le_pos; [apply IZR_le; lia|].
    left. apply Rinv_0_lt_compat. exact Hr. }
  assert (Hrem : (Int_part (IZR n / ratio_ st) <= len - 1)%Z).
  { apply Int_part_le_IZR. lra. }
  split; [exact Hrem|].
  destruct (traverse_defined (interpolate st acc) (indices n)) as [out Hout].
  { intros i Hi. apply indices_In in Hi.
    apply interpolate_defined; try lia; try lra.
    unfold srcPos. fold len. rewrite minus_IZR in Hcons.
    apply Rlt_le_trans with (IZR n / ratio_ st); [|lra].
    apply Rdiv_lt_of_lt; [exact Hr|].
    assert (IZR i <= IZR (n - 1)) by (apply IZR_le; lia).
    rewrite minus_IZR in H. lra. }
  exists out. split.
  { rewrite (traverse_length _ _ _ Hout). apply indices_length. }
  unfold process.
  replace (inputSampleRate_ st =? outputSampleRate_ st)%Z with false
    by (symmetry; apply Z.eqb_neq; exact Hrate).
  fold acc. fold len. rewrite size_sub_1 by lia. rewrite Ha.
  replace (a <? n)%Z with false by (symmetry; apply Z.ltb_ge; lia).
  replace (n <? 0)%Z with false by (symmetry; apply Z.ltb_ge; lia).
  rewrite Hout.
  assert (Hmax : IZR (len - 1) < IZR INT_MAX + 1).
  { assert (IZR (len - 1) <= IZR INT_MAX) by (apply IZR_le; lia). lra. }
  rewrite static_cast_int_nonneg by lra.
  rewrite size_to_int_small by lia.
  pose proof (Int_part_nonneg _ Hcons0) as Hrem0.
  f_equal. f_equal. f_equal.
  - unfold next_phase. rewrite fmod_1_frac.
    + f_equal. unfold frac_part. ring.
    + pose proof (frac_part_range (IZR n / ratio_ st)) as Hf.
      unfold frac_part in Hf. lra.
  - destruct (0 <? Int_part (IZR n / ratio_ st))%Z eqn:E0.
    + replace (Int_part (IZR n / ratio_ st) <=? len)%Z with true
        by (symmetry; apply Z.leb_le; lia).
      reflexivity.
    + apply Z.ltb_ge in E0.
      replace (Int_part (IZR n / ratio_ st)) with 0%Z by lia.
      reflexivity.
Qed.

End ResamplerFacts.

Section ResamplerClaims.

Import Resampler.

Lemma ratio_lower_bound (inputSr outputSr : Z) :
  (0 < inputSr <= INT_MAX)%Z -> (0 < outputSr)%Z ->
  0 < IZR outputSr / IZR inputSr
  /\ IZR (2 ^ 32) <= IZR (2 ^ 64 - 1) * (IZR outputSr / IZR inputSr).
Proof.
  intros Hi Ho.
  assert (Hin : 0 < IZR inputSr) by (apply IZR_lt; lia).
  assert (Hout : 0 < IZR outputSr) by (apply IZR_lt; lia).
  split.
  - apply Rmult_lt_0_compat; [exact Hout | apply Rinv_0_lt_compat; exact Hin].
  - apply Rmult_le_reg_r with (IZR inputSr); [exact Hin|].
    replace (IZR (2 ^ 64 - 1) * (IZR outputSr / IZR inputSr) * IZR inputSr)
      with (IZR (2 ^ 64 - 1) * IZR outputSr) by (field; lra).
    rewrite <- !mult_IZR. apply IZR_le. unfold INT_MAX in Hi. lia.
Qed.

(** With nothing buffered and no input, [accumulator_.size() - 1] wraps
    to [2^64 - 1] and the conversion of the product to [int] is out of
    range. *)
Lemma process_empty_undefined (st : t) (n : Z) :
  inputSampleRate_ st <> outputSampleRate_ st ->
  (0 < inputSampleRate_ st <= INT_MAX)%Z -> (0 < outputSampleRate_ st)%Z ->
  ratio_ st = IZR (outputSampleRate_ st) / IZR (inputSampleRate_ st) ->
  accumulator_ st = [] ->
  process st [] n = Undefined.
Proof.
  intros Hrate Hi Ho Hratio Hacc. unfold process.
  replace (inputSampleRate_ st =? outputSampleRate_ st)%Z with false
    by (symmetry; apply Z.eqb_neq; exact Hrate).
  rewrite Hacc. simpl length. simpl Z.of_nat. rewrite size_sub_0_1.
  destruct (ratio_lower_bound _ _ Hi Ho) as [Hpos Hbig].
  rewrite <- Hratio in Hpos, Hbig.
  set (x := IZR (2 ^ 64 - 1) * ratio_ st) in *.
  assert (Hx : 0 <= x).
  { assert (0 <= IZR (2 ^ 32)) by (apply IZR_le; lia). lra. }
  unfold static_cast_int. rewrite trunc_nonneg by exact Hx.
  pose proof (Int_part_ge_IZR x (2 ^ 32) Hbig) as Hge.
  replace (Int_part x <=? INT_MAX)%Z with false
    by (symmetry; apply Z.leb_gt; unfold INT_MAX; lia).
  rewrite andb_false_r. reflexivity.
Qed.

Lemma Int_part_between (x : R) (z : Z) :
  IZR z <= x < IZR z + 1 -> Int_part x = z.
Proof. intros H. symmetry. apply Int_part_spec. lra. Qed.

Lemma frac_part_small (x : R) : 0 <= x < 1 -> frac_part x = x.
Proof.
  intros H. unfold frac_part. rewrite (Int_part_between x 0) by lra. lra.
Qed.

Lemma traverse_map {A B : Type} (f : A -> option B) (g : A -> B) (l : list A) :
  (forall a, In a l -> f a = Some (g a)) -> traverse f l = Some (map g l).
Proof.
  induction l as [|a l IH]; intros H; cbn [traverse map].
  - reflexivity.
  - rewrite (H a) by (now left). rewrite IH by (intros; apply H; now right).
    reflexivity.
Qed.

Lemma at_nth (acc : list R) (k : Z) :
  (0 <= k < Z.of_nat (length acc))%Z ->
  at_ acc k = Some (nth (Z.to_nat k) acc 0).
Proof.
  intros H. unfold at_.
  replace (k <? 0)%Z with false by (symmetry; apply Z.ltb_ge; lia).
  apply nth_error_nth'. lia.
Qed.

Lemma srcPos_nonneg (st : t) (i : Z) :
  0 < ratio_ st -> 0 <= phase_ st -> (0 <= i)%Z -> 0 <= srcPos st i.
Proof.
  intros Hr Hp Hi. unfold srcPos. apply Rmult_le_pos.
  - apply IZR_le in Hi. lra.
  - left. apply Rinv_0_lt_compat. exact Hr.
Qed.

(** Inside the buffered range the loop body is the interpolation between
    two neighbouring samples. *)
Lemma interpolate_inside (st : t) (acc : list R) (i : Z) :
  0 < ratio_ st -> 0 <= phase_ st ->
  (0 <= i)%Z ->
  (1 <= Z.of_nat (length acc) <= INT_MAX)%Z ->
  srcPos st i < IZR (Z.of_nat (length acc)) - 1 ->
  interpolate st acc i = Some (interpolated st acc i)
  /\ (S (Z.to_nat (Int_part (srcPos st i))) < length acc)%nat.
Proof.
  intros Hr Hp Hi Hlen Hpos. unfold interpolate, interpolated.
  pose proof (srcPos_nonneg st i Hr Hp Hi) as H0.
  assert (Hmax : IZR (Z.of_nat (length acc)) <= IZR INT_MAX)
    by (apply IZR_le; lia).
  rewrite static_cast_int_nonneg by lra.
  rewrite size_to_int_small by lia.
  pose proof (Int_part_nonneg (srcPos st i) H0) as Hn.
  assert (Hidx : (Int_part (srcPos st i) <= Z.of_nat (length acc) - 2)%Z).
  { apply Int_part_le_IZR. rewrite minus_IZR. lra. }
  replace (INT_MAX <? Int_part (srcPos st i) + 1)%Z with false
    by (symmetry; apply Z.ltb_ge; lia).
  replace (Int_part (srcPos st i) + 1 <? Z.of_nat (length acc))%Z with true
    by (symmetry; apply Z.ltb_lt; lia).
  rewrite !at_nth by lia.
  replace (Z.to_nat (Int_part (srcPos st i) + 1))
    with (S (Z.to_nat (Int_part (srcPos st i)))) by lia.
  split; [reflexivity | lia].
Qed.

(** A call that has enough samples returns the interpolated samples. *)
Lemma process_ready_samples (st : t) (input : list R) (n a : Z) :
  inputSampleRate_ st <> outputSampleRate_ st ->
  0 < ratio_ st -> 0 <= phase_ st < 1 ->
  (1 <= Z.of_nat (length (accumulator_ st ++ input)) <= INT_MAX)%Z ->
  static_cast_int
    (IZR (Z.of_nat (length (accumulator_ st ++ input)) - 1) * ratio_ st)
  = Some a ->
  (0 <= n <= a)%Z ->
  IZR n / ratio_ st
    <= IZR (Z.of_nat (length (accumulator_ st ++ input)) - 1)
  /\ process st input n
     = Ok (map (interpolated st (accumulator_ st ++ input)) (indices n),
           {| inputSampleRate_ := inputSampleRate_ st;
              outputSampleRate_ := outputSampleRate_ st;
              ratio_ := ratio_ st;
              phase_ := next_phase st n;
              accumulator_ :=
                skipn (Z.to_nat (Int_part (IZR n / ratio_ st)))
                  (accumulator_ st ++ input) |}).
Proof.
  intros Hrate Hr Hp Hlen Ha Hn.
  destruct (process_ready st input n a Hrate Hr Hp Hlen Ha Hn)
    as (_ & out & _ & Hok).
  set (acc := accumulator_ st ++ input) in *.
  set (len := Z.of_nat (length acc)) in *.
  assert (HX : 0 <= IZR (len - 1) * ratio_ st).
  { apply Rmult_le_pos; [apply IZR_le; lia | lra]. }
  destruct (static_cast_int_nonneg_Some _ _ HX Ha) as (Hza & _ & _).
  assert (HnX : IZR n <= IZR (len - 1) * ratio_ st).
  { pose proof (Int_part_bounds (IZR (len - 1) * ratio_ st)) as [Hl _].
    assert (IZR n <= IZR a) by (apply IZR_le; lia).
    rewrite <- Hza in Hl. lra. }
  assert (Hcons : IZR n / ratio_ st <= IZR (len - 1))
    by (apply Rdiv_le_of_le_mult; assumption).
  split; [exact Hcons|].
  assert (Htr : traverse (interpolate st acc) (indices n)
                = Some (map (interpolated st acc) (indices n))).
  { apply traverse_map. intros i Hi. apply indices_In in Hi.
    apply interpolate_inside; try lia; try lra.
    unfold srcPos. fold len. rewrite minus_IZR in Hcons.
    apply Rlt_le_trans with (IZR n / ratio_ st); [|lra].
    apply Rdiv_lt_of_lt; [exact Hr|].
    assert (IZR i <= IZR (n - 1)) by (apply IZR_le; lia).
    rewrite minus_IZR in H. lra. }
  rewrite Hok. f_equal. f_equal.
  unfold process in Hok.
  replace (inputSampleRate_ st =? outputSampleRate_ st)%Z with false in Hok
    by (symmetry; apply Z.eqb_neq; exact Hrate).
  fold acc in Hok. fold len in Hok. rewrite size_sub_1, Ha in Hok by lia.
  replace (a <? n)%Z with false in Hok by (symmetry; apply Z.ltb_ge; lia).
  replace (n <? 0)%Z with false in Hok by (symmetry; apply Z.ltb_ge; lia).
  rewrite Htr in Hok.
  destruct (static_cast_int (IZR n / ratio_ st)); [|discriminate].
  injection Hok as Hout _. symmetry. exact Hout.
Qed.

(** The value interpolated at a known source position. *)
Lemma interpolated_at (st : t) (acc : list R) (i k : Z) (x : R) :
  srcPos st i = x -> IZR k <= x < IZR k + 1 ->
  interpolated st acc i
  = nth (Z.to_nat k) acc 0 * (1 - (x - IZR k))
    + nth (S (Z.to_nat k)) acc 0 * (x - IZR k).
Proof.
  intros Hx Hk. unfold interpolated, frac_part.
  rewrite Hx, (Int_part_between x k Hk). reflexivity.
Qed.

(** A call of the doubler that has the ramp buffered. *)
Lemma process_doubler (phase : R) (acc input : list R) (n : Z) :
  0 <= phase < 1 -> acc ++ input = ramp -> (0 <= n <= 4)%Z ->
  process (doubler phase acc) input n
  = Ok (map (interpolated (doubler phase acc) ramp) (indices n),
        doubler (next_phase (doubler phase acc) n)
          (skipn (Z.to_nat (Int_part (IZR n / (IZR 48000 / IZR 24000))))
             ramp)).
Proof.
  intros Hp Hacc Hn.
  destruct (process_ready_samples (doubler phase acc) input n 4) as [_ Hok];
    cbn [inputSampleRate_ outputSampleRate_ ratio_ phase_ accumulator_
         doubler]; try rewrite Hacc; try exact Hp; try lia; try lra.
  - unfold ramp, INT_MAX. simpl. lia.
  - unfold ramp. cbn [length]. simpl Z.sub.
    replace (IZR 2 * (IZR 48000 / IZR 24000)) with (IZR 4) by (simpl; lra).
    apply static_cast_int_IZR. unfold INT_MIN, INT_MAX. lia.
  - rewrite Hok.
    cbn [inputSampleRate_ outputSampleRate_ ratio_ phase_ accumulator_
         doubler].
    rewrite Hacc. reflexivity.
Qed.

(** C2: the phase update breaks the continuity the claim asks for.  The
    resampler from 24 kHz to 48 kHz has ratio 2, and every value below is
    a small multiple of 1/4, so the arithmetic of the code is exact on
    it.  Asked for three samples of the ramp 1, 2, 3 at once, it returns
    1, 1.5, 2.  Asked for them one at a time, it returns 1, then 1.25,
    then 1 again: each call consumes half an input sample, the half is
    added to a phase that [srcPos] divides by the ratio, so the second
    sample is taken at position 0.25 instead of 0.5, and when the two
    halves add up to a whole sample [fmod] discards it while no sample is
    removed, so the third call starts over at position 0. *)
Theorem resampler_phase_slip :
  StreamingResampler 24000 48000 = doubler 0 []
  /\ process (doubler 0 []) ramp 3 = Ok ([1; 1.5; 2], doubler 0.5 [2; 3])
  /\ process (doubler 0 []) ramp 1 = Ok ([1], doubler 0.5 ramp)
  /\ process (doubler 0.5 ramp) [] 1 = Ok ([1.25], doubler 0 ramp)
  /\ process (doubler 0 ramp) [] 1 = Ok ([1], doubler 0.5 ramp)
  /\ srcPos (doubler 0 []) 1 = 0.5
  /\ srcPos (doubler 0.5 ramp) 0 = 0.25.
Proof.
  assert (Hhalf : Int_part (IZR 1 / (IZR 48000 / IZR 24000)) = 0%Z)
    by (apply Int_part_between; simpl; lra).
  assert (Hfr : frac_part (IZR 1 / (IZR 48000 / IZR 24000)) = 0.5).
  { unfold frac_part. rewrite Hhalf. simpl. lra. }
  assert (Hone : forall phase acc,
            interpolated (doubler phase acc) ramp 0
            = 1 * (1 - phase / 2) + 2 * (phase / 2) \/ ~ 0 <= phase < 1).
  { intros phase acc. destruct (Rle_dec 0 phase) as [H0|H0]; [|right; lra].
    destruct (Rlt_dec phase 1) as [H1|H1]; [|right; lra]. left.
    rewrite (interpolated_at _ _ 0 0 (phase / 2)).
    - unfold ramp. cbn [nth Z.to_nat]. simpl. lra.
    - unfold srcPos. cbn [phase_ ratio_ doubler]. simpl. lra.
    - simpl. lra. }
  split; [reflexivity|].
  split; [|split; [|split; [|split; [|split]]]].
  - rewrite (process_doubler 0 [] ramp 3) by (try reflexivity; lra || lia).
    assert (H3 : Int_part (IZR 3 / (IZR 48000 / IZR 24000)) = 1%Z)
      by (apply Int_part_between; simpl; lra).
    f_equal. f_equal.
    + change (indices 3) with [0%Z; 1%Z; 2%Z]. cbn [map].
      rewrite (interpolated_at _ _ 0 0 0), (interpolated_at _ _ 1 0 0.5),
        (interpolated_at _ _ 2 1 1);
        try (unfold srcPos; cbn [phase_ ratio_ doubler]; simpl; lra);
        try (simpl; lra).
      unfold ramp. cbn [nth Z.to_nat Pos.to_nat Pos.iter_op Nat.add].
      repeat f_equal; simpl; lra.
    + rewrite H3. unfold next_phase, doubler. cbn [phase_ ratio_].
      f_equal.
      replace (frac_part (IZR 3 / (IZR 48000 / IZR 24000))) with 0.5.
      * rewrite Rplus_0_l. apply frac_part_small. lra.
      * unfold frac_part. rewrite H3. simpl. lra.
  - rewrite (process_doubler 0 [] ramp 1) by (try reflexivity; lra || lia).
    f_equal. f_equal.
    + change (indices 1) with [0%Z]. cbn [map].
      destruct (Hone 0 []) as [-> | H]; [|lra]. f_equal. lra.
    + rewrite Hhalf. unfold next_phase, doubler. cbn [phase_ ratio_].
      f_equal. rewrite Hfr, Rplus_0_l. apply frac_part_small. lra.
  - rewrite (process_doubler 0.5 ramp [] 1)
      by (try apply app_nil_r; lra || lia).
    f_equal. f_equal.
    + change (indices 1) with [0%Z]. cbn [map].
      destruct (Hone 0.5 ramp) as [-> | H]; [|lra]. f_equal. lra.
    + rewrite Hhalf. unfold next_phase, doubler. cbn [phase_ ratio_].
      f_equal. rewrite Hfr.
      replace (0.5 + 0.5) with (IZR 1) by (simpl; lra).
      unfold frac_part. rewrite Int_part_IZR. simpl. lra.
  - rewrite (process_doubler 0 ramp [] 1)
      by (try apply app_nil_r; lra || lia).
    f_equal. f_equal.
    + change (indices 1) with [0%Z]. cbn [map].
      destruct (Hone 0 ramp) as [-> | H]; [|lra]. f_equal. lra.
    + rewrite Hhalf. unfold next_phase, doubler. cbn [phase_ ratio_].
      f_equal. rewrite Hfr, Rplus_0_l. apply frac_part_small. lra.
  - unfold srcPos. cbn [phase_ ratio_ doubler]. simpl. lra.
  - unfold srcPos. cbn [phase_ ratio_ doubler]. simpl. lra.
Qed.

(** C6, amended: for a request of at least one sample, with a non-empty
    accumulator after the append (and sizes within [int]), the call
    returns normally; the result is empty iff
    [floor ((accumulatorLength - 1) * ratio) < outputSize]; then the
    accumulator is its previous contents followed by the input and the
    phase is unchanged; otherwise the result has [outputSize] samples. *)
Theorem resampler_not_ready_iff (st : t) (input : list R) (n : Z) :
  inputSampleRate_ st <> outputSampleRate_ st ->
  0 < ratio_ st -> 0 <= phase_ st < 1 ->
  (1 <= Z.of_nat (length (accumulator_ st ++ input)) <= INT_MAX)%Z ->
  IZR (Z.of_nat (length (accumulator_ st ++ input)) - 1) * ratio_ st
    < IZR INT_MAX + 1 ->
  (1 <= n)%Z ->
  exists output st',
    process st input n = Ok (output, st')
    /\ (output = [] <->
        (Int_part (IZR (Z.of_nat (length (accumulator_ st ++ input)) - 1)
                   * ratio_ st) < n)%Z)
    /\ (output = [] ->
        accumulator_ st' = accumulator_ st ++ input
        /\ phase_ st' = phase_ st)
    /\ (output <> [] -> length output = Z.to_nat n).
Proof.
  intros Hrate Hr Hp Hlen HX Hn.
  set (len := Z.of_nat (length (accumulator_ st ++ input))) in *.
  assert (HX0 : 0 <= IZR (len - 1) * ratio_ st).
  { apply Rmult_le_pos; [apply IZR_le; lia | lra]. }
  pose proof (static_cast_int_nonneg _ HX0 HX) as Ha.
  set (a := Int_part (IZR (len - 1) * ratio_ st)) in *.
  destruct (Z.ltb_spec a n) as [Hlt|Hge].
  - eexists [], _. split.
    + apply (process_not_ready st input n a); try assumption.
      fold len. rewrite size_sub_1 by lia. exact Ha.
    + simpl. repeat split; try tauto; intros Hc; now contradiction Hc.
  - destruct (process_ready st input n a) as (_ & out & Hout & Hok);
      try assumption; try lia.
    exists out. eexists. split; [exact Hok|].
    assert (Hne : out <> []).
    { intros ->. simpl in Hout. lia. }
    repeat split; solve [tauto | lia | intros E; contradiction].
Qed.

Lemma resampler_not_ready_iff_witness :
  exists output st',
    process (StreamingResampler 48000 16000) [1; 2; 3] 1 = Ok (output, st')
    /\ (output = [] <->
        (Int_part (IZR (Z.of_nat (length ([] ++ [1; 2; 3]%R)) - 1)
                   * (IZR 16000 / IZR 48000)) < 1)%Z)
    /\ (output = [] ->
        accumulator_ st' = [1; 2; 3] /\ phase_ st' = 0).
Proof.
  set (st := StreamingResampler 48000 16000).
  assert (Hrate : inputSampleRate_ st <> outputSampleRate_ st)
    by (simpl; lia).
  assert (Hr : 0 < ratio_ st) by (simpl; lra).
  assert (Hp : 0 <= phase_ st < 1) by (simpl; lra).
  assert (Hlen : (1 <= Z.of_nat (length (accumulator_ st ++ [1; 2; 3]%R))
                  <= INT_MAX)%Z) by (simpl; unfold INT_MAX; lia).
  assert (HX : IZR (Z.of_nat (length (accumulator_ st ++ [1; 2; 3]%R)) - 1)
               * ratio_ st < IZR INT_MAX + 1)
    by (simpl; unfold INT_MAX; simpl; lra).
  assert (Hn : (1 <= 1)%Z) by lia.
  destruct (resampler_not_ready_iff st [1; 2; 3] 1 Hrate Hr Hp Hlen HX Hn)
    as (out & st' & Hok & Hiff & Hempty & _).
  exists out, st'. split; [exact Hok|]. split; [exact Hiff | exact Hempty].
Defined.

(** C6 as stated fails for a request of zero samples: the result is
    empty although [floor ((accumulatorLength - 1) * ratio)] is not below
    [outputSize]. *)
Lemma resampler_not_ready_iff_counterexample :
  exists st',
    process (StreamingResampler 48000 16000) [1] 0 = Ok ([], st')
    /\ ~ (Int_part
            (IZR (Z.of_nat
                    (length (accumulator_ (StreamingResampler 48000 16000)
                             ++ [1]%R)) - 1)
             * ratio_ (StreamingResampler 48000 16000)) < 0)%Z.
Proof.
  set (st := StreamingResampler 48000 16000).
  assert (Hcast : static_cast_int
                    (IZR (Z.of_nat (length (accumulator_ st ++ [1]%R)) - 1)
                     * ratio_ st) = Some 0%Z).
  { simpl. replace (0 * (16000 / 48000)) with (IZR 0) by (simpl; field).
    apply static_cast_int_IZR. unfold INT_MIN, INT_MAX. lia. }
  destruct (process_ready st [1] 0 0) as (_ & out & Hout & Hok);
    try assumption; try (simpl; lra); try (simpl; unfold INT_MAX; lia).
  destruct out; [|discriminate Hout].
  eexists. split; [exact Hok|].
  simpl. replace (0 * (16000 / 48000)) with (IZR 0) by (simpl; field).
  rewrite Int_part_IZR. lia.
Qed.

End ResamplerClaims.

(** ** Frame processor *)

Section ProcessorFacts.

Import Processor.

Lemma Rabs_le_between (x b : R) : Rabs x <= b -> - b <= x <= b.
Proof. unfold Rabs. destruct (Rcase_abs x); lra. Qed.

Lemma normalizeFrameSize_length (p : t) (audio : list R) :
  length (normalizeFrameSize p audio) = Z.to_nat (frameSize_ p).
Proof.
  unfold normalizeFrameSize.
  rewrite length_app, length_firstn, repeat_length. lia.
Qed.

Lemma normalizeFrameSize_exact (p : t) (audio : list R) :
  length audio = Z.to_nat (frameSize_ p) ->
  normalizeFrameSize p audio = audio.
Proof.
  intros H. unfold normalizeFrameSize. rewrite <- H, firstn_all, Nat.sub_diag.
  simpl. apply app_nil_r.
Qed.

Lemma normalizeOutputShape_nonempty (p : t) (output fallback : list R) :
  output <> [] ->
  normalizeOutputShape p output fallback = normalizeFrameSize p output.
Proof. destruct output; [contradiction | reflexivity]. Qed.

(** *** The peak scan *)

Lemma peak_from_ge (audio : list R) (m : R) :
  m <= fold_left (fun maxVal sample => Rmax maxVal (Rabs sample)) audio m.
Proof.
  revert m. induction audio as [|s audio IH]; intros m; simpl.
  - lra.
  - eapply Rle_trans; [apply Rmax_l | apply IH].
Qed.

Lemma peak_from_upper (audio : list R) (m : R) :
  Forall (fun s => Rabs s
                   <= fold_left (fun maxVal sample => Rmax maxVal (Rabs sample))
                        audio m) audio.
Proof.
  revert m. induction audio as [|s audio IH]; intros m; simpl.
  - constructor.
  - constructor; [|apply IH].
    eapply Rle_trans; [apply Rmax_r | apply peak_from_ge].
Qed.

Lemma peak_from_lub (audio : list R) (m b : R) :
  m <= b -> Forall (fun s => Rabs s <= b) audio ->
  fold_left (fun maxVal sample => Rmax maxVal (Rabs sample)) audio m <= b.
Proof.
  revert m. induction audio as [|s audio IH]; intros m Hm H; simpl.
  - exact Hm.
  - inversion H; subst. apply IH; [|assumption].
    apply Rmax_lub; assumption.
Qed.

Lemma peak_from_scale (audio : list R) (m c : R) :
  0 <= c ->
  fold_left (fun maxVal sample => Rmax maxVal (Rabs sample))
    (map (fun sample => sample * c) audio) (m * c)
  = fold_left (fun maxVal sample => Rmax maxVal (Rabs sample)) audio m * c.
Proof.
  intros Hc. revert m. induction audio as [|s audio IH]; intros m; simpl.
  - reflexivity.
  - rewrite <- IH. f_equal.
    rewrite Rabs_mult, (Rabs_right c) by lra.
    rewrite (Rmult_comm m c), (Rmult_comm (Rabs s) c),
      (Rmult_comm (Rmax m (Rabs s)) c).
    apply RmaxRmult. exact Hc.
Qed.

Lemma peak_nonneg (audio : list R) : 0 <= peak audio.
Proof. apply peak_from_ge. Qed.

Lemma peak_upper (audio : list R) :
  Forall (fun s => Rabs s <= peak audio) audio.
Proof. apply peak_from_upper. Qed.

Lemma peak_lub (audio : list R) (b : R) :
  0 <= b -> Forall (fun s => Rabs s <= b) audio -> peak audio <= b.
Proof. apply peak_from_lub. Qed.

Lemma peak_scale (audio : list R) (c : R) :
  0 <= c -> peak (map (fun sample => sample * c) audio) = peak audio * c.
Proof.
  intros Hc. unfold peak.
  rewrite <- (peak_from_scale audio 0 c Hc). f_equal. ring.
Qed.

(** *** The soft limiter *)

Lemma softLimit_above (audio : list R) :
  peak audio > SOFT_LIMITER_THRESHOLD ->
  softLimit audio
  = map (fun sample => sample * (SOFT_LIMITER_THRESHOLD / peak audio)) audio
  /\ peak (softLimit audio) = SOFT_LIMITER_THRESHOLD.
Proof.
  intros H. unfold softLimit.
  rewrite (Rgtb_true _ _ H).
  assert (Hpos : peak audio > 0) by (unfold SOFT_LIMITER_THRESHOLD in H; lra).
  rewrite (Rgtb_true _ _ Hpos). simpl. split; [reflexivity|].
  rewrite peak_scale.
  - field. lra.
  - unfold SOFT_LIMITER_THRESHOLD in *.
    apply Rmult_le_pos; [lra|]. left. apply Rinv_0_lt_compat. lra.
Qed.

Lemma softLimit_below (audio : list R) :
  peak audio <= SOFT_LIMITER_THRESHOLD -> softLimit audio = audio.
Proof.
  intros H. unfold softLimit. rewrite (Rgtb_false _ _ H). reflexivity.
Qed.

Lemma softLimit_peak (audio : list R) :
  peak (softLimit audio) <= SOFT_LIMITER_THRESHOLD.
Proof.
  destruct (Rle_lt_dec (peak audio) SOFT_LIMITER_THRESHOLD) as [H|H].
  - rewrite softLimit_below; assumption.
  - destruct (softLimit_above audio H) as [_ ->]. lra.
Qed.

Lemma softLimit_length (audio : list R) :
  length (softLimit audio) = length audio.
Proof.
  unfold softLimit. destruct (_ && _); [apply length_map | reflexivity].
Qed.

(** *** Clamping *)

Lemma clamp_range (v : R) :
  AUDIO_CLIP_MIN <= clamp v AUDIO_CLIP_MIN AUDIO_CLIP_MAX <= AUDIO_CLIP_MAX.
Proof.
  unfold clamp, Rltb, AUDIO_CLIP_MIN, AUDIO_CLIP_MAX.
  destruct (Rlt_dec v (-1)); [lra|].
  destruct (Rlt_dec 1 v); lra.
Qed.

Lemma clamp_inside (v : R) :
  AUDIO_CLIP_MIN <= v <= AUDIO_CLIP_MAX ->
  clamp v AUDIO_CLIP_MIN AUDIO_CLIP_MAX = v.
Proof.
  unfold clamp, Rltb, AUDIO_CLIP_MIN, AUDIO_CLIP_MAX. intros H.
  destruct (Rlt_dec v (-1)); [lra|].
  destruct (Rlt_dec 1 v); [lra | reflexivity].
Qed.

Lemma clip_range (audio : list R) :
  Forall (fun s => -1 <= s <= 1) (clip audio).
Proof.
  unfold clip. apply Forall_map. apply Forall_forall. intros s _.
  apply clamp_range.
Qed.

Lemma clip_inside (audio : list R) :
  Forall (fun s => Rabs s <= 1) audio -> clip audio = audio.
Proof.
  intros H. unfold clip. rewrite <- (map_id audio) at 2.
  apply map_ext_Forall. eapply Forall_impl; [|exact H].
  intros s Hs. simpl in Hs. apply clamp_inside.
  unfold AUDIO_CLIP_MIN, AUDIO_CLIP_MAX.
  apply Rabs_le_between in Hs. lra.
Qed.

(** After the limiter the clamp finds nothing to cut. *)
Lemma clip_softLimit (audio : list R) :
  clip (softLimit audio) = softLimit audio.
Proof.
  apply clip_inside.
  eapply Forall_impl; [|apply peak_upper].
  intros s Hs. simpl in Hs.
  pose proof (softLimit_peak audio) as Hp.
  unfold SOFT_LIMITER_THRESHOLD in Hp. lra.
Qed.

(** *** DC removal *)

Lemma sum_from (audio : list R) (a : R) :
  fold_left (fun m sample => m + sample) audio a
  = a + fold_left (fun m sample => m + sample) audio 0.
Proof.
  revert a. induction audio as [|s audio IH]; intros a; simpl.
  - lra.
  - rewrite IH, (IH (0 + s)). lra.
Qed.

Lemma sum_shift (audio : list R) (c : R) :
  fold_left (fun m sample => m + sample)
    (map (fun sample => sample - c) audio) 0
  = fold_left (fun m sample => m + sample) audio 0
    - INR (length audio) * c.
Proof.
  induction audio as [|s audio IH].
  - simpl. lra.
  - cbn [map fold_left length].
    rewrite sum_from, (sum_from audio (0 + s)), IH, S_INR. lra.
Qed.

Lemma sum_bounds (audio : list R) (b : R) :
  Forall (fun s => - b <= s <= b) audio ->
  - (INR (length audio) * b)
  <= fold_left (fun m sample => m + sample) audio 0
  <= INR (length audio) * b.
Proof.
  induction audio as [|s audio IH]; intros H.
  - simpl. lra.
  - inversion H; subst. specialize (IH H3).
    cbn [fold_left length]. rewrite sum_from, S_INR. lra.
Qed.

Lemma sum_repeat (c : R) (n : nat) :
  fold_left (fun m sample => m + sample) (repeat c n) 0 = INR n * c.
Proof.
  induction n as [|n IH].
  - simpl. lra.
  - cbn [repeat fold_left]. rewrite sum_from, IH, S_INR. lra.
Qed.

Lemma mean_removeDC (audio : list R) :
  audio <> [] -> mean (removeDC audio) = 0.
Proof.
  intros Hne. unfold removeDC, mean at 1.
  rewrite sum_shift, length_map.
  assert (Hn : 0 < INR (length audio)).
  { apply lt_0_INR. destruct audio; [contradiction | simpl; lia]. }
  unfold mean. field. lra.
Qed.

Lemma mean_bounds (audio : list R) :
  Forall (fun s => -1 <= s <= 1) audio -> -1 <= mean audio <= 1.
Proof.
  intros H. unfold mean.
  destruct audio as [|s audio].
  - simpl. unfold Rdiv. rewrite Rmult_0_l. lra.
  - assert (Hn : 0 < INR (length (s :: audio)))
      by (apply lt_0_INR; simpl; lia).
    pose proof (sum_bounds (s :: audio) 1) as Hb.
    assert (HF : Forall (fun s0 => - (1) <= s0 <= 1) (s :: audio))
      by exact H.
    specialize (Hb HF).
    split.
    + apply Rmult_le_reg_r with (INR (length (s :: audio))); [exact Hn|].
      unfold Rdiv. rewrite Rmult_assoc, Rinv_l by lra. lra.
    + apply Rmult_le_reg_r with (INR (length (s :: audio))); [exact Hn|].
      unfold Rdiv. rewrite Rmult_assoc, Rinv_l by lra. lra.
Qed.

Lemma postprocessAudio_nonempty (audio : list R) :
  audio <> [] -> postprocessAudio audio = removeDC (clip (softLimit audio)).
Proof. destruct audio; [contradiction | reflexivity]. Qed.

Lemma postprocessAudio_length (audio : list R) :
  length (postprocessAudio audio) = length audio.
Proof.
  destruct audio as [|s audio]; [reflexivity|].
  rewrite postprocessAudio_nonempty by discriminate.
  unfold removeDC, clip. rewrite !length_map. apply softLimit_length.
Qed.

Lemma postprocessAudio_bound (audio : list R) :
  Forall (fun s => Rabs s <= 2) (postprocessAudio audio).
Proof.
  destruct audio as [|s0 audio]; [constructor|].
  rewrite postprocessAudio_nonempty by discriminate.
  set (c := clip (softLimit (s0 :: audio))).
  pose proof (clip_range (softLimit (s0 :: audio))) as Hc. fold c in Hc.
  pose proof (mean_bounds c Hc) as Hm.
  unfold removeDC. apply Forall_map.
  eapply Forall_impl; [|exact Hc].
  intros s Hs. simpl in Hs. apply Rabs_le. lra.
Qed.

End ProcessorFacts.

Section ProcessorClaims.

Import Processor.

Lemma PoiseProcessor_default (vadThresholdDb attenLimDb : R) :
  PoiseProcessor vadThresholdDb attenLimDb
  = Some {| vadThresholdDb_ := vadThresholdDb;
            attenLimDb_ := attenLimDb;
            frameSize_ := 480;
            sampleRate_ := 48000;
            states_ := repeat 0 (Z.to_nat ONNX_STATE_SIZE);
            frameCount_ := 0;
            totalProcessingTimeMs_ := 0;
            vad_ := {| VAD.thresholdDb_ := vadThresholdDb;
                       VAD.thresholdLinear_ := Rpower 10 (vadThresholdDb / 20);
                       VAD.hangFrames_ := 30;
                       VAD.framesSinceActive_ := 31;
                       VAD.totalFrames_ := 0;
                       VAD.activeFrames_ := 0;
                       VAD.bypassedFrames_ := 0 |} |}.
Proof.
  unfold PoiseProcessor, DEFAULT_SAMPLE_RATE.
  rewrite VoiceActivityDetector_default. reflexivity.
Qed.

Lemma processFrame_silence {W : Type} (p : t) (inputFrame : list R)
    (cb : OnnxInferenceCallback W) (w : W) (elapsedMs : R) :
  fst (VAD.isSpeech (vad_ p) (normalizeFrameSize p inputFrame)) = false ->
  processFrame p inputFrame cb w elapsedMs
  = (normalizeFrameSize p inputFrame,
     {| vadThresholdDb_ := vadThresholdDb_ p;
        attenLimDb_ := attenLimDb_ p;
        frameSize_ := frameSize_ p;
        sampleRate_ := sampleRate_ p;
        states_ := states_ p;
        frameCount_ := frameCount_ p;
        totalProcessingTimeMs_ := totalProcessingTimeMs_ p;
        vad_ := snd (VAD.isSpeech (vad_ p) (normalizeFrameSize p inputFrame)) |},
     w).
Proof.
  intros H. unfold processFrame.
  destruct (VAD.isSpeech (vad_ p) (normalizeFrameSize p inputFrame))
    as [b vad]. simpl in H. subst b. reflexivity.
Qed.

Lemma processFrame_speech {W : Type} (p : t) (inputFrame : list R)
    (cb : OnnxInferenceCallback W) (w : W) (elapsedMs : R)
    (enhanced states : list R) (w' : W) :
  fst (VAD.isSpeech (vad_ p) (normalizeFrameSize p inputFrame)) = true ->
  cb (normalizeFrameSize p inputFrame) (states_ p) (attenLimDb_ p) w
  = (enhanced, states, w') ->
  processFrame p inputFrame cb w elapsedMs
  = (postprocessAudio
       (normalizeOutputShape p enhanced (normalizeFrameSize p inputFrame)),
     {| vadThresholdDb_ := vadThresholdDb_ p;
        attenLimDb_ := attenLimDb_ p;
        frameSize_ := frameSize_ p;
        sampleRate_ := sampleRate_ p;
        states_ := states;
        frameCount_ := frameCount_ p + 1;
        totalProcessingTimeMs_ := totalProcessingTimeMs_ p + elapsedMs;
        vad_ := snd (VAD.isSpeech (vad_ p) (normalizeFrameSize p inputFrame)) |},
     w').
Proof.
  intros H Hcb. unfold processFrame.
  destruct (VAD.isSpeech (vad_ p) (normalizeFrameSize p inputFrame))
    as [b vad]. simpl in H. subst b. simpl negb. cbv iota.
  rewrite Hcb. reflexivity.
Qed.

(** C7: when the detector classifies the normalized frame as non-speech,
    [processFrame] returns that frame as it is: the input cut to 480
    samples or padded with zeros.  The callback is not run (its world and
    the model state are the ones before the call, the frame counter does
    not move) and no post-processing touches the samples. *)
Theorem processFrame_silence_passthrough {W : Type}
    (p : t) (inputFrame : list R) (cb : OnnxInferenceCallback W)
    (w : W) (elapsedMs : R) :
  frameSize_ p = 480%Z ->
  fst (VAD.isSpeech (vad_ p) (normalizeFrameSize p inputFrame)) = false ->
  let frame := firstn 480 inputFrame ++ repeat 0 (480 - length inputFrame) in
  let '(output, p', w') := processFrame p inputFrame cb w elapsedMs in
  output = frame
  /\ length output = 480%nat
  /\ w' = w
  /\ states_ p' = states_ p
  /\ frameCount_ p' = frameCount_ p
  /\ totalProcessingTimeMs_ p' = totalProcessingTimeMs_ p
  /\ vad_ p' = snd (VAD.isSpeech (vad_ p) frame).
Proof.
  intros Hsize Hsil frame.
  rewrite (processFrame_silence p inputFrame cb w elapsedMs Hsil).
  assert (Hf : normalizeFrameSize p inputFrame = frame).
  { unfold normalizeFrameSize, frame. rewrite Hsize. reflexivity. }
  rewrite Hf. simpl. repeat split; try reflexivity.
  rewrite <- Hf, normalizeFrameSize_length, Hsize. reflexivity.
Qed.

Lemma processor0_constructed : PoiseProcessor (-40) (-60) = Some processor0.
Proof. apply PoiseProcessor_default. Qed.

Lemma normalizeFrameSize_silence (p : t) (n : nat) :
  frameSize_ p = 480%Z -> (n <= 480)%nat ->
  normalizeFrameSize p (VAD.silence n) = VAD.silence 480.
Proof.
  intros Hsize Hn. unfold normalizeFrameSize, VAD.silence. rewrite Hsize.
  rewrite firstn_all2 by (rewrite repeat_length; simpl; lia).
  rewrite repeat_length, <- repeat_app. f_equal. simpl Z.to_nat. lia.
Qed.

Lemma processFrame_silence_passthrough_witness :
  frameSize_ processor0 = 480%Z
  /\ fst (VAD.isSpeech (vad_ processor0)
            (normalizeFrameSize processor0 (VAD.silence 100))) = false
  /\ let '(output, p', w') :=
       processFrame processor0 (VAD.silence 100) stub tt 0 in
     output
     = firstn 480 (VAD.silence 100)
       ++ repeat 0 (480 - length (VAD.silence 100))
     /\ length output = 480%nat
     /\ states_ p' = states_ processor0.
Proof.
  assert (H1 : frameSize_ processor0 = 480%Z) by reflexivity.
  assert (H2 : fst (VAD.isSpeech (vad_ processor0)
                      (normalizeFrameSize processor0 (VAD.silence 100)))
               = false).
  { rewrite normalizeFrameSize_silence by (try reflexivity; lia).
    apply (vad_silence_bypassed_aux vad0 480).
    - reflexivity.
    - simpl. lia. }
  split; [exact H1|]. split; [exact H2|].
  pose proof (processFrame_silence_passthrough processor0 (VAD.silence 100)
                stub tt 0 H1 H2) as H.
  cbv zeta in H.
  destruct (processFrame processor0 (VAD.silence 100) stub tt 0)
    as [[output p'] w'].
  destruct H as (Ho & Hl & _ & Hs & _).
  split; [exact Ho|]. split; [exact Hl | exact Hs].
Defined.

Lemma peak_from_max_abs (audio : list R) (m : R) :
  0 <= m ->
  fold_left (fun maxVal sample => Rmax maxVal (Rabs sample)) audio m
  = Rmax m (max_abs audio).
Proof.
  revert m.
  induction audio as [|s audio IH]; intros m Hm; cbn [fold_left max_abs].
  - symmetry. apply Rmax_left. exact Hm.
  - rewrite IH by (eapply Rle_trans; [exact Hm | apply Rmax_l]).
    symmetry. apply Rmax_assoc.
Qed.

Lemma max_abs_nonneg (audio : list R) : 0 <= max_abs audio.
Proof.
  destruct audio as [|s audio]; cbn [max_abs]; [lra|].
  eapply Rle_trans; [apply Rabs_pos | apply Rmax_l].
Qed.

(** The peak scan finds the largest magnitude. *)
Lemma peak_max_abs (audio : list R) : peak audio = max_abs audio.
Proof.
  unfold peak. rewrite peak_from_max_abs by lra.
  apply Rmax_right, max_abs_nonneg.
Qed.

Lemma clamp_min_max (s : R) : clamp s (-1) 1 = Rmax (-1) (Rmin s 1).
Proof.
  unfold clamp, Rltb, Rmax, Rmin.
  destruct (Rlt_dec s (-1)), (Rle_dec s 1);
    try destruct (Rlt_dec 1 s);
    repeat match goal with
      | |- context [Rle_dec ?a ?b] => destruct (Rle_dec a b)
      end; lra.
Qed.

(** The summing loop computes the sum of the samples. *)
Lemma sum_loop_sum_samples (audio : list R) :
  fold_left (fun m sample => m + sample) audio 0 = sum_samples audio.
Proof.
  induction audio as [|s audio IH]; [reflexivity|].
  cbn [fold_left sum_samples]. rewrite sum_from, IH. lra.
Qed.

Lemma mean_sum_samples (audio : list R) :
  mean audio = sum_samples audio / INR (length audio).
Proof. unfold mean. now rewrite sum_loop_sum_samples. Qed.

Lemma sum_samples_removeDC (audio : list R) :
  audio <> [] -> sum_samples (removeDC audio) = 0.
Proof.
  intros Hne. pose proof (mean_removeDC audio Hne) as H.
  rewrite mean_sum_samples in H.
  assert (Hn : 0 < INR (length (removeDC audio))).
  { unfold removeDC. rewrite length_map. apply lt_0_INR.
    destruct audio; [contradiction | simpl; lia]. }
  apply Rmult_eq_compat_r with (r := INR (length (removeDC audio))) in H.
  unfold Rdiv in H. rewrite Rmult_assoc, Rinv_l, Rmult_0_l in H by lra.
  lra.
Qed.

(** C8: on a non-empty frame the post-processing is the limiter, then the
    clamp, then the DC removal.  (a) The peak is the largest magnitude in
    the frame; when it exceeds 0.98 the limiter multiplies every sample
    by [0.98 / peak] and the largest magnitude of the limited frame is
    0.98; otherwise it changes nothing.  (b) Every sample is then clamped
    to [-1, 1], that is, replaced by [max (-1) (min s 1)].  (c) The sum of
    the clamped frame divided by its length is subtracted from every
    sample, and the samples of the result add up to 0, so its mean is
    0. *)
Theorem postprocessAudio_stages (audio : list R) :
  audio <> [] ->
  let limited := softLimit audio in
  let clamped := clip limited in
  (peak audio > 98 / 100 ->
     limited = map (fun s => s * (98 / 100 / peak audio)) audio
     /\ peak limited = 98 / 100)
  /\ (peak audio <= 98 / 100 -> limited = audio)
  /\ clamped = map (fun s => clamp s (-1) 1) limited
  /\ Forall (fun s => -1 <= s <= 1) clamped
  /\ postprocessAudio audio = map (fun s => s - mean clamped) clamped
  /\ mean (postprocessAudio audio) = 0
  /\ peak audio = max_abs audio
  /\ (max_abs audio > 98 / 100 ->
        limited = map (fun s => s * (98 / 100 / max_abs audio)) audio
        /\ max_abs limited = 98 / 100)
  /\ (max_abs audio <= 98 / 100 -> limited = audio)
  /\ (forall s, clamp s (-1) 1 = Rmax (-1) (Rmin s 1))
  /\ postprocessAudio audio
     = map (fun s => s - sum_samples clamped / INR (length clamped)) clamped
  /\ sum_samples (postprocessAudio audio) = 0.
Proof.
  intros Hne limited clamped.
  assert (Hc : clip (softLimit audio) <> []).
  { unfold clip. intros E. apply map_eq_nil in E.
    assert (Hl : length (softLimit audio) = 0%nat) by (rewrite E; reflexivity).
    rewrite softLimit_length in Hl.
    destruct audio; [contradiction | discriminate]. }
  split; [intros H; apply (softLimit_above audio H)|].
  split; [intros H; apply (softLimit_below audio H)|].
  split; [reflexivity|].
  split; [apply clip_range|].
  rewrite postprocessAudio_nonempty by exact Hne.
  split; [reflexivity|].
  split; [apply mean_removeDC; exact Hc|].
  split; [apply peak_max_abs|].
  split.
  { intros H. rewrite <- !peak_max_abs in *.
    apply (softLimit_above audio H). }
  split.
  { intros H. rewrite <- peak_max_abs in H. apply (softLimit_below audio H). }
  split; [exact clamp_min_max|].
  split.
  { unfold removeDC. fold clamped. now rewrite mean_sum_samples. }
  apply sum_samples_removeDC. exact Hc.
Qed.

Lemma peak_spike : peak spike = 1.
Proof.
  apply Rle_antisym.
  - apply peak_lub; [lra|]. unfold spike. constructor.
    + rewrite Rabs_R1. lra.
    + apply Forall_repeat. unfold Rabs. destruct (Rcase_abs (-1)); lra.
  - pose proof (peak_upper spike) as H. unfold spike in H at 2.
    inversion H; subst. rewrite Rabs_R1 in H2. exact H2.
Qed.

Lemma postprocessAudio_spike :
  postprocessAudio spike
  = (98 / 100 + 98 / 100 * 478 / 480)
    :: repeat (- (98 / 100) + 98 / 100 * 478 / 480) 479.
Proof.
  rewrite postprocessAudio_nonempty by discriminate.
  rewrite clip_softLimit.
  destruct (softLimit_above spike) as [-> _].
  { rewrite peak_spike. unfold SOFT_LIMITER_THRESHOLD. lra. }
  rewrite peak_spike. unfold SOFT_LIMITER_THRESHOLD, spike.
  cbn [map]. rewrite map_repeat.
  unfold removeDC, mean. cbn [fold_left length map].
  rewrite sum_from, sum_repeat, repeat_length, map_repeat.
  replace (INR 480) with 480 by (simpl; lra).
  replace (INR 479) with 479 by (simpl; lra).
  f_equal; [|f_equal]; field.
Qed.

Lemma peak_overdriven : peak overdriven = 1.5.
Proof.
  apply Rle_antisym.
  - apply peak_lub; [lra|]. unfold overdriven.
    repeat (constructor; [apply Rabs_le; lra|]). constructor.
  - pose proof (peak_upper overdriven) as H. unfold overdriven in H at 2.
    inversion H as [|? ? H1 _]; subst.
    rewrite Rabs_right in H1 by lra. exact H1.
Qed.

Lemma postprocessAudio_stages_witness :
  overdriven <> []
  /\ peak overdriven > 98 / 100
  /\ peak (softLimit overdriven) = 98 / 100
  /\ mean (postprocessAudio overdriven) = 0
  /\ max_abs (softLimit overdriven) = 98 / 100
  /\ sum_samples (postprocessAudio overdriven) = 0.
Proof.
  assert (Hne : overdriven <> []) by discriminate.
  assert (Hpk : peak overdriven > 98 / 100) by (rewrite peak_overdriven; lra).
  destruct (postprocessAudio_stages overdriven Hne)
    as (Ha & _ & _ & _ & _ & Hm & Hp & Hx & _ & _ & _ & Hs).
  split; [exact Hne|]. split; [exact Hpk|].
  split; [apply Ha; exact Hpk|]. split; [exact Hm|].
  split; [|exact Hs].
  apply Hx. rewrite <- Hp. exact Hpk.
Defined.

Lemma rms_spike : VAD.rms spike = 1.
Proof.
  unfold VAD.rms, VAD.sumSquares, spike. cbn [fold_left length].
  rewrite sumSquares_from, sumSquares_repeat, repeat_length.
  replace (INR 479) with 479 by (simpl; lra).
  replace (INR 480) with 480 by (simpl; lra).
  replace ((0 + 1 * 1 + 479 * (-1 * -1)) / 480) with 1 by field.
  apply sqrt_1.
Qed.

Lemma isSpeech_spike :
  fst (VAD.isSpeech (vad_ processor0) (normalizeFrameSize processor0 spike))
  = true.
Proof.
  rewrite normalizeFrameSize_exact
    by (unfold spike; cbn [length]; rewrite repeat_length; reflexivity).
  apply isSpeech_active. unfold VAD.isActive, spike. fold spike.
  apply Rgtb_true. rewrite rms_spike.
  pose proof threshold_minus40. simpl. lra.
Qed.

(** C9: on a speech frame, an empty callback result is replaced by the
    normalized input frame, which is post-processed and returned; a
    non-empty result is cut or zero-padded to 480 samples, as the input
    is, before post-processing.  The call returns 480 samples in both
    cases. *)
Theorem processFrame_fallback {W : Type}
    (p : t) (inputFrame : list R) (cb : OnnxInferenceCallback W)
    (w : W) (elapsedMs : R) (enhanced states : list R) (w' : W) :
  frameSize_ p = 480%Z ->
  fst (VAD.isSpeech (vad_ p) (normalizeFrameSize p inputFrame)) = true ->
  cb (normalizeFrameSize p inputFrame) (states_ p) (attenLimDb_ p) w
  = (enhanced, states, w') ->
  let frame := firstn 480 inputFrame ++ repeat 0 (480 - length inputFrame) in
  let output := fst (fst (processFrame p inputFrame cb w elapsedMs)) in
  (enhanced = [] -> output = postprocessAudio frame)
  /\ (enhanced <> [] ->
      output = postprocessAudio
                 (firstn 480 enhanced ++ repeat 0 (480 - length enhanced))
      /\ normalizeOutputShape p enhanced frame
         = normalizeFrameSize p enhanced)
  /\ length output = 480%nat.
Proof.
  intros Hsize Hsp Hcb frame output. unfold output.
  rewrite (processFrame_speech p inputFrame cb w elapsedMs _ _ _ Hsp Hcb).
  cbn [fst].
  assert (Hf : normalizeFrameSize p inputFrame = frame).
  { unfold normalizeFrameSize, frame. rewrite Hsize. reflexivity. }
  rewrite Hf.
  assert (Hn : forall l, normalizeFrameSize p l
                         = firstn 480 l ++ repeat 0 (480 - length l)).
  { intros l. unfold normalizeFrameSize. rewrite Hsize. reflexivity. }
  split; [|split].
  - intros ->. reflexivity.
  - intros Hne. rewrite normalizeOutputShape_nonempty by exact Hne.
    rewrite Hn. split; reflexivity.
  - rewrite postprocessAudio_length.
    destruct enhanced as [|e enhanced].
    + simpl. rewrite <- Hf, normalizeFrameSize_length, Hsize. reflexivity.
    + rewrite normalizeOutputShape_nonempty by discriminate.
      rewrite normalizeFrameSize_length, Hsize. reflexivity.
Qed.

Lemma processFrame_fallback_witness :
  frameSize_ processor0 = 480%Z
  /\ fst (VAD.isSpeech (vad_ processor0)
            (normalizeFrameSize processor0 spike)) = true
  /\ mute (normalizeFrameSize processor0 spike) (states_ processor0)
       (attenLimDb_ processor0) tt
     = ([], states_ processor0, tt)
  /\ fst (fst (processFrame processor0 spike mute tt 0))
     = postprocessAudio (firstn 480 spike ++ repeat 0 (480 - length spike))
  /\ length (fst (fst (processFrame processor0 spike mute tt 0))) = 480%nat.
Proof.
  assert (H1 : frameSize_ processor0 = 480%Z) by reflexivity.
  assert (H3 : mute (normalizeFrameSize processor0 spike)
                 (states_ processor0) (attenLimDb_ processor0) tt
               = ([], states_ processor0, tt)) by reflexivity.
  destruct (processFrame_fallback processor0 spike mute tt 0 _ _ _
              H1 isSpeech_spike H3) as (Ha & _ & Hc).
  split; [exact H1|]. split; [exact isSpeech_spike|]. split; [exact H3|].
  split; [exact (Ha eq_refl) | exact Hc].
Defined.

(** C10: the DC removal comes after the clamp, so a returned sample can
    leave [-1, 1]: in a default session, the frame [spike] is speech and,
    with a callback that returns it unchanged, the first returned sample
    is above 1.  What does hold for every call is the bound 2 on a
    speech frame's output; a non-speech frame is returned as normalized. *)
Theorem processFrame_output_exceeds_unit :
  (exists (p : t) (inputFrame : list R) (cb : OnnxInferenceCallback unit)
          (s : R),
      PoiseProcessor (-40) (-60) = Some p
      /\ fst (VAD.isSpeech (vad_ p) (normalizeFrameSize p inputFrame)) = true
      /\ In s (fst (fst (processFrame p inputFrame cb tt 0)))
      /\ 1 < Rabs s)
  /\ (forall (W : Type) (p : t) (inputFrame : list R)
             (cb : OnnxInferenceCallback W) (w : W) (elapsedMs : R),
        let output := fst (fst (processFrame p inputFrame cb w elapsedMs)) in
        if fst (VAD.isSpeech (vad_ p) (normalizeFrameSize p inputFrame))
        then Forall (fun s => Rabs s <= 2) output
        else output = normalizeFrameSize p inputFrame).
Proof.
  split.
  - exists processor0, spike, stub, (98 / 100 + 98 / 100 * 478 / 480).
    split; [apply processor0_constructed|].
    split; [apply isSpeech_spike|].
    assert (Hcb : stub (normalizeFrameSize processor0 spike)
                    (states_ processor0) (attenLimDb_ processor0) tt
                  = (normalizeFrameSize processor0 spike,
                     states_ processor0, tt)) by reflexivity.
    rewrite (processFrame_speech processor0 spike stub tt 0 _ _ _
               isSpeech_spike Hcb).
    cbn [fst].
    assert (Hsp : normalizeFrameSize processor0 spike = spike).
    { apply normalizeFrameSize_exact. unfold spike. cbn [length].
      rewrite repeat_length. reflexivity. }
    rewrite Hsp, normalizeOutputShape_nonempty by discriminate.
    rewrite Hsp, postprocessAudio_spike.
    split; [left; reflexivity|].
    rewrite Rabs_right; lra.
  - intros W p inputFrame cb w elapsedMs output. unfold output.
    destruct (fst (VAD.isSpeech (vad_ p) (normalizeFrameSize p inputFrame)))
      eqn:E.
    + destruct (cb (normalizeFrameSize p inputFrame) (states_ p)
                  (attenLimDb_ p) w) as [[enhanced states] w'] eqn:Hcb.
      rewrite (processFrame_speech p inputFrame cb w elapsedMs _ _ _ E Hcb).
      apply postprocessAudio_bound.
    + rewrite (processFrame_silence p inputFrame cb w elapsedMs E).
      reflexivity.
Qed.

End ProcessorClaims.


(** ** Short-time Fourier engine *)

(** *** Complex arithmetic *)

Section ComplexFacts.

Import STFT.

Lemma complex_eq (a b : complex) : re a = re b -> im a = im b -> a = b.
Proof. destruct a, b; simpl; intros -> ->; reflexivity. Qed.

Lemma complex_ring : ring_theory C0 C1 Cadd Cmul Csub Copp (@eq complex).
Proof.
  constructor; intros; apply complex_eq; simpl; ring.
Qed.

End ComplexFacts.

Add Ring complex_ring_inst : complex_ring.

Section ComplexSums.

Import STFT.

Lemma cis_0 : cis 0 = C1.
Proof. unfold cis, C1. now rewrite cos_0, sin_0. Qed.

Lemma cis_add (x y : R) : cis (x + y) = (cis x * cis y)%C.
Proof.
  unfold cis. apply complex_eq; simpl.
  - apply cos_plus.
  - rewrite sin_plus. ring.
Qed.

Lemma cis_neg (x : R) : cis (- x) = conj (cis x).
Proof. unfold cis, conj; simpl. now rewrite cos_neg, sin_neg. Qed.

Lemma cis_PI : cis PI = (- C1)%C.
Proof.
  unfold cis, Copp, C1; simpl. rewrite cos_PI, sin_PI. f_equal; ring.
Qed.

Lemma cis_2PI : cis (2 * PI) = C1.
Proof. unfold cis, C1. now rewrite cos_2PI, sin_2PI. Qed.

Lemma cis_nat_mul (x : R) (n : nat) :
  cis (INR n * x) = fold_left (fun w _ => (w * cis x)%C) (seq 0 n) C1.
Proof.
  induction n as [|n IH].
  - simpl. rewrite Rmult_0_l. apply cis_0.
  - rewrite seq_S, fold_left_app, <- IH. simpl fold_left.
    rewrite <- cis_add, S_INR. f_equal. ring.
Qed.

Lemma cis_2PI_nat (n : nat) : cis (2 * PI * INR n) = C1.
Proof.
  induction n as [|n IH].
  - simpl. rewrite Rmult_0_r. apply cis_0.
  - rewrite S_INR. replace (2 * PI * (INR n + 1)) with (2 * PI * INR n + 2 * PI) by ring.
    rewrite cis_add, IH, cis_2PI. ring.
Qed.

Lemma cis_PI_even (n : nat) : cis (PI * INR (2 * n)) = C1.
Proof.
  rewrite mult_INR. simpl INR.
  replace (PI * ((1 + 1) * INR n)) with (2 * PI * INR n) by ring.
  apply cis_2PI_nat.
Qed.

Lemma cis_PI_odd (n : nat) : cis (PI * INR (2 * n + 1)) = (- C1)%C.
Proof.
  rewrite plus_INR, mult_INR. simpl INR.
  replace (PI * ((1 + 1) * INR n + 1)) with (2 * PI * INR n + PI) by ring.
  rewrite cis_add, cis_2PI_nat, cis_PI. ring.
Qed.

Lemma conj_involutive (a : complex) : conj (conj a) = a.
Proof. apply complex_eq; simpl; ring. Qed.

Lemma conj_mul (a b : complex) : conj (a * b) = (conj a * conj b)%C.
Proof. apply complex_eq; simpl; ring. Qed.

Lemma conj_add (a b : complex) : conj (a + b) = (conj a + conj b)%C.
Proof. apply complex_eq; simpl; ring. Qed.

Lemma csum_ext (f g : nat -> complex) (n : nat) :
  (forall j, (j < n)%nat -> f j = g j) -> csum f n = csum g n.
Proof.
  induction n as [|n IH]; intros H; simpl; [reflexivity|].
  rewrite IH, H by (intros; try apply H; lia). reflexivity.
Qed.

Lemma csum_add (f g : nat -> complex) (n : nat) :
  csum (fun j => (f j + g j)%C) n = (csum f n + csum g n)%C.
Proof.
  induction n as [|n IH]; simpl; [ring|]. rewrite IH. ring.
Qed.

Lemma csum_sub (f g : nat -> complex) (n : nat) :
  csum (fun j => (f j - g j)%C) n = (csum f n - csum g n)%C.
Proof.
  induction n as [|n IH]; simpl; [ring|]. rewrite IH. ring.
Qed.

Lemma csum_scale_l (c : complex) (f : nat -> complex) (n : nat) :
  csum (fun j => (c * f j)%C) n = (c * csum f n)%C.
Proof.
  induction n as [|n IH]; simpl; [ring|]. rewrite IH. ring.
Qed.

Lemma csum_scale_r (c : complex) (f : nat -> complex) (n : nat) :
  csum (fun j => (f j * c)%C) n = (csum f n * c)%C.
Proof.
  induction n as [|n IH]; simpl; [ring|]. rewrite IH. ring.
Qed.

Lemma csum_conj (f : nat -> complex) (n : nat) :
  conj (csum f n) = csum (fun j => conj (f j)) n.
Proof.
  induction n as [|n IH]; simpl.
  - apply complex_eq; simpl; ring.
  - rewrite conj_add, IH. reflexivity.
Qed.

Lemma csum_zero (n : nat) : csum (fun _ => C0) n = C0.
Proof. induction n as [|n IH]; simpl; [reflexivity|]. rewrite IH. ring. Qed.

(** A sum over [2 m] indices, split by parity. *)
Lemma csum_even_odd (g : nat -> complex) (m : nat) :
  csum g (2 * m)
  = (csum (fun j => g (2 * j)%nat) m + csum (fun j => g (2 * j + 1)%nat) m)%C.
Proof.
  induction m as [|m IH].
  - simpl. ring.
  - replace (2 * S m)%nat with (S (S (2 * m))) by lia.
    cbn [csum]. rewrite IH.
    replace (S (2 * m)) with (2 * m + 1)%nat by lia. ring.
Qed.

(** Exchange of two finite sums. *)
Lemma csum_swap (f : nat -> nat -> complex) (n m : nat) :
  csum (fun i => csum (fun j => f i j) m) n
  = csum (fun j => csum (fun i => f i j) n) m.
Proof.
  induction n as [|n IH]; simpl.
  - now rewrite csum_zero.
  - rewrite IH, <- csum_add. reflexivity.
Qed.

(** A sum with a single non-zero term. *)
Lemma csum_single (f : nat -> complex) (n i : nat) :
  (i < n)%nat -> (forall j, (j < n)%nat -> j <> i -> f j = C0) ->
  csum f n = f i.
Proof.
  induction n as [|n IH]; intros Hi H; [lia|]. simpl.
  destruct (Nat.eq_dec i n) as [->|Hne].
  - rewrite (csum_ext f (fun _ => C0)), csum_zero by (intros; apply H; lia).
    ring.
  - rewrite IH, (H n) by (try lia; intros; apply H; lia). ring.
Qed.

End ComplexSums.

(** *** Bit reversal *)

Section BitReverse.

Import STFT.

Lemma for_S {S : Type} (n : nat) (body : nat -> S -> S) (s : S) :
  for_ (Datatypes.S n) body s = body n (for_ n body s).
Proof. unfold for_. rewrite seq_S, fold_left_app. reflexivity. Qed.

Lemma for_0 {S : Type} (body : nat -> S -> S) (s : S) : for_ 0 body s = s.
Proof. reflexivity. Qed.

Lemma lor_double_bit (j b : nat) :
  (b <= 1)%nat -> Nat.lor (Nat.shiftl j 1) b = (2 * j + b)%nat.
Proof.
  intros Hb. rewrite Nat.shiftl_mul_pow2. change (2 ^ 1)%nat with 2%nat.
  destruct b as [|[|b]]; [| |lia].
  - rewrite Nat.lor_0_r. lia.
  - rewrite (Nat.mul_comm j 2). apply Nat.bits_inj. intros [|n].
    + rewrite Nat.lor_spec, Nat.testbit_even_0, Nat.testbit_odd_0.
      reflexivity.
    + rewrite Nat.lor_spec, Nat.testbit_even_succ', Nat.testbit_odd_succ'.
      change 1%nat with (2 * 0 + 1)%nat.
      rewrite Nat.testbit_odd_succ', Nat.bits_0.
      apply orb_false_r.
Qed.

Lemma reverse_S (b i : nat) :
  reverse (S b) i = (2 * reverse b i + (i / 2 ^ b) mod 2)%nat.
Proof.
  unfold reverse. rewrite for_S.
  rewrite Nat.shiftr_div_pow2.
  replace (Nat.land (i / 2 ^ b) 1) with ((i / 2 ^ b) mod 2)%nat
    by (symmetry; apply (Nat.land_ones (i / 2 ^ b) 1)).
  apply lor_double_bit.
  pose proof (Nat.mod_upper_bound (i / 2 ^ b) 2). lia.
Qed.

Lemma reverse_0 (i : nat) : reverse 0 i = 0%nat.
Proof. reflexivity. Qed.

Lemma reverse_front (b i : nat) :
  reverse (S b) i = ((i mod 2) * 2 ^ b + reverse b (i / 2))%nat.
Proof.
  induction b as [|b IH].
  - rewrite reverse_S, !reverse_0. change (2 ^ 0)%nat with 1%nat.
    rewrite Nat.div_1_r. lia.
  - rewrite reverse_S, IH, (reverse_S b (i / 2)).
    rewrite Nat.pow_succ_r', Nat.Div0.div_div. lia.
Qed.

Lemma reverse_lt (b i : nat) : (reverse b i < 2 ^ b)%nat.
Proof.
  induction b as [|b IH].
  - rewrite reverse_0. simpl. lia.
  - rewrite reverse_S, Nat.pow_succ_r'.
    pose proof (Nat.mod_upper_bound (i / 2 ^ b) 2). lia.
Qed.

Lemma double_add_mod2 (a r : nat) : (r < 2)%nat -> ((2 * a + r) mod 2 = r)%nat.
Proof. intros H. symmetry. apply (Nat.mod_unique _ 2 a r); lia. Qed.

Lemma double_add_div2 (a r : nat) : (r < 2)%nat -> ((2 * a + r) / 2 = a)%nat.
Proof. intros H. symmetry. apply (Nat.div_unique _ 2 a r); lia. Qed.

Lemma reverse_mod (b i : nat) : reverse b (i mod 2 ^ b) = reverse b i.
Proof.
  revert i. induction b as [|b IH]; intros i.
  - reflexivity.
  - rewrite !reverse_front, Nat.pow_succ_r'.
    rewrite Nat.Div0.mod_mul_r.
    assert (Hr : (i mod 2 < 2)%nat) by (apply Nat.mod_upper_bound; lia).
    replace (i mod 2 + 2 * ((i / 2) mod 2 ^ b))%nat
      with (2 * ((i / 2) mod 2 ^ b) + i mod 2)%nat by lia.
    rewrite double_add_mod2, double_add_div2 by exact Hr.
    rewrite IH. reflexivity.
Qed.

Lemma reverse_involutive (b i : nat) :
  (i < 2 ^ b)%nat -> reverse b (reverse b i) = i.
Proof.
  revert i. induction b as [|b IH]; intros i Hi.
  - simpl in Hi. rewrite !reverse_0. lia.
  - rewrite Nat.pow_succ_r' in Hi.
    assert (Hq : (i / 2 ^ b < 2)%nat)
      by (apply Nat.Div0.div_lt_upper_bound; lia).
    rewrite reverse_front, (reverse_S b i).
    rewrite (Nat.mod_small (i / 2 ^ b) 2) by exact Hq.
    rewrite double_add_mod2, double_add_div2 by exact Hq.
    rewrite <- (reverse_mod b i), IH by (apply Nat.mod_upper_bound; lia).
    pose proof (Nat.div_mod_eq i (2 ^ b)). lia.
Qed.

Lemma reverse_even (b B : nat) : reverse (S b) (2 * B) = reverse b B.
Proof.
  rewrite reverse_front.
  replace (2 * B)%nat with (2 * B + 0)%nat by lia.
  rewrite double_add_mod2, double_add_div2 by lia. lia.
Qed.

Lemma reverse_odd (b B : nat) :
  reverse (S b) (2 * B + 1) = (2 ^ b + reverse b B)%nat.
Proof.
  rewrite reverse_front.
  rewrite double_add_mod2, double_add_div2 by lia. lia.
Qed.

Lemma count_bits_pow2 (s fuel bits : nat) :
  (bits <= s)%nat -> (s - bits <= fuel)%nat ->
  count_bits fuel bits (2 ^ s) = s.
Proof.
  revert bits. induction fuel as [|fuel IH]; intros bits Hb Hf.
  - simpl. lia.
  - simpl. destruct (Nat.ltb_spec (2 ^ bits) (2 ^ s)) as [Hlt|Hge].
    + apply Nat.pow_lt_mono_r_iff in Hlt; [|lia]. apply IH; lia.
    + apply Nat.pow_le_mono_r_iff in Hge; [|lia]. lia.
Qed.

Lemma pow2_gt_lin (s : nat) : (s < 2 ^ s)%nat.
Proof. apply Nat.pow_gt_lin_r. lia. Qed.

Lemma upd_same {A} (a : array A) (i : nat) (v : A) : upd a i v i = v.
Proof. unfold upd. now rewrite Nat.eqb_refl. Qed.

Lemma upd_other {A} (a : array A) (i k : nat) (v : A) :
  k <> i -> upd a i v k = a k.
Proof. intros H. unfold upd. apply Nat.eqb_neq in H. now rewrite H. Qed.

(** The swap loop applies the permutation [reverse bits] to the first
    [2^s] cells. *)
Lemma bitReverse_spec (s : nat) (data : array complex) (p : nat) :
  (p < 2 ^ s)%nat -> bitReverse data (2 ^ s) p = data (reverse s p).
Proof.
  intros Hp. unfold bitReverse.
  rewrite count_bits_pow2 by (pose proof (pow2_gt_lin s); lia).
  assert (Inv : forall m, (m <= 2 ^ s)%nat ->
            forall q, (q < 2 ^ s)%nat ->
              for_ m (fun i data =>
                        let j := reverse s i in
                        if i <? j then swap data i j else data) data q
              = if ((q <? m) || (reverse s q <? m))%bool
                then data (reverse s q) else data q).
  { induction m as [|m IHm]; intros Hm q Hq.
    - rewrite for_0. reflexivity.
    - rewrite for_S. cbv zeta.
      pose proof (reverse_lt s m) as Hrm.
      pose proof (reverse_lt s q) as Hrq.
      destruct (Nat.ltb_spec m (reverse s m)) as [Hlt|Hge].
      + unfold swap.
        destruct (Nat.eq_dec q (reverse s m)) as [->|Hq1].
        * rewrite upd_same, IHm by lia.
          rewrite reverse_involutive by lia.
          replace (m <? m)%nat with false by (symmetry; apply Nat.ltb_ge; lia).
          replace (reverse s m <? m)%nat with false
            by (symmetry; apply Nat.ltb_ge; lia).
          replace (m <? S m)%nat with true by (symmetry; apply Nat.ltb_lt; lia).
          rewrite orb_true_r. reflexivity.
        * rewrite upd_other by exact Hq1.
          destruct (Nat.eq_dec q m) as [->|Hq2].
          -- rewrite upd_same, IHm by lia.
             rewrite reverse_involutive by lia.
             replace (reverse s m <? m)%nat with false
               by (symmetry; apply Nat.ltb_ge; lia).
             replace (m <? m)%nat with false
               by (symmetry; apply Nat.ltb_ge; lia).
             replace (m <? S m)%nat with true
               by (symmetry; apply Nat.ltb_lt; lia).
             reflexivity.
          -- rewrite upd_other, IHm by (try exact Hq2; lia).
             assert (Hrq' : reverse s q <> m).
             { intros E. apply Hq1. rewrite <- E.
               symmetry. apply reverse_involutive. exact Hq. }
             replace (q <? S m)%nat with (q <? m)%nat.
             2:{ destruct (Nat.ltb_spec q m), (Nat.ltb_spec q (S m));
                 try reflexivity; lia. }
             replace (reverse s q <? S m)%nat with (reverse s q <? m)%nat.
             2:{ destruct (Nat.ltb_spec (reverse s q) m),
                   (Nat.ltb_spec (reverse s q) (S m)); try reflexivity; lia. }
             reflexivity.
      + rewrite IHm by lia.
        destruct (Nat.eq_dec q m) as [->|Hq2].
        * replace (m <? S m)%nat with true by (symmetry; apply Nat.ltb_lt; lia).
          replace (m <? m)%nat with false by (symmetry; apply Nat.ltb_ge; lia).
          simpl orb.
          destruct (Nat.ltb_spec (reverse s m) m) as [H1|H1]; [reflexivity|].
          replace (reverse s m) with m by lia. reflexivity.
        * destruct (Nat.eq_dec (reverse s q) m) as [E|Hrq'].
          -- assert (Hq' : q = reverse s m).
             { rewrite <- E. symmetry. apply reverse_involutive. exact Hq. }
             replace (q <? m)%nat with true
               by (symmetry; apply Nat.ltb_lt; lia).
             replace (q <? S m)%nat with true
               by (symmetry; apply Nat.ltb_lt; lia).
             reflexivity.
          -- replace (q <? S m)%nat with (q <? m)%nat.
             2:{ destruct (Nat.ltb_spec q m), (Nat.ltb_spec q (S m));
                 try reflexivity; lia. }
             replace (reverse s q <? S m)%nat with (reverse s q <? m)%nat.
             2:{ destruct (Nat.ltb_spec (reverse s q) m),
                   (Nat.ltb_spec (reverse s q) (S m)); try reflexivity; lia. }
             reflexivity. }
  etransitivity; [exact (Inv (2 ^ s)%nat (Nat.le_refl _) p Hp)|].
  replace (p <? 2 ^ s)%nat with true by (symmetry; apply Nat.ltb_lt; lia).
  reflexivity.
Qed.

End BitReverse.

(** *** Butterfly passes *)

Section Butterflies.

Import STFT.

Lemma butterflies_prefix (start half : nat) (a : R) (data : array complex)
    (m : nat) :
  (m <= half)%nat ->
  exists d,
    for_ m
      (fun k '(data, w) =>
         let t := Cmul w (data (start + k + half)%nat) in
         let u := data (start + k)%nat in
         let data := upd data (start + k)%nat (Cadd u t) in
         let data := upd data (start + k + half)%nat (Csub u t) in
         (data, Cmul w (cis a)))
      (data, C1)
    = (d, cis (INR m * a))
    /\ forall p, d p = butterflies_fun start half a data m p.
Proof.
  induction m as [|m IH]; intros Hm.
  - exists data. rewrite for_0. split.
    + simpl INR. rewrite Rmult_0_l, cis_0. reflexivity.
    + intros p. unfold butterflies_fun. range_cases; reflexivity.
  - destruct IH as (d & Hd & Hp); [lia|].
    rewrite for_S, Hd. cbv zeta.
    eexists. split.
    + f_equal. rewrite S_INR, Rmult_plus_distr_r, Rmult_1_l, cis_add.
      reflexivity.
    + intros p.
      assert (Hlo : d (start + m)%nat = data (start + m)%nat).
      { rewrite Hp. unfold butterflies_fun. range_cases; reflexivity. }
      assert (Hhi : d (start + m + half)%nat = data (start + m + half)%nat).
      { rewrite Hp. unfold butterflies_fun. range_cases; reflexivity. }
      destruct (Nat.eq_dec p (start + m + half)) as [->|Hne1].
      * rewrite upd_same, Hlo, Hhi. unfold butterflies_fun. range_cases.
        replace (start + m + half - half)%nat with (start + m)%nat by lia.
        replace (start + m - start)%nat with m by lia.
        reflexivity.
      * rewrite upd_other by exact Hne1.
        destruct (Nat.eq_dec p (start + m)) as [->|Hne2].
        -- rewrite upd_same, Hlo, Hhi. unfold butterflies_fun. range_cases.
           replace (start + m - start)%nat with m by lia.
           reflexivity.
        -- rewrite upd_other, Hp by exact Hne2. unfold butterflies_fun.
           range_cases; reflexivity.
Qed.

Lemma butterflies_spec (start half : nat) (a : R) (data : array complex)
    (p : nat) :
  butterflies start half (cis a) data p
  = butterflies_fun start half a data half p.
Proof.
  destruct (butterflies_prefix start half a data half (Nat.le_refl _))
    as (d & Hd & Hp).
  assert (E : butterflies start half (cis a) data = d)
    by exact (f_equal fst Hd).
  rewrite E. apply Hp.
Qed.

Lemma block_mod (B half k : nat) :
  (k < 2 * half)%nat -> ((B * (2 * half) + k) mod (2 * half) = k)%nat.
Proof.
  intros Hk. symmetry. apply (Nat.mod_unique _ (2 * half) B k); lia.
Qed.

Lemma stage_blocks (half : nat) (a : R) (nb : nat) (data : array complex) :
  (0 < half)%nat ->
  forall p,
    fold_left (fun data start => butterflies start half (cis a) data)
      (map (fun b => (b * (2 * half))%nat) (seq 0 nb)) data p
    = if (p <? nb * (2 * half))%nat then stage_fun half a data p else data p.
Proof.
  intros Hh. induction nb as [|nb IH]; intros p.
  - reflexivity.
  - rewrite seq_S, map_app, fold_left_app. cbn [map fold_left Nat.add].
    rewrite butterflies_spec. unfold butterflies_fun.
    assert (Hin : forall q, (nb * (2 * half) <= q)%nat ->
              fold_left (fun data start => butterflies start half (cis a) data)
                (map (fun b => (b * (2 * half))%nat) (seq 0 nb)) data q
              = data q).
    { intros q Hq. rewrite IH. range_cases; reflexivity. }
    assert (Hmod : (nb * (2 * half) <= p)%nat ->
                   (p < nb * (2 * half) + 2 * half)%nat ->
                   (p mod (2 * half) = p - nb * (2 * half))%nat).
    { intros H1 H2.
      replace p with (nb * (2 * half) + (p - nb * (2 * half)))%nat at 1 by lia.
      apply block_mod. lia. }
    replace (S nb * (2 * half))%nat with (nb * (2 * half) + 2 * half)%nat
      by lia.
    set (start := (nb * (2 * half))%nat) in *.
    destruct (Nat.leb_spec start p) as [Hge|Hlt].
    + destruct (Nat.ltb_spec p (start + half)) as [H1|H1].
      * cbn [andb]. rewrite !Hin by lia.
        unfold stage_fun. rewrite Hmod by lia. range_cases; reflexivity.
      * cbn [andb].
        destruct (Nat.leb_spec (start + half) p) as [_|]; [|lia].
        destruct (Nat.ltb_spec p (start + half + half)) as [H2|H2].
        -- cbn [andb]. rewrite !Hin by lia.
           unfold stage_fun. rewrite Hmod by lia. range_cases.
           replace (p - half - start)%nat with (p - start - half)%nat by lia.
           reflexivity.
        -- cbn [andb]. rewrite Hin by lia. range_cases; reflexivity.
    + cbn [andb].
      destruct (Nat.leb_spec (start + half) p) as [|_]; [lia|].
      cbn [andb]. rewrite IH. fold start. range_cases; reflexivity.
Qed.

Lemma starts_blocks (nb size : nat) :
  (0 < size)%nat ->
  starts (nb * size) size = map (fun b => (b * size)%nat) (seq 0 nb).
Proof.
  intros Hs. unfold starts. f_equal. f_equal.
  symmetry. apply (Nat.div_unique _ size nb (size - 1)); lia.
Qed.

(** One pass over an array of [nb] blocks of [2 * half] cells. *)
Lemma stage_spec (nb half : nat) (inverse : bool) (data : array complex)
    (p : nat) :
  (0 < half)%nat -> (p < nb * (2 * half))%nat ->
  stage (nb * (2 * half)) (2 * half) inverse data p
  = stage_fun half (angle inverse (2 * half)) data p.
Proof.
  intros Hh Hp. unfold stage.
  rewrite starts_blocks by lia.
  replace (2 * half / 2)%nat with half
    by (rewrite Nat.mul_comm, Nat.div_mul; lia).
  fold (cis (angle inverse (2 * half))).
  rewrite stage_blocks by exact Hh.
  replace (p <? nb * (2 * half))%nat with true
    by (symmetry; apply Nat.ltb_lt; exact Hp).
  reflexivity.
Qed.

End Butterflies.

(** *** The transform computed by [fft] *)

Section Transform.

Import STFT.

Lemma pow2_pos (t : nat) : (0 < 2 ^ t)%nat.
Proof. apply Nat.neq_0_lt_0, Nat.pow_nonzero. lia. Qed.

Lemma INR_pow2_pos (t : nat) : 0 < INR (2 ^ t).
Proof. apply lt_0_INR, pow2_pos. Qed.

Lemma angle_double (inverse : bool) (h : nat) (e : nat) :
  (0 < h)%nat ->
  angle inverse (2 * h) * INR (2 * e) = angle inverse h * INR e.
Proof.
  intros Hh. unfold angle. rewrite !mult_INR. simpl (INR 2).
  assert (0 < INR h) by (apply lt_0_INR; exact Hh).
  field. lra.
Qed.

Lemma cis_half_turn (inverse : bool) (h j : nat) :
  (0 < h)%nat ->
  cis (angle inverse (2 * h) * INR (h * j))
  = if Nat.even j then C1 else (- C1)%C.
Proof.
  intros Hh.
  assert (Hh' : 0 < INR h) by (apply lt_0_INR; exact Hh).
  assert (E : angle inverse (2 * h) * INR (h * j)
              = (if inverse then 1 else -1) * (PI * INR j)).
  { unfold angle. rewrite !mult_INR. simpl (INR 2).
    destruct inverse; field; lra. }
  rewrite E.
  assert (Hpi : cis (PI * INR j) = if Nat.even j then C1 else (- C1)%C).
  { destruct (Nat.even j) eqn:Ev.
    - apply Nat.even_spec in Ev as [m ->]. apply cis_PI_even.
    - assert (Hodd : Nat.odd j = true)
        by (rewrite <- Nat.negb_even, Ev; reflexivity).
      apply Nat.odd_spec in Hodd as [m ->]. apply cis_PI_odd. }
  destruct inverse.
  - rewrite Rmult_1_l. exact Hpi.
  - replace (-1 * (PI * INR j)) with (- (PI * INR j)) by ring.
    rewrite cis_neg, Hpi.
    destruct (Nat.even j); apply complex_eq; simpl; ring.
Qed.

Lemma even_double (j : nat) : Nat.even (2 * j) = true.
Proof. apply Nat.even_spec. exists j. reflexivity. Qed.

Lemma even_double_succ (j : nat) : Nat.even (2 * j + 1) = false.
Proof.
  rewrite <- Nat.negb_odd.
  replace (Nat.odd (2 * j + 1)) with true; [reflexivity|].
  symmetry. apply Nat.odd_spec. exists j. reflexivity.
Qed.

(** One pass turns the invariant for blocks of [2^t] cells into the one
    for blocks of [2^(t+1)] cells. *)
Lemma passes_done_step (inverse : bool) (x : array complex) (t b : nat)
    (data : array complex) :
  passes_done inverse x t (S b) data ->
  passes_done inverse x (S t) b
    (stage_fun (2 ^ t) (angle inverse (2 * 2 ^ t)) data).
Proof.
  intros Inv B k HB Hk.
  pose proof (pow2_pos t) as Hh. set (h := (2 ^ t)%nat) in *.
  rewrite Nat.pow_succ_r' in Hk. fold h in Hk.
  rewrite Nat.pow_succ_r'. fold h.
  set (a := angle inverse (2 * h)).
  set (r := reverse b B).
  (* the two half-size transforms this block is built from *)
  assert (Ev : forall k', (k' < h)%nat ->
            data (B * (2 * h) + k')%nat
            = csum (fun j => (x (r + 2 * j * 2 ^ b)%nat
                              * cis (a * INR (2 * j * k')))%C) h).
  { intros k' Hk'.
    replace (B * (2 * h) + k')%nat with (2 * B * h + k')%nat by lia.
    rewrite Inv by (try rewrite Nat.pow_succ_r'; lia).
    fold h. rewrite reverse_even. fold r. apply csum_ext. intros j _.
    f_equal.
    - f_equal. rewrite Nat.pow_succ_r'. ring.
    - f_equal. unfold a.
      replace (2 * j * k')%nat with (2 * (j * k'))%nat by ring.
      symmetry. apply angle_double. exact Hh. }
  assert (Od : forall k', (k' < h)%nat ->
            (cis (INR k' * a) * data (B * (2 * h) + k' + h)%nat)%C
            = csum (fun j => (x (r + (2 * j + 1) * 2 ^ b)%nat
                              * cis (a * INR ((2 * j + 1) * k')))%C) h).
  { intros k' Hk'.
    replace (B * (2 * h) + k' + h)%nat with ((2 * B + 1) * h + k')%nat by lia.
    rewrite Inv by (try rewrite Nat.pow_succ_r'; lia).
    fold h. rewrite reverse_odd. fold r. rewrite <- csum_scale_l.
    apply csum_ext. intros j _.
    replace (2 ^ b + r + j * 2 ^ S b)%nat with (r + (2 * j + 1) * 2 ^ b)%nat
      by (rewrite Nat.pow_succ_r'; ring).
    replace (a * INR ((2 * j + 1) * k'))
      with (INR k' * a + angle inverse h * INR (j * k')).
    { rewrite cis_add. ring. }
    unfold a. rewrite <- (angle_double inverse h (j * k') Hh).
    push_INR. ring. }
  assert (Hmod : ((B * (2 * h) + k) mod (2 * h) = k)%nat)
    by (apply block_mod; exact Hk).
  unfold stage_fun. rewrite Hmod.
  rewrite csum_even_odd.
  destruct (Nat.ltb_spec k h) as [Hlt|Hge].
  - rewrite Ev, Od by exact Hlt. reflexivity.
  - assert (Hex : exists k', k = (k' + h)%nat /\ (k' < h)%nat)
      by (exists (k - h)%nat; lia).
    destruct Hex as (k' & -> & Hk').
    replace (B * (2 * h) + (k' + h) - h)%nat with (B * (2 * h) + k')%nat
      by lia.
    replace (k' + h - h)%nat with k' by lia.
    replace (data (B * (2 * h) + (k' + h))%nat)
      with (data (B * (2 * h) + k' + h)%nat) by (f_equal; lia).
    rewrite Ev, Od by exact Hk'.
    rewrite (csum_ext
               (fun j => (x (r + 2 * j * 2 ^ b)%nat
                          * cis (a * INR (2 * j * (k' + h))))%C)
               (fun j => (x (r + 2 * j * 2 ^ b)%nat
                          * cis (a * INR (2 * j * k')))%C)).
    2:{ intros j _. f_equal.
        replace (a * INR (2 * j * (k' + h)))
          with (a * INR (2 * j * k') + a * INR (h * (2 * j))).
        - unfold a at 2.
          rewrite cis_add, cis_half_turn, even_double by exact Hh. ring.
        - push_INR. ring. }
    rewrite (csum_ext
               (fun j => (x (r + (2 * j + 1) * 2 ^ b)%nat
                          * cis (a * INR ((2 * j + 1) * (k' + h))))%C)
               (fun j => (- C1 * (x (r + (2 * j + 1) * 2 ^ b)%nat
                                  * cis (a * INR ((2 * j + 1) * k'))))%C)).
    2:{ intros j _.
        replace (a * INR ((2 * j + 1) * (k' + h)))
          with (a * INR ((2 * j + 1) * k') + a * INR (h * (2 * j + 1))).
        - unfold a at 2.
          rewrite cis_add, cis_half_turn, even_double_succ by exact Hh. ring.
        - push_INR. ring. }
    rewrite csum_scale_l. ring.
Qed.

Lemma passes_done_init (inverse : bool) (x : array complex) (s : nat) :
  passes_done inverse x 0 s (bitReverse x (2 ^ s)).
Proof.
  intros B k HB Hk. change (2 ^ 0)%nat with 1%nat in *.
  assert (k = 0)%nat as -> by lia.
  rewrite bitReverse_spec by lia.
  cbn [csum]. rewrite Nat.mul_0_r. simpl (INR 0). rewrite Rmult_0_r, cis_0.
  replace (B * 1 + 0)%nat with B by lia.
  replace (reverse s B + 0 * 2 ^ s)%nat with (reverse s B) by lia.
  ring.
Qed.

Lemma passes_done_ext (inverse : bool) (x : array complex) (t b : nat)
    (data data' : array complex) :
  (forall p, (p < 2 ^ b * 2 ^ t)%nat -> data' p = data p) ->
  passes_done inverse x t b data -> passes_done inverse x t b data'.
Proof.
  intros Hext Inv B k HB Hk. rewrite Hext; [apply Inv; assumption|].
  pose proof (pow2_pos t). nia.
Qed.

Lemma stages_S (fuel size n : nat) (inverse : bool) (data : array complex) :
  stages (S fuel) size n inverse data
  = if (size <=? n)%nat
    then stages fuel (size * 2) n inverse (stage n size inverse data)
    else data.
Proof. reflexivity. Qed.

(** The loop over [size] completes the invariant. *)
Lemma stages_spec (inverse : bool) (x : array complex) (b : nat) :
  forall (t fuel : nat) (data : array complex),
    (b <= fuel)%nat ->
    passes_done inverse x t b data ->
    passes_done inverse x (t + b) 0
      (stages fuel (2 ^ S t) (2 ^ (t + b)) inverse data).
Proof.
  induction b as [|b IH]; intros t fuel data Hfuel Inv.
  - rewrite Nat.add_0_r.
    assert (E : stages fuel (2 ^ S t) (2 ^ t) inverse data = data).
    { destruct fuel; [reflexivity|]. rewrite stages_S.
      destruct (Nat.leb_spec (2 ^ S t) (2 ^ t)) as [H|H]; [|reflexivity].
      rewrite Nat.pow_succ_r' in H. pose proof (pow2_pos t). lia. }
    rewrite E. exact Inv.
  - destruct fuel as [|fuel]; [lia|].
    rewrite stages_S.
    destruct (Nat.leb_spec (2 ^ S t) (2 ^ (t + S b))) as [_|H].
    2:{ exfalso. apply (Nat.pow_lt_mono_r_iff 2) in H; lia. }
    replace (2 ^ S t * 2)%nat with (2 ^ S (S t))%nat
      by (rewrite (Nat.pow_succ_r' 2 (S t)); lia).
    replace (t + S b)%nat with (S t + b)%nat by lia.
    apply IH; [lia|].
    apply passes_done_ext
      with (data := stage_fun (2 ^ t) (angle inverse (2 * 2 ^ t)) data).
    + intros p Hp.
      replace (2 ^ (S t + b))%nat with (2 ^ b * (2 * 2 ^ t))%nat
        by (rewrite Nat.pow_add_r, Nat.pow_succ_r'; lia).
      rewrite Nat.pow_succ_r'.
      apply stage_spec; [apply pow2_pos|].
      rewrite Nat.pow_succ_r' in Hp. lia.
    + apply passes_done_step. exact Inv.
Qed.

Lemma for_upd {A : Type} (n : nat) (f : nat -> A -> A) (a : array A) (k : nat) :
  for_ n (fun i a => upd a i (f i (a i))) a k
  = if (k <? n)%nat then f k (a k) else a k.
Proof.
  induction n as [|n IH].
  - reflexivity.
  - rewrite for_S.
    destruct (Nat.eq_dec k n) as [->|Hne].
    + rewrite upd_same, IH. range_cases; reflexivity.
    + rewrite upd_other, IH by exact Hne. range_cases; reflexivity.
Qed.

(** [fft] computes the Fourier sums of the first [2^s] cells; the inverse
    transform divides them by the length. *)
Lemma fft_spec (s : nat) (x : array complex) (inverse : bool) (k : nat) :
  (k < 2 ^ s)%nat ->
  fft x (2 ^ s) inverse k
  = if inverse
    then Cdivr (dft true x (2 ^ s) k) (INR (2 ^ s))
    else dft false x (2 ^ s) k.
Proof.
  intros Hk.
  pose proof (stages_spec inverse x s 0 (2 ^ s) (bitReverse x (2 ^ s))) as H.
  specialize (H (Nat.lt_le_incl _ _ (pow2_gt_lin s))
                (passes_done_init inverse x s)).
  cbn [Nat.add] in H. change (2 ^ 1)%nat with 2%nat in H.
  specialize (H 0%nat k).
  assert (E : stages (2 ^ s) 2 (2 ^ s) inverse (bitReverse x (2 ^ s)) k
              = dft inverse x (2 ^ s) k).
  { replace k with (0 * 2 ^ s + k)%nat at 1 by lia.
    rewrite H by (simpl; lia).
    unfold dft. apply csum_ext. intros j _.
    rewrite reverse_0. f_equal. f_equal. simpl. lia. }
  unfold fft. destruct inverse.
  - rewrite (for_upd (2 ^ s) (fun _ z => Cdivr z (INR (2 ^ s)))).
    range_cases. rewrite E. reflexivity.
  - exact E.
Qed.

End Transform.

(** *** Inversion and symmetry of the Fourier sums *)

Section Inversion.

Import STFT.

Lemma Cmul_integral (a b : complex) : (a * b)%C = C0 -> a <> C0 -> b = C0.
Proof.
  destruct a as [ar ai], b as [br bi]. unfold Cmul, C0. simpl.
  intros [= H1 H2] Ha.
  assert (Hn : 0 < ar * ar + ai * ai).
  { destruct (Req_dec ar 0) as [->|Hr].
    - destruct (Req_dec ai 0) as [->|Hi]; [contradiction Ha; reflexivity|].
      nra.
    - nra. }
  assert (Hbr : br * (ar * ar + ai * ai) = 0).
  { replace (br * (ar * ar + ai * ai))
      with (ar * (ar * br - ai * bi) + ai * (ar * bi + ai * br)) by ring.
    rewrite H1, H2. ring. }
  assert (Hbi : bi * (ar * ar + ai * ai) = 0).
  { replace (bi * (ar * ar + ai * ai))
      with (ar * (ar * bi + ai * br) - ai * (ar * br - ai * bi)) by ring.
    rewrite H1, H2. ring. }
  apply Rmult_integral in Hbr, Hbi.
  destruct Hbr as [->|]; [|lra]. destruct Hbi as [->|]; [|lra].
  reflexivity.
Qed.

Lemma cis_eq_C1 (phi : R) :
  cis phi = C1 -> - (2 * PI) < phi < 2 * PI -> phi = 0.
Proof.
  assert (Hpos : forall x, cis x = C1 -> 0 <= x < 2 * PI -> x = 0).
  { intros x [= Hc Hs] [H0 H1].
    destruct (sin_eq_O_2PI_0 x H0 (Rlt_le _ _ H1) Hs) as [E|[E|E]].
    - exact E.
    - rewrite E, cos_PI in Hc. lra.
    - lra. }
  intros H [Hl Hu].
  destruct (Rle_lt_dec 0 phi) as [H0|H0].
  - apply Hpos; [exact H | lra].
  - assert (E : - phi = 0).
    { apply Hpos; [|lra]. rewrite cis_neg, H.
      apply complex_eq; simpl; ring. }
    lra.
Qed.

Lemma geometric_sum (phi : R) (n : nat) :
  ((cis phi - C1) * csum (fun k => cis (INR k * phi)) n)%C
  = (cis (INR n * phi) - C1)%C.
Proof.
  induction n as [|n IH].
  - simpl. rewrite Rmult_0_l, cis_0. ring.
  - cbn [csum].
    replace ((cis phi - C1)
             * (csum (fun k => cis (INR k * phi)) n + cis (INR n * phi)))%C
      with ((cis phi - C1) * csum (fun k => cis (INR k * phi)) n
            + (cis phi * cis (INR n * phi) - cis (INR n * phi)))%C by ring.
    rewrite IH, <- cis_add, S_INR.
    replace (phi + INR n * phi) with ((INR n + 1) * phi) by ring.
    ring.
Qed.

Lemma csum_const (c : complex) (n : nat) :
  csum (fun _ => c) n = (mkC (INR n) 0 * c)%C.
Proof.
  induction n as [|n IH].
  - simpl. apply complex_eq; simpl; ring.
  - cbn [csum]. rewrite IH, S_INR. apply complex_eq; simpl; ring.
Qed.

(** Orthogonality of the [n]-th roots of unity. *)
Lemma roots_sum (n i j : nat) :
  (i < n)%nat -> (j < n)%nat ->
  csum (fun k => cis (INR k * (2 * PI * (INR j - INR i) / INR n))) n
  = if Nat.eqb i j then mkC (INR n) 0 else C0.
Proof.
  intros Hi Hj.
  assert (Hn : 0 < INR n) by (apply lt_0_INR; lia).
  destruct (Nat.eqb_spec i j) as [->|Hne].
  - rewrite (csum_ext _ (fun _ => C1)).
    + rewrite csum_const. ring.
    + intros k _. rewrite <- cis_0. f_equal. unfold Rdiv. ring.
  - set (phi := 2 * PI * (INR j - INR i) / INR n).
    apply Cmul_integral with (a := (cis phi - C1)%C).
    + rewrite geometric_sum.
      replace (INR n * phi) with (2 * PI * (INR j - INR i))
        by (unfold phi; field; lra).
      replace (2 * PI * (INR j - INR i))
        with (2 * PI * INR j + - (2 * PI * INR i)) by ring.
      rewrite cis_add, cis_neg, !cis_2PI_nat.
      apply complex_eq; simpl; ring.
    + intros E.
      assert (E1 : cis phi = C1).
      { replace (cis phi) with (cis phi - C1 + C1)%C by ring.
        rewrite E. ring. }
      apply cis_eq_C1 in E1.
      * assert (INR j - INR i = 0).
        { unfold phi in E1. pose proof PI_RGT_0 as Hpi.
          assert (H2 : 2 * PI * (INR j - INR i) = 0).
          { replace (2 * PI * (INR j - INR i))
              with (2 * PI * (INR j - INR i) / INR n * INR n)
              by (field; lra).
            rewrite E1. ring. }
          apply Rmult_integral in H2. destruct H2; lra. }
        apply Hne. apply INR_eq. lra.
      * pose proof PI_RGT_0 as Hpi.
        assert (Hi' : 0 <= INR i < INR n)
          by (split; [apply pos_INR | apply lt_INR; exact Hi]).
        assert (Hj' : 0 <= INR j < INR n)
          by (split; [apply pos_INR | apply lt_INR; exact Hj]).
        unfold phi. split.
        -- apply Rmult_lt_reg_r with (INR n); [exact Hn|].
           replace (2 * PI * (INR j - INR i) / INR n * INR n)
             with (2 * PI * (INR j - INR i)) by (field; lra).
           nra.
        -- apply Rmult_lt_reg_r with (INR n); [exact Hn|].
           replace (2 * PI * (INR j - INR i) / INR n * INR n)
             with (2 * PI * (INR j - INR i)) by (field; lra).
           nra.
Qed.

(** The inverse sums, divided by [n], undo the forward sums. *)
Lemma dft_inverse (n : nat) (x X : array complex) (j : nat) :
  (j < n)%nat ->
  (forall k, (k < n)%nat -> X k = dft false x n k) ->
  Cdivr (dft true X n j) (INR n) = x j.
Proof.
  intros Hj HX.
  assert (Hn : 0 < INR n) by (apply lt_0_INR; lia).
  assert (E : dft true X n j = (x j * mkC (INR n) 0)%C).
  { unfold dft at 1.
    rewrite (csum_ext _
               (fun k => csum (fun i =>
                  (x i * cis (INR k * (2 * PI * (INR j - INR i) / INR n)))%C)
                  n)).
    2:{ intros k Hk. rewrite HX by exact Hk. unfold dft.
        rewrite <- csum_scale_r. apply csum_ext. intros i _.
        replace (INR k * (2 * PI * (INR j - INR i) / INR n))
          with (angle false n * INR (i * k) + angle true n * INR (k * j)).
        - rewrite cis_add. ring.
        - unfold angle. push_INR. field. lra. }
    rewrite csum_swap.
    rewrite (csum_ext _
               (fun i => (x i * (if Nat.eqb i j then mkC (INR n) 0 else C0))%C)).
    2:{ intros i Hi. rewrite csum_scale_l, roots_sum by assumption.
        reflexivity. }
    rewrite (csum_single _ n j Hj).
    - rewrite Nat.eqb_refl. reflexivity.
    - intros i _ Hne. apply Nat.eqb_neq in Hne. rewrite Hne. ring. }
  rewrite E. apply complex_eq; simpl; field; lra.
Qed.

(** The Fourier sums of real samples are Hermitian-symmetric. *)
Lemma dft_hermitian (n : nat) (x : array complex) (k : nat) :
  (forall j, (j < n)%nat -> im (x j) = 0) ->
  (0 < k <= n)%nat ->
  dft false x n (n - k) = conj (dft false x n k).
Proof.
  intros Hreal Hk.
  assert (Hn : 0 < INR n) by (apply lt_0_INR; lia).
  unfold dft. rewrite csum_conj. apply csum_ext. intros j Hj.
  rewrite conj_mul, <- cis_neg.
  assert (Hx : conj (x j) = x j).
  { apply complex_eq; simpl; [reflexivity|]. rewrite Hreal by exact Hj. ring. }
  rewrite Hx. f_equal.
  replace (angle false n * INR (j * (n - k)))
    with (- (2 * PI * INR j) + - (angle false n * INR (j * k))).
  - rewrite cis_add, cis_neg, cis_2PI_nat.
    apply complex_eq; simpl; ring.
  - unfold angle. rewrite !mult_INR, minus_INR by lia. field. lra.
Qed.

End Inversion.

(** *** Analysis, synthesis and overlap-add *)

Section OverlapAdd.

Import STFT.

Lemma INR_FFT_SIZE : INR FFT_SIZE = 512.
Proof. unfold FFT_SIZE. rewrite INR_IZR_INZ. reflexivity. Qed.

Lemma INR_HOP_SIZE : INR HOP_SIZE = 256.
Proof. unfold HOP_SIZE. rewrite INR_IZR_INZ. reflexivity. Qed.

Lemma FFT_SIZE_pow2 : FFT_SIZE = (2 ^ 9)%nat.
Proof. reflexivity. Qed.

Lemma hann_nonneg (i : nat) : 0 <= hann i.
Proof.
  unfold hann. pose proof (COS_bound (2 * PI * INR i / INR FFT_SIZE)). lra.
Qed.

Lemma sqrt_hann_square (i : nat) : sqrt (hann i) * sqrt (hann i) = hann i.
Proof. apply sqrt_sqrt, hann_nonneg. Qed.

(** At 50% overlap the Hann window sums to one. *)
Lemma hann_overlap (i : nat) : hann i + hann (i + HOP_SIZE) = 1.
Proof.
  unfold hann. rewrite plus_INR, INR_FFT_SIZE, INR_HOP_SIZE.
  replace (2 * PI * (INR i + 256) / 512) with (2 * PI * INR i / 512 + PI)
    by field.
  rewrite neg_cos. lra.
Qed.

Lemma initWindow_spec (window : array R) (i : nat) :
  (i < FFT_SIZE)%nat -> initWindow window i = sqrt (hann i).
Proof.
  intros Hi. unfold initWindow.
  etransitivity;
    [exact (for_upd FFT_SIZE (fun i _ => sqrt (hann i)) window i)|].
  range_cases; reflexivity.
Qed.

Lemma nth_map_seq {A : Type} (f : nat -> A) (n i : nat) (d : A) :
  (i < n)%nat -> nth i (map f (seq 0 n)) d = f i.
Proof.
  intros Hi. rewrite (nth_indep _ d (f 0%nat)) by (rewrite length_map, length_seq; exact Hi).
  rewrite (map_nth f (seq 0 n) 0%nat), seq_nth by exact Hi. reflexivity.
Qed.

Lemma map_nth_seq (l : list R) :
  map (fun i => nth i l 0) (seq 0 (length l)) = l.
Proof.
  apply nth_ext with (d := 0) (d' := 0).
  - now rewrite length_map, length_seq.
  - intros i Hi. rewrite length_map, length_seq in Hi.
    rewrite (nth_map_seq (fun k => nth k l 0)) by exact Hi. reflexivity.
Qed.

Lemma STFTProcessor_primed : primed STFTProcessor (repeat 0 HOP_SIZE).
Proof.
  unfold STFTProcessor, reset, primed. cbn [window_ stftBuffer_ overlapBuffer_].
  repeat split.
  - intros i Hi. apply initWindow_spec. exact Hi.
  - intros i Hi. rewrite nth_repeat. unfold memset0.
    unfold FFT_SIZE, HOP_SIZE in *. range_cases; reflexivity.
  - intros i Hi. rewrite nth_repeat. unfold memset0.
    unfold FFT_SIZE, HOP_SIZE in *. range_cases; ring.
  - intros i Hi. unfold memset0.
    unfold FFT_SIZE, HOP_SIZE in *. range_cases; reflexivity.
Qed.

(** The loop that completes the spectrum by conjugate symmetry. *)
Lemma mirror_spec (G : array complex) (m p : nat) :
  (m <= NUM_BINS - 1 - 1)%nat ->
  fold_left (fun buf i => upd buf (FFT_SIZE - i) (conj (buf i))) (seq 1 m) G p
  = if ((FFT_SIZE - m <=? p) && (p <? FFT_SIZE))%nat
    then conj (G (FFT_SIZE - p)%nat) else G p.
Proof.
  unfold NUM_BINS, FFT_SIZE. revert p. induction m as [|m IH]; intros p Hm.
  - cbn [seq fold_left]. range_cases; reflexivity.
  - rewrite seq_S, fold_left_app. cbn [fold_left].
    destruct (Nat.eq_dec p (512 - (1 + m))) as [->|Hne].
    + rewrite upd_same, IH by lia. range_cases.
      replace (512 - (512 - (1 + m)))%nat with (1 + m)%nat by lia.
      reflexivity.
    + rewrite upd_other, IH by (try exact Hne; lia).
      range_cases; reflexivity.
Qed.

(** [computeSTFT] slides the buffer and returns the first [NUM_BINS]
    Fourier sums of the windowed buffer. *)
Lemma computeSTFT_spec (st : t) (audioChunk : list R) :
  exists (buf : array R) (F : array complex),
    computeSTFT st audioChunk
    = (map (fun i => re (F i)) (seq 0 NUM_BINS),
       map (fun i => im (F i)) (seq 0 NUM_BINS),
       {| window_ := window_ st;
          stftBuffer_ := buf;
          overlapBuffer_ := overlapBuffer_ st;
          fftBuffer_ := F |})
    /\ (forall i, (i < HOP_SIZE)%nat ->
          buf i = stftBuffer_ st (HOP_SIZE + i)%nat)
    /\ (forall i, (i < HOP_SIZE)%nat ->
          buf (HOP_SIZE + i)%nat = nth i audioChunk 0)
    /\ (forall k, (k < FFT_SIZE)%nat ->
          F k = dft false (fun i => mkC (buf i * window_ st i) 0) FFT_SIZE k).
Proof.
  set (buf := memcpy (memmove (stftBuffer_ st) HOP_SIZE (FFT_SIZE - HOP_SIZE))
                (FFT_SIZE - HOP_SIZE) audioChunk HOP_SIZE).
  set (xw := for_ FFT_SIZE
               (fun i fftBuffer =>
                  upd fftBuffer i (mkC (buf i * window_ st i) 0))
               (fftBuffer_ st)).
  exists buf, (fft xw FFT_SIZE false).
  split; [reflexivity|]. split; [|split].
  - intros i Hi. unfold buf, memcpy, memmove.
    unfold FFT_SIZE, HOP_SIZE in *. range_cases. f_equal. lia.
  - intros i Hi. unfold buf, memcpy, memmove.
    unfold FFT_SIZE, HOP_SIZE in *. range_cases. f_equal. lia.
  - intros k Hk.
    pose proof (fft_spec 9 xw false k Hk) as HF.
    change (2 ^ 9)%nat with FFT_SIZE in HF. rewrite HF.
    unfold dft. apply csum_ext. intros j Hj. f_equal.
    unfold xw.
    etransitivity;
      [exact (for_upd FFT_SIZE (fun i _ => mkC (buf i * window_ st i) 0)
                (fftBuffer_ st) j)|].
    range_cases; reflexivity.
Qed.

(** [reconstructAudio], given the first [NUM_BINS] Fourier sums of a real
    frame [x], adds the windowed frame into the overlap buffer, emits the
    lower half and keeps the upper half for the next call. *)
Lemma reconstructAudio_spec (st : t) (realIn imagIn : list R)
    (x : array complex) :
  (forall k, (k < NUM_BINS)%nat ->
     mkC (nth k realIn 0) (nth k imagIn 0) = dft false x FFT_SIZE k) ->
  (forall j, (j < FFT_SIZE)%nat -> im (x j) = 0) ->
  fst (reconstructAudio st realIn imagIn)
  = map (fun i => overlapBuffer_ st i + re (x i) * window_ st i)
      (seq 0 HOP_SIZE)
  /\ window_ (snd (reconstructAudio st realIn imagIn)) = window_ st
  /\ stftBuffer_ (snd (reconstructAudio st realIn imagIn)) = stftBuffer_ st
  /\ (forall i, (i < HOP_SIZE)%nat ->
        overlapBuffer_ (snd (reconstructAudio st realIn imagIn)) i
        = overlapBuffer_ st (i + HOP_SIZE)%nat
          + re (x (i + HOP_SIZE)%nat) * window_ st (i + HOP_SIZE)%nat)
  /\ (forall i, (HOP_SIZE <= i < FFT_SIZE)%nat ->
        overlapBuffer_ (snd (reconstructAudio st realIn imagIn)) i = 0).
Proof.
  intros Hbins Hreal.
  unfold reconstructAudio.
  set (G0 := for_ NUM_BINS
               (fun i fftBuffer =>
                  upd fftBuffer i (mkC (nth i realIn 0) (nth i imagIn 0)))
               (fftBuffer_ st)).
  set (G1 := fold_left
               (fun fftBuffer i =>
                  upd fftBuffer (FFT_SIZE - i) (conj (fftBuffer i)))
               (seq 1 (NUM_BINS - 1 - 1)) G0).
  set (Y := fft G1 FFT_SIZE true).
  set (ov := for_ FFT_SIZE
               (fun i overlapBuffer =>
                  upd overlapBuffer i
                    (overlapBuffer i + re (Y i) * window_ st i))
               (overlapBuffer_ st)).
  cbv zeta. cbn [fst snd window_ stftBuffer_ overlapBuffer_].
  assert (HG0 : forall k, (k < NUM_BINS)%nat -> G0 k = dft false x FFT_SIZE k).
  { intros k Hk. unfold G0.
    etransitivity;
      [exact (for_upd NUM_BINS
                (fun i _ => mkC (nth i realIn 0) (nth i imagIn 0))
                (fftBuffer_ st) k)|].
    range_cases. apply Hbins. exact Hk. }
  assert (HG1 : forall k, (k < FFT_SIZE)%nat -> G1 k = dft false x FFT_SIZE k).
  { intros k Hk. unfold G1. rewrite mirror_spec by lia.
    destruct (Nat.leb_spec (FFT_SIZE - (NUM_BINS - 1 - 1)) k) as [Hge|Hlt].
    - replace (k <? FFT_SIZE)%nat with true
        by (symmetry; apply Nat.ltb_lt; exact Hk).
      cbn [andb].
      rewrite HG0 by (unfold FFT_SIZE, NUM_BINS in *; lia).
      rewrite <- dft_hermitian.
      + f_equal. unfold FFT_SIZE, NUM_BINS in *. lia.
      + exact Hreal.
      + unfold FFT_SIZE, NUM_BINS in *. lia.
    - cbn [andb]. apply HG0. unfold FFT_SIZE, NUM_BINS in *. lia. }
  assert (HY : forall j, (j < FFT_SIZE)%nat -> Y j = x j).
  { intros j Hj. unfold Y.
    pose proof (fft_spec 9 G1 true j Hj) as HF.
    change (2 ^ 9)%nat with FFT_SIZE in HF. rewrite HF.
    apply dft_inverse; assumption. }
  assert (Hov : forall i, (i < FFT_SIZE)%nat ->
            ov i = overlapBuffer_ st i + re (x i) * window_ st i).
  { intros i Hi. unfold ov.
    etransitivity;
      [exact (for_upd FFT_SIZE (fun i o => o + re (Y i) * window_ st i)
                (overlapBuffer_ st) i)|].
    range_cases. rewrite HY by exact Hi. reflexivity. }
  split; [|split; [reflexivity|split; [reflexivity|split]]].
  - apply map_ext_in. intros i Hi. apply in_seq in Hi.
    apply Hov. unfold FFT_SIZE, HOP_SIZE in *. lia.
  - intros i Hi. unfold memmove.
    destruct (Nat.leb_spec (FFT_SIZE - HOP_SIZE) i) as [H|H];
      [unfold FFT_SIZE, HOP_SIZE in *; lia|].
    cbn [andb].
    destruct (Nat.ltb_spec i (FFT_SIZE - HOP_SIZE)) as [H'|H'];
      [|unfold FFT_SIZE, HOP_SIZE in *; lia].
    apply Hov. unfold FFT_SIZE, HOP_SIZE in *. lia.
  - intros i Hi.
    destruct (Nat.leb_spec (FFT_SIZE - HOP_SIZE) i) as [H|H];
      [|unfold FFT_SIZE, HOP_SIZE in *; lia].
    destruct (Nat.ltb_spec i FFT_SIZE) as [H'|H'];
      [|unfold FFT_SIZE, HOP_SIZE in *; lia].
    reflexivity.
Qed.

(** One chunk through analysis and synthesis: the chunk fed before comes
    out, and the engine is ready for the next one. *)
Lemma roundTrip_spec (st : t) (prev chunk : list R) :
  primed st prev ->
  fst (roundTrip st chunk) = map (fun i => nth i prev 0) (seq 0 HOP_SIZE)
  /\ primed (snd (roundTrip st chunk)) chunk.
Proof.
  intros (Hw & Hs & Ho & Hz).
  destruct (computeSTFT_spec st chunk) as (buf & F & Hc & Hlo & Hhi & HF).
  unfold roundTrip. rewrite Hc.
  set (st1 := {| window_ := window_ st;
                 stftBuffer_ := buf;
                 overlapBuffer_ := overlapBuffer_ st;
                 fftBuffer_ := F |}).
  set (x := fun i => mkC (buf i * window_ st i) 0).
  destruct (reconstructAudio_spec st1
              (map (fun i => re (F i)) (seq 0 NUM_BINS))
              (map (fun i => im (F i)) (seq 0 NUM_BINS)) x)
    as (Hout & Hwin & Hbuf & Hov & Hzero).
  { intros k Hk.
    rewrite (nth_map_seq (fun i => re (F i))) by exact Hk.
    rewrite (nth_map_seq (fun i => im (F i))) by exact Hk.
    unfold x. rewrite <- (HF k) by (unfold FFT_SIZE, NUM_BINS in *; lia).
    destruct (F k); reflexivity. }
  { intros j _. reflexivity. }
  split.
  - rewrite Hout. apply map_ext_in. intros i Hi. apply in_seq in Hi.
    cbn [overlapBuffer_ window_ st1 x re].
    rewrite Ho, Hlo, Hs, Hw by (unfold FFT_SIZE, HOP_SIZE in *; lia).
    rewrite Rmult_assoc, sqrt_hann_square.
    pose proof (hann_overlap i). nra.
  - unfold primed. rewrite Hwin, Hbuf. cbn [window_ stftBuffer_ st1].
    repeat split.
    + exact Hw.
    + exact Hhi.
    + intros i Hi. rewrite Hov by exact Hi.
      cbn [overlapBuffer_ window_ st1 x re].
      rewrite Hz, Hw by (unfold FFT_SIZE, HOP_SIZE in *; lia).
      rewrite (Nat.add_comm i HOP_SIZE), Hhi by exact Hi.
      rewrite Rmult_assoc, sqrt_hann_square. ring.
    + exact Hzero.
Qed.

Lemma stream_cons (st : t) (chunk : list R) (rest : list (list R)) :
  stream st (chunk :: rest)
  = fst (roundTrip st chunk) :: stream (snd (roundTrip st chunk)) rest.
Proof.
  cbn [stream]. destruct (roundTrip st chunk) as [audioOut st'].
  reflexivity.
Qed.

(** A primed engine answers a stream of chunks with the same stream, one
    chunk late. *)
Lemma stream_spec (chunks : list (list R)) :
  forall (st : t) (prev : list R),
    primed st prev -> length prev = HOP_SIZE ->
    Forall (fun chunk => length chunk = HOP_SIZE) chunks ->
    stream st chunks = firstn (length chunks) (prev :: chunks).
Proof.
  induction chunks as [|chunk rest IH]; intros st prev Hst Hprev Hlen.
  - reflexivity.
  - inversion Hlen as [|? ? Hc Hr]; subst.
    destruct (roundTrip_spec st prev chunk Hst) as [Hout Hst'].
    rewrite stream_cons, Hout. cbn [length firstn]. f_equal.
    + rewrite <- Hprev. apply map_nth_seq.
    + apply IH; assumption.
Qed.

Lemma nth_firstn_lt {A : Type} (l : list A) (n k : nat) (d : A) :
  (k < n)%nat -> nth k (firstn n l) d = nth k l d.
Proof.
  revert n k. induction l as [|a l IH]; intros n k Hk.
  - rewrite firstn_nil. reflexivity.
  - destruct n as [|n]; [lia|]. destruct k as [|k]; [reflexivity|].
    cbn [firstn nth]. apply IH. lia.
Qed.

(** C1: with the square-root-Hann window, whose square sums to one at 50%
    overlap, feeding 256-sample chunks in order through [computeSTFT] and
    passing the 257 bins unchanged to [reconstructAudio] returns the input
    one hop late: each reconstructed chunk after the first equals the
    input chunk before it, and the first one is zero. *)
Theorem stft_round_trip (chunks : list (list R)) :
  Forall (fun chunk => length chunk = HOP_SIZE) chunks ->
  (forall i, (i < HOP_SIZE)%nat ->
     window_ STFTProcessor i * window_ STFTProcessor i
     + window_ STFTProcessor (i + HOP_SIZE)%nat
       * window_ STFTProcessor (i + HOP_SIZE)%nat = 1)
  /\ length (stream STFTProcessor chunks) = length chunks
  /\ (forall k, (1 <= k < length chunks)%nat ->
        nth k (stream STFTProcessor chunks) [] = nth (k - 1) chunks [])
  /\ (chunks <> [] ->
        nth 0 (stream STFTProcessor chunks) [] = repeat 0 HOP_SIZE).
Proof.
  intros Hlen.
  pose proof STFTProcessor_primed as Hp.
  rewrite (stream_spec chunks STFTProcessor (repeat 0 HOP_SIZE) Hp
             (repeat_length _ _) Hlen).
  split; [|split; [|split]].
  - intros i Hi. destruct Hp as (Hw & _).
    rewrite !Hw by (unfold FFT_SIZE, HOP_SIZE in *; lia).
    rewrite !sqrt_hann_square. apply hann_overlap.
  - rewrite length_firstn. cbn [length]. lia.
  - intros k Hk. rewrite nth_firstn_lt by lia.
    destruct k as [|k]; [lia|]. cbn [nth]. f_equal. lia.
  - intros Hne. destruct chunks as [|c rest]; [contradiction|]. reflexivity.
Qed.

Lemma stft_round_trip_witness :
  Forall (fun chunk => length chunk = HOP_SIZE)
    [repeat 1 HOP_SIZE; repeat (-1) HOP_SIZE; repeat 0.5 HOP_SIZE]
  /\ nth 1 (stream STFTProcessor
              [repeat 1 HOP_SIZE; repeat (-1) HOP_SIZE; repeat 0.5 HOP_SIZE])
         []
     = repeat 1 HOP_SIZE
  /\ nth 2 (stream STFTProcessor
              [repeat 1 HOP_SIZE; repeat (-1) HOP_SIZE; repeat 0.5 HOP_SIZE])
         []
     = repeat (-1) HOP_SIZE.
Proof.
  assert (H : Forall (fun chunk => length chunk = HOP_SIZE)
                [repeat 1 HOP_SIZE; repeat (-1) HOP_SIZE;
                 repeat 0.5 HOP_SIZE]).
  { repeat constructor; apply repeat_length. }
  split; [exact H|].
  destruct (stft_round_trip _ H) as (_ & _ & Hk & _).
  split; apply Hk; cbn [length]; lia.
Defined.

End OverlapAdd.

(** * Further properties of the code *)

(** ** The transform and the engine *)

Section FourierExtras.

Import STFT.

Lemma dft_forward_formula (x : array complex) (n k : nat) :
  (0 < n)%nat ->
  dft false x n k
  = csum (fun j => (x j * cis (- (2 * PI * INR (j * k) / INR n)))%C) n.
Proof.
  intros Hn. assert (0 < INR n) by (apply lt_0_INR; exact Hn).
  unfold dft. apply csum_ext. intros j _. f_equal. f_equal.
  unfold angle. field. lra.
Qed.

Lemma dft_inverse_formula (x : array complex) (n k : nat) :
  (0 < n)%nat ->
  dft true x n k
  = csum (fun j => (x j * cis (2 * PI * INR (j * k) / INR n))%C) n.
Proof.
  intros Hn. assert (0 < INR n) by (apply lt_0_INR; exact Hn).
  unfold dft. apply csum_ext. intros j _. f_equal. f_equal.
  unfold angle. field. lra.
Qed.

(** X1: on an array of [2^s] cells [fft] computes the discrete Fourier
    sums: bin [k] of the forward transform is the sum of
    [x j * exp (-2 pi i j k / n)], and bin [k] of the inverse transform is
    the sum of [x j * exp (2 pi i j k / n)] divided by [n]. *)
Theorem fft_computes_fourier_sums (s : nat) (x : array complex) (k : nat) :
  (k < 2 ^ s)%nat ->
  fft x (2 ^ s) false k
  = csum (fun j => (x j * cis (- (2 * PI * INR (j * k) / INR (2 ^ s))))%C)
      (2 ^ s)
  /\ fft x (2 ^ s) true k
     = Cdivr
         (csum (fun j => (x j * cis (2 * PI * INR (j * k) / INR (2 ^ s)))%C)
            (2 ^ s))
         (INR (2 ^ s)).
Proof.
  intros Hk. split.
  - rewrite (fft_spec s x false k Hk). apply dft_forward_formula, pow2_pos.
  - rewrite (fft_spec s x true k Hk). f_equal.
    apply dft_inverse_formula, pow2_pos.
Qed.

Lemma fft_computes_fourier_sums_witness :
  (0 < 2 ^ 2)%nat
  /\ fft (fun j => mkC (INR j) 0) (2 ^ 2) false 0%nat
     = csum (fun j => (mkC (INR j) 0
                       * cis (- (2 * PI * INR (j * 0) / INR (2 ^ 2))))%C)
         (2 ^ 2).
Proof.
  assert (H : (0 < 2 ^ 2)%nat) by (simpl; lia).
  split; [exact H|].
  exact (proj1 (fft_computes_fourier_sums 2 (fun j => mkC (INR j) 0) 0%nat H)).
Defined.

(** X2: on an array of [2^s] cells [bitReverse] moves to each position the
    cell whose index is the position with its [s] bits reversed; the
    reversed index stays in range, and applying [bitReverse] twice gives
    the cells back. *)
Theorem bitReverse_involutive (s : nat) (data : array complex) (p : nat) :
  (p < 2 ^ s)%nat ->
  bitReverse data (2 ^ s) p = data (reverse s p)
  /\ (reverse s p < 2 ^ s)%nat
  /\ reverse s (reverse s p) = p
  /\ bitReverse (bitReverse data (2 ^ s)) (2 ^ s) p = data p.
Proof.
  intros Hp. pose proof (reverse_lt s p) as Hr.
  split; [apply bitReverse_spec; exact Hp|].
  split; [exact Hr|].
  split; [apply reverse_involutive; exact Hp|].
  rewrite bitReverse_spec by exact Hp.
  rewrite bitReverse_spec by exact Hr.
  rewrite reverse_involutive by exact Hp. reflexivity.
Qed.

Lemma bitReverse_involutive_witness :
  (1 < 2 ^ 3)%nat
  /\ bitReverse (fun j => mkC (INR j) 0) (2 ^ 3) 1%nat
     = mkC (INR (reverse 3 1)) 0
  /\ reverse 3 1 = 4%nat.
Proof.
  assert (H : (1 < 2 ^ 3)%nat) by (simpl; lia).
  split; [exact H|].
  split; [exact (proj1 (bitReverse_involutive 3 (fun j => mkC (INR j) 0) 1%nat H))|].
  reflexivity.
Defined.

(** X3: the inverse transform undoes the forward transform: on an array of
    [2^s] cells, [fft] with [inverse = true] applied to the result of [fft]
    with [inverse = false] gives the cells back. *)
Theorem fft_inverse_of_forward (s : nat) (x : array complex) (k : nat) :
  (k < 2 ^ s)%nat ->
  fft (fft x (2 ^ s) false) (2 ^ s) true k = x k.
Proof.
  intros Hk. rewrite (fft_spec s _ true k Hk).
  apply dft_inverse; [exact Hk|].
  intros j Hj. apply (fft_spec s x false j Hj).
Qed.

Lemma fft_inverse_of_forward_witness :
  (3 < 2 ^ 2)%nat
  /\ fft (fft (fun j => mkC (INR j) 1) (2 ^ 2) false) (2 ^ 2) true 3%nat
     = mkC (INR 3) 1.
Proof.
  assert (H : (3 < 2 ^ 2)%nat) by (simpl; lia).
  split; [exact H|].
  exact (fft_inverse_of_forward 2 (fun j => mkC (INR j) 1) 3%nat H).
Defined.

End FourierExtras.

Section EngineExtras.

Import STFT.

Lemma csum_im_zero (f : nat -> complex) (n : nat) :
  (forall j, (j < n)%nat -> im (f j) = 0) -> im (csum f n) = 0.
Proof.
  induction n as [|n IH]; intros H; cbn [csum].
  - reflexivity.
  - cbn [Cadd im]. rewrite IH, H by (intros; try apply H; lia). lra.
Qed.

Lemma dft_real_dc (x : array complex) (n : nat) :
  (forall j, (j < n)%nat -> im (x j) = 0) -> im (dft false x n 0) = 0.
Proof.
  intros Hx. unfold dft. apply csum_im_zero. intros j Hj.
  rewrite Nat.mul_0_r. simpl (INR 0). rewrite Rmult_0_r, cis_0.
  cbn [Cmul im C1 re]. rewrite Hx by exact Hj. ring.
Qed.

Lemma dft_real_nyquist (x : array complex) (h : nat) :
  (0 < h)%nat ->
  (forall j, (j < 2 * h)%nat -> im (x j) = 0) ->
  im (dft false x (2 * h) h) = 0.
Proof.
  intros Hh Hx. unfold dft. apply csum_im_zero. intros j Hj.
  rewrite (Nat.mul_comm j h), cis_half_turn by exact Hh.
  destruct (Nat.even j); cbn [Cmul Copp im C1 re];
    rewrite Hx by exact Hj; ring.
Qed.

(** X4: [computeSTFT] slides the buffer by one hop and returns 257 real and
    257 imaginary parts: bin [k] is the Fourier sum of the windowed buffer,
    which holds the upper half of the previous buffer followed by the new
    chunk.  The imaginary parts of bin 0 and of bin 256 are zero.  The
    window and the overlap buffer are not touched. *)
Theorem computeSTFT_bins (st : t) (audioChunk : list R) (k : nat) :
  (k < NUM_BINS)%nat ->
  let frame := fun i =>
    if (i <? HOP_SIZE)%nat then stftBuffer_ st (i + HOP_SIZE)%nat
    else nth (i - HOP_SIZE) audioChunk 0 in
  let '(realOut, imagOut, st') := computeSTFT st audioChunk in
  length realOut = NUM_BINS
  /\ length imagOut = NUM_BINS
  /\ mkC (nth k realOut 0) (nth k imagOut 0)
     = csum (fun j => (mkC (frame j * window_ st j) 0
                       * cis (- (2 * PI * INR (j * k) / INR FFT_SIZE)))%C)
         FFT_SIZE
  /\ nth 0 imagOut 0 = 0
  /\ nth (NUM_BINS - 1) imagOut 0 = 0
  /\ (forall i, (i < FFT_SIZE)%nat -> stftBuffer_ st' i = frame i)
  /\ window_ st' = window_ st
  /\ overlapBuffer_ st' = overlapBuffer_ st.
Proof.
  intros Hk frame.
  destruct (computeSTFT_spec st audioChunk) as (buf & F & Hc & Hlo & Hhi & HF).
  rewrite Hc.
  assert (Hbuf : forall i, (i < FFT_SIZE)%nat -> buf i = frame i).
  { intros i Hi. unfold frame.
    destruct (Nat.ltb_spec i HOP_SIZE) as [H|H].
    - rewrite Hlo by exact H. f_equal. lia.
    - replace i with (HOP_SIZE + (i - HOP_SIZE))%nat at 1 by lia.
      apply Hhi. unfold FFT_SIZE, HOP_SIZE in *. lia. }
  assert (Hreal : forall j, (j < FFT_SIZE)%nat ->
            im ((fun i => mkC (buf i * window_ st i) 0) j) = 0)
    by (intros; reflexivity).
  split; [now rewrite length_map, length_seq|].
  split; [now rewrite length_map, length_seq|].
  split.
  { rewrite (nth_map_seq (fun i => re (F i))) by exact Hk.
    rewrite (nth_map_seq (fun i => im (F i))) by exact Hk.
    replace (mkC (re (F k)) (im (F k))) with (F k) by (destruct (F k); reflexivity).
    rewrite HF by (unfold FFT_SIZE, NUM_BINS in *; lia).
    rewrite dft_forward_formula by (unfold FFT_SIZE; lia).
    apply csum_ext. intros j Hj. rewrite Hbuf by exact Hj. reflexivity. }
  split.
  { rewrite (nth_map_seq (fun i => im (F i))) by (unfold NUM_BINS; lia).
    rewrite HF by (unfold FFT_SIZE; lia). apply dft_real_dc. exact Hreal. }
  split.
  { rewrite (nth_map_seq (fun i => im (F i))) by (unfold NUM_BINS; lia).
    rewrite HF by (unfold FFT_SIZE, NUM_BINS; lia).
    change FFT_SIZE with (2 * 256)%nat. change (NUM_BINS - 1)%nat with 256%nat.
    apply dft_real_nyquist; [lia|]. exact Hreal. }
  cbn [stftBuffer_ window_ overlapBuffer_].
  split; [exact Hbuf|]. split; reflexivity.
Qed.

Lemma computeSTFT_bins_witness :
  (3 < NUM_BINS)%nat
  /\ length (fst (fst (computeSTFT STFTProcessor (repeat 1 HOP_SIZE))))
     = NUM_BINS
  /\ nth 0 (snd (fst (computeSTFT STFTProcessor (repeat 1 HOP_SIZE)))) 0 = 0.
Proof.
  assert (H : (3 < NUM_BINS)%nat) by (unfold NUM_BINS; lia).
  split; [exact H|].
  pose proof (computeSTFT_bins STFTProcessor (repeat 1 HOP_SIZE) 3 H) as P.
  cbv zeta in P.
  destruct (computeSTFT STFTProcessor (repeat 1 HOP_SIZE))
    as [[realOut imagOut] st'].
  destruct P as (H1 & _ & _ & H4 & _).
  split; [exact H1 | exact H4].
Defined.

(** X5: given the first 257 Fourier sums of any real frame [x] of 512
    samples, [reconstructAudio] recovers the frame from them alone
    (whatever the work buffer held), adds the windowed frame into the
    overlap buffer, returns the lower half of the sum and keeps the upper
    half, zero-extended, for the next call. *)
Theorem reconstructAudio_overlap_add (st : t) (realIn imagIn : list R)
    (x : array complex) :
  (forall k, (k < NUM_BINS)%nat ->
     mkC (nth k realIn 0) (nth k imagIn 0)
     = csum (fun j => (x j * cis (- (2 * PI * INR (j * k) / INR FFT_SIZE)))%C)
         FFT_SIZE) ->
  (forall j, (j < FFT_SIZE)%nat -> im (x j) = 0) ->
  let '(audioOut, st') := reconstructAudio st realIn imagIn in
  audioOut
  = map (fun i => overlapBuffer_ st i + re (x i) * window_ st i)
      (seq 0 HOP_SIZE)
  /\ (forall i, (i < HOP_SIZE)%nat ->
        overlapBuffer_ st' i
        = overlapBuffer_ st (i + HOP_SIZE)%nat
          + re (x (i + HOP_SIZE)%nat) * window_ st (i + HOP_SIZE)%nat)
  /\ (forall i, (HOP_SIZE <= i < FFT_SIZE)%nat -> overlapBuffer_ st' i = 0)
  /\ window_ st' = window_ st
  /\ stftBuffer_ st' = stftBuffer_ st.
Proof.
  intros Hbins Hreal.
  destruct (reconstructAudio_spec st realIn imagIn x)
    as (Hout & Hwin & Hbuf & Hov & Hzero).
  { intros k Hk. rewrite Hbins by exact Hk.
    symmetry. apply dft_forward_formula. unfold FFT_SIZE. lia. }
  { exact Hreal. }
  destruct (reconstructAudio st realIn imagIn) as [audioOut st'].
  cbn [fst snd] in *. repeat split; assumption.
Qed.

Lemma reconstructAudio_overlap_add_witness :
  (forall k, (k < NUM_BINS)%nat ->
     mkC (nth k (repeat 0 NUM_BINS) 0) (nth k (repeat 0 NUM_BINS) 0)
     = csum (fun j => ((fun _ => C0) j
                       * cis (- (2 * PI * INR (j * k) / INR FFT_SIZE)))%C)
         FFT_SIZE)
  /\ fst (reconstructAudio STFTProcessor (repeat 0 NUM_BINS)
            (repeat 0 NUM_BINS))
     = map (fun i => overlapBuffer_ STFTProcessor i
                     + re C0 * window_ STFTProcessor i)
         (seq 0 HOP_SIZE).
Proof.
  assert (H1 : forall k, (k < NUM_BINS)%nat ->
     mkC (nth k (repeat 0 NUM_BINS) 0) (nth k (repeat 0 NUM_BINS) 0)
     = csum (fun j => ((fun _ => C0) j
                       * cis (- (2 * PI * INR (j * k) / INR FFT_SIZE)))%C)
         FFT_SIZE).
  { intros k _. rewrite nth_repeat.
    rewrite (csum_ext _ (fun _ => C0)) by (intros; ring).
    rewrite csum_zero. reflexivity. }
  assert (H2 : forall j, (j < FFT_SIZE)%nat -> im ((fun _ => C0) j) = 0)
    by (intros; reflexivity).
  split; [exact H1|].
  pose proof (reconstructAudio_overlap_add STFTProcessor (repeat 0 NUM_BINS)
                (repeat 0 NUM_BINS) (fun _ => C0) H1 H2) as P.
  destruct (reconstructAudio STFTProcessor (repeat 0 NUM_BINS)
              (repeat 0 NUM_BINS)) as [audioOut st'].
  exact (proj1 P).
Defined.

Lemma reachable_window (st : t) :
  reachable st ->
  forall i, (i < FFT_SIZE)%nat -> window_ st i = sqrt (hann i).
Proof.
  induction 1 as [|st chunk _ IH|st realIn imagIn _ IH|st _ IH]; intros i Hi.
  - apply STFTProcessor_primed. exact Hi.
  - destruct (computeSTFT_spec st chunk) as (buf & F & Hc & _).
    rewrite Hc. cbn [snd window_]. apply IH. exact Hi.
  - unfold reconstructAudio. cbn [snd window_]. apply IH. exact Hi.
  - cbn [reset window_]. apply IH. exact Hi.
Qed.

Lemma reset_primed (st : t) :
  (forall i, (i < FFT_SIZE)%nat -> window_ st i = sqrt (hann i)) ->
  primed (reset st) (repeat 0 HOP_SIZE).
Proof.
  intros Hw. unfold reset, primed.
  cbn [window_ stftBuffer_ overlapBuffer_].
  repeat split.
  - exact Hw.
  - intros i Hi. rewrite nth_repeat. unfold memset0.
    unfold FFT_SIZE, HOP_SIZE in *. range_cases; reflexivity.
  - intros i Hi. rewrite nth_repeat. unfold memset0.
    unfold FFT_SIZE, HOP_SIZE in *. range_cases; ring.
  - intros i Hi. unfold memset0.
    unfold FFT_SIZE, HOP_SIZE in *. range_cases; reflexivity.
Qed.

(** X6: [reset] makes an engine forget its history: whatever calls an
    engine has seen, after [reset] a stream of 256-sample chunks comes back
    exactly as from a new engine, that is, one hop late behind a chunk of
    zeros. *)
Theorem reset_forgets_history (st : t) (chunks : list (list R)) :
  reachable st ->
  Forall (fun chunk => length chunk = HOP_SIZE) chunks ->
  stream (reset st) chunks = stream STFTProcessor chunks
  /\ stream (reset st) chunks
     = firstn (length chunks) (repeat 0 HOP_SIZE :: chunks).
Proof.
  intros Hreach Hlen.
  assert (E : stream (reset st) chunks
              = firstn (length chunks) (repeat 0 HOP_SIZE :: chunks)).
  { apply stream_spec; [|apply repeat_length|exact Hlen].
    apply reset_primed, reachable_window. exact Hreach. }
  split; [|exact E].
  rewrite E. symmetry.
  apply stream_spec; [apply STFTProcessor_primed|apply repeat_length|exact Hlen].
Qed.

Lemma reset_forgets_history_witness :
  reachable (snd (roundTrip STFTProcessor (repeat 1 HOP_SIZE)))
  /\ Forall (fun chunk => length chunk = HOP_SIZE)
       [repeat 0.5 HOP_SIZE; repeat 0.25 HOP_SIZE]
  /\ stream (reset (snd (roundTrip STFTProcessor (repeat 1 HOP_SIZE))))
       [repeat 0.5 HOP_SIZE; repeat 0.25 HOP_SIZE]
     = [repeat 0 HOP_SIZE; repeat 0.5 HOP_SIZE].
Proof.
  assert (H1 : reachable (snd (roundTrip STFTProcessor (repeat 1 HOP_SIZE)))).
  { unfold roundTrip.
    pose proof (reach_compute STFTProcessor (repeat 1 HOP_SIZE) reach_new)
      as Hc.
    destruct (computeSTFT STFTProcessor (repeat 1 HOP_SIZE))
      as [[realOut imagOut] st1].
    apply reach_reconstruct. exact Hc. }
  assert (H2 : Forall (fun chunk => length chunk = HOP_SIZE)
                 [repeat 0.5 HOP_SIZE; repeat 0.25 HOP_SIZE])
    by (repeat constructor; apply repeat_length).
  split; [exact H1|]. split; [exact H2|].
  exact (proj2 (reset_forgets_history _ _ H1 H2)).
Defined.

End EngineExtras.

(** ** The detector's counters and reset *)

Section VADExtras.

Import VAD.

Lemma isSpeech_counters (v : t) (audio : list R) :
  totalFrames_ (snd (isSpeech v audio)) = (totalFrames_ v + 1)%Z
  /\ activeFrames_ (snd (isSpeech v audio))
     = (activeFrames_ v + if fst (isSpeech v audio) then 1 else 0)%Z
  /\ bypassedFrames_ (snd (isSpeech v audio))
     = (bypassedFrames_ v + if fst (isSpeech v audio) then 0 else 1)%Z
  /\ thresholdDb_ (snd (isSpeech v audio)) = thresholdDb_ v.
Proof.
  unfold isSpeech. destruct (isActive v audio); cbn [fst snd]; cbn.
  - repeat split; lia.
  - destruct (_ <? _)%Z; cbn; repeat split; lia.
Qed.

Lemma count_occ_bool_cons (b : bool) (l : list bool) :
  (Z.of_nat (count_occ bool_dec (b :: l) true)
   = (if b then 1 else 0) + Z.of_nat (count_occ bool_dec l true))%Z
  /\ (Z.of_nat (count_occ bool_dec (b :: l) false)
      = (if b then 0 else 1) + Z.of_nat (count_occ bool_dec l false))%Z.
Proof.
  destruct b; cbn [count_occ];
    repeat match goal with
      | |- context [bool_dec ?a ?b] => destruct (bool_dec a b); try discriminate;
                                       try contradiction
      end; lia.
Qed.

Lemma run_counters (frames : list (list R)) (v : t) :
  totalFrames_ (snd (run v frames))
  = (totalFrames_ v + Z.of_nat (length frames))%Z
  /\ activeFrames_ (snd (run v frames))
     = (activeFrames_ v
        + Z.of_nat (count_occ bool_dec (fst (run v frames)) true))%Z
  /\ bypassedFrames_ (snd (run v frames))
     = (bypassedFrames_ v
        + Z.of_nat (count_occ bool_dec (fst (run v frames)) false))%Z
  /\ thresholdDb_ (snd (run v frames)) = thresholdDb_ v
  /\ length (fst (run v frames)) = length frames.
Proof.
  revert v. induction frames as [|f frames IH]; intros v.
  - cbn. repeat split; lia.
  - rewrite run_cons_snd, run_cons_fst.
    destruct (IH (snd (isSpeech v f))) as (H1 & H2 & H3 & H4 & H5).
    destruct (isSpeech_counters v f) as (I1 & I2 & I3 & I4).
    destruct (count_occ_bool_cons (fst (isSpeech v f))
                (fst (run (snd (isSpeech v f)) frames))) as [C1 C2].
    rewrite H1, H2, H3, H4, I1, I2, I3, I4, C1, C2.
    cbn [length]. rewrite H5. repeat split; lia.
Qed.

(** X7: the detector's counters add up.  Starting from zero counters (a
    new or a reset detector), after any sequence of frames [getStats]
    reports as total the number of calls, as active the number of calls
    that returned true and as bypassed the number that returned false; the
    bypass ratio lies in [0, 1] and is 0, not a division by zero, when no
    frame was seen. *)
Theorem vad_stats_add_up (v0 : t) (frames : list (list R)) :
  totalFrames_ v0 = 0%Z -> activeFrames_ v0 = 0%Z ->
  bypassedFrames_ v0 = 0%Z ->
  let '(verdicts, v) := run v0 frames in
  total (getStats v) = Z.of_nat (length frames)
  /\ active (getStats v) = Z.of_nat (count_occ bool_dec verdicts true)
  /\ bypassed (getStats v) = Z.of_nat (count_occ bool_dec verdicts false)
  /\ total (getStats v) = (active (getStats v) + bypassed (getStats v))%Z
  /\ 0 <= bypassRatio (getStats v) <= 1
  /\ (frames <> [] ->
      bypassRatio (getStats v) * INR (length frames)
      = IZR (bypassed (getStats v)))
  /\ (frames = [] -> bypassRatio (getStats v) = 0).
Proof.
  intros Ht Ha Hb.
  destruct (run_counters frames v0) as (H1 & H2 & H3 & _ & H5).
  destruct (run v0 frames) as [verdicts v]. cbn [fst snd] in *.
  rewrite Ht, Ha, Hb in *. cbn [Z.add] in *.
  assert (Hsum : (Z.of_nat (length frames)
                  = Z.of_nat (count_occ bool_dec verdicts true)
                    + Z.of_nat (count_occ bool_dec verdicts false))%Z).
  { rewrite <- H5. clear. induction verdicts as [|b l IH]; [reflexivity|].
    destruct (count_occ_bool_cons b l) as [-> ->].
    cbn [length]. destruct b; lia. }
  unfold getStats. cbn [total active bypassed bypassRatio].
  rewrite H1, H2, H3.
  split; [reflexivity|]. split; [reflexivity|]. split; [reflexivity|].
  split; [exact Hsum|].
  destruct (Z.ltb_spec 0 (Z.of_nat (length frames))) as [Hpos|Hzero].
  - assert (Hn : 0 < IZR (Z.of_nat (length frames))) by (apply IZR_lt; lia).
    assert (Hbn : 0 <= IZR (Z.of_nat (count_occ bool_dec verdicts false)))
      by (apply IZR_le; lia).
    assert (Hle : IZR (Z.of_nat (count_occ bool_dec verdicts false))
                  <= IZR (Z.of_nat (length frames))) by (apply IZR_le; lia).
    split; [split|split].
    + apply Rmult_le_pos; [exact Hbn|]. left. apply Rinv_0_lt_compat, Hn.
    + apply Rmult_le_reg_r with (IZR (Z.of_nat (length frames))); [exact Hn|].
      unfold Rdiv. rewrite Rmult_assoc, Rinv_l by lra. lra.
    + intros _. rewrite INR_IZR_INZ. field. lra.
    + intros ->. cbn in Hpos. lia.
  - split; [lra|]. split.
    + intros Hne. destruct frames; [contradiction | cbn [length] in Hzero; lia].
    + intros _. reflexivity.
Qed.

Lemma vad_stats_add_up_witness :
  totalFrames_ vad0 = 0%Z /\ activeFrames_ vad0 = 0%Z
  /\ bypassedFrames_ vad0 = 0%Z
  /\ total (getStats (snd (run vad0 [loud; silence 480; loud])))
     = 3%Z
  /\ 0 <= bypassRatio (getStats (snd (run vad0 [loud; silence 480; loud])))
     <= 1.
Proof.
  assert (H1 : totalFrames_ vad0 = 0%Z) by reflexivity.
  assert (H2 : activeFrames_ vad0 = 0%Z) by reflexivity.
  assert (H3 : bypassedFrames_ vad0 = 0%Z) by reflexivity.
  split; [exact H1|]. split; [exact H2|]. split; [exact H3|].
  pose proof (vad_stats_add_up vad0 [loud; silence 480; loud] H1 H2 H3) as P.
  destruct (run vad0 [loud; silence 480; loud]) as [verdicts v].
  destruct P as (P1 & _ & _ & _ & P5 & _).
  split; [exact P1 | exact P5].
Defined.

(** X8: [reset] brings a detector back to the state its constructor made,
    whatever frames it has seen since: the thresholds and the hold length
    are kept, the counters are zero and the hold is disarmed. *)
Theorem vad_reset_restores (thresholdDb hangTimeMs : R) (sampleRate : Z)
    (v0 : t) (frames : list (list R)) :
  VoiceActivityDetector thresholdDb hangTimeMs sampleRate = Some v0 ->
  reset (snd (run v0 frames)) = v0.
Proof.
  intros Hv0.
  destruct (run_counters frames v0) as (_ & _ & _ & Hdb & _).
  pose proof (run_hangFrames frames v0) as Hh.
  pose proof (run_thresholdLinear frames v0) as Ht.
  unfold reset. rewrite Hdb, Hh, Ht.
  unfold VoiceActivityDetector in Hv0.
  destruct (static_cast_int _) as [hang|]; [|discriminate].
  injection Hv0 as <-. reflexivity.
Qed.

Lemma vad_reset_restores_witness :
  VoiceActivityDetector (-40) 300 48000 = Some vad0
  /\ reset (snd (run vad0 [loud; silence 480])) = vad0.
Proof.
  split; [exact vad0_constructed|].
  exact (vad_reset_restores (-40) 300 48000 vad0 [loud; silence 480]
           vad0_constructed).
Defined.

End VADExtras.

(** ** The resampler's invariant and its output samples *)

Section ResamplerExtras.

Import Resampler.

(** What a normally returning call with differing rates has done. *)
Lemma process_inversion (st st' : t) (input output : list R) (n : Z) :
  resampler_wf st ->
  inputSampleRate_ st <> outputSampleRate_ st ->
  (Z.of_nat (length (accumulator_ st ++ input)) <= INT_MAX)%Z ->
  process st input n = Ok (output, st') ->
  (1 <= Z.of_nat (length (accumulator_ st ++ input)))%Z
  /\ ((output = []
       /\ st' = {| inputSampleRate_ := inputSampleRate_ st;
                   outputSampleRate_ := outputSampleRate_ st;
                   ratio_ := ratio_ st;
                   phase_ := phase_ st;
                   accumulator_ := accumulator_ st ++ input |})
      \/ ((0 <= n)%Z
          /\ IZR n / ratio_ st
             <= IZR (Z.of_nat (length (accumulator_ st ++ input)) - 1)
          /\ output
             = map (interpolated st (accumulator_ st ++ input)) (indices n)
          /\ st' = {| inputSampleRate_ := inputSampleRate_ st;
                      outputSampleRate_ := outputSampleRate_ st;
                      ratio_ := ratio_ st;
                      phase_ := next_phase st n;
                      accumulator_ :=
                        skipn (Z.to_nat (Int_part (IZR n / ratio_ st)))
                          (accumulator_ st ++ input) |})).
Proof.
  intros (Hi & Ho & Hratio & Hp) Hrate Hlen Hproc.
  destruct (ratio_lower_bound _ _ Hi Ho) as [Hr _]. rewrite <- Hratio in Hr.
  destruct (accumulator_ st ++ input) as [|s rest] eqn:Eacc.
  { apply app_eq_nil in Eacc as [Ea ->].
    rewrite process_empty_undefined in Hproc by assumption.
    discriminate. }
  rewrite <- Eacc in *.
  assert (Hlen1 : (1 <= Z.of_nat (length (accumulator_ st ++ input)))%Z)
    by (rewrite Eacc; simpl length; lia).
  split; [exact Hlen1|].
  destruct (static_cast_int
              (IZR (Z.of_nat (length (accumulator_ st ++ input)) - 1)
               * ratio_ st)) as [a|] eqn:Ea.
  2:{ unfold process in Hproc.
      replace (inputSampleRate_ st =? outputSampleRate_ st)%Z with false
        in Hproc by (symmetry; apply Z.eqb_neq; exact Hrate).
      rewrite size_sub_1, Ea in Hproc by lia. discriminate. }
  destruct (Z.ltb_spec a n) as [Hlt|Hge].
  { rewrite (process_not_ready st input n a) in Hproc; try assumption.
    - injection Hproc as <- <-. left. split; reflexivity.
    - rewrite size_sub_1 by lia. exact Ea. }
  destruct (Z.ltb_spec n 0) as [Hneg|Hn0].
  { unfold process in Hproc.
    replace (inputSampleRate_ st =? outputSampleRate_ st)%Z with false
      in Hproc by (symmetry; apply Z.eqb_neq; exact Hrate).
    rewrite size_sub_1, Ea in Hproc by lia.
    replace (a <? n)%Z with false in Hproc
      by (symmetry; apply Z.ltb_ge; lia).
    replace (n <? 0)%Z with true in Hproc
      by (symmetry; apply Z.ltb_lt; lia).
    discriminate. }
  destruct (process_ready_samples st input n a) as (Hcons & Hok);
    try assumption; try lia.
  rewrite Hok in Hproc. injection Hproc as <- <-.
  right. repeat split; try assumption; reflexivity.
Qed.

Lemma StreamingResampler_wf (inputSr outputSr : Z) :
  (0 < inputSr <= INT_MAX)%Z -> (0 < outputSr)%Z ->
  resampler_wf (StreamingResampler inputSr outputSr).
Proof.
  intros Hi Ho. unfold resampler_wf, StreamingResampler.
  cbn [inputSampleRate_ outputSampleRate_ ratio_ phase_].
  repeat split; try lia; try lra.
Qed.

(** A concrete call that returns: four samples at 48 kHz, one output
    sample at 16 kHz. *)
Lemma sample_call_ok :
  exists output st',
    process (StreamingResampler 48000 16000) [1; 2; 3; 4] 1
    = Ok (output, st').
Proof.
  set (st := StreamingResampler 48000 16000).
  assert (Hcast : static_cast_int
                    (IZR (Z.of_nat (length (accumulator_ st ++ [1; 2; 3; 4]%R))
                          - 1) * ratio_ st) = Some 1%Z).
  { simpl. replace (3 * (16000 / 48000)) with (IZR 1) by (simpl; field).
    apply static_cast_int_IZR. unfold INT_MIN, INT_MAX. lia. }
  destruct (process_ready_samples st [1; 2; 3; 4] 1 1) as (_ & Hok);
    try exact Hcast; try (simpl; lia); try (simpl; lra);
    try (simpl; unfold INT_MAX; lia).
  eexists _, _. exact Hok.
Defined.

(** X9: the resampler keeps its invariant.  From a state with positive
    rates, [ratio_ = outputSr / inputSr] and a phase in [0, 1) (what the
    constructor makes), every call of [process] that returns (any input,
    any [outputSize]) leaves the rates and the ratio as they were and the
    phase in [0, 1); [reset] then gives exactly the state the constructor
    made. *)
Theorem resampler_invariant (st st' : t) (input output : list R) (n : Z) :
  resampler_wf st ->
  process st input n = Ok (output, st') ->
  resampler_wf st'
  /\ inputSampleRate_ st' = inputSampleRate_ st
  /\ outputSampleRate_ st' = outputSampleRate_ st
  /\ ratio_ st' = ratio_ st
  /\ reset st'
     = StreamingResampler (inputSampleRate_ st) (outputSampleRate_ st).
Proof.
  intros (Hi & Ho & Hratio & Hp) Hproc.
  destruct (ratio_lower_bound _ _ Hi Ho) as [Hr _]. rewrite <- Hratio in Hr.
  assert (Hreset : forall ph acc,
            reset {| inputSampleRate_ := inputSampleRate_ st;
                     outputSampleRate_ := outputSampleRate_ st;
                     ratio_ := ratio_ st;
                     phase_ := ph;
                     accumulator_ := acc |}
            = StreamingResampler (inputSampleRate_ st) (outputSampleRate_ st)).
  { intros ph acc. unfold reset, StreamingResampler. cbn. rewrite Hratio.
    reflexivity. }
  unfold process in Hproc.
  destruct (inputSampleRate_ st =? outputSampleRate_ st)%Z.
  { injection Hproc as _ <-. unfold resampler_wf.
    repeat split; try assumption; try tauto.
    destruct st; apply Hreset. }
  destruct (static_cast_int _) as [a|]; [|discriminate].
  destruct (a <? n)%Z.
  { injection Hproc as _ <-. unfold resampler_wf. cbn.
    repeat split; try assumption; try tauto. apply Hreset. }
  destruct (Z.ltb_spec n 0) as [|Hn0]; [discriminate|].
  destruct (traverse _ _); [|discriminate].
  destruct (static_cast_int (IZR n / ratio_ st)) as [rem|] eqn:Erem;
    [|discriminate].
  injection Hproc as _ <-.
  assert (Hcons0 : 0 <= IZR n / ratio_ st).
  { apply Rmult_le_pos; [apply IZR_le; lia|].
    left. apply Rinv_0_lt_compat. exact Hr. }
  destruct (static_cast_int_nonneg_Some _ _ Hcons0 Erem) as (-> & _ & _).
  pose proof (frac_part_range (IZR n / ratio_ st)) as Hf.
  unfold frac_part in Hf.
  unfold resampler_wf. cbn.
  rewrite fmod_1_frac by lra.
  repeat split; try assumption; try tauto; try apply frac_part_range.
  apply Hreset.
Qed.

Lemma resampler_invariant_witness :
  resampler_wf (StreamingResampler 48000 16000)
  /\ exists output st',
       process (StreamingResampler 48000 16000) [1; 2; 3; 4] 1
       = Ok (output, st')
       /\ resampler_wf st'
       /\ reset st' = StreamingResampler 48000 16000.
Proof.
  assert (Hwf : resampler_wf (StreamingResampler 48000 16000))
    by (apply StreamingResampler_wf; unfold INT_MAX; lia).
  split; [exact Hwf|].
  destruct (sample_call_ok) as (out & st' & Hok).
  exists out, st'. split; [exact Hok|].
  destruct (resampler_invariant _ _ _ _ _ Hwf Hok) as (H1 & _ & _ & _ & H5).
  split; [exact H1 | exact H5].
Defined.

(** Every source position of a block that fits lies inside the buffer. *)
Lemma srcPos_inside (st : t) (acc : list R) (n : Z) (i : nat) :
  resampler_wf st ->
  (1 <= Z.of_nat (length acc) <= INT_MAX)%Z ->
  IZR n / ratio_ st <= IZR (Z.of_nat (length acc) - 1) ->
  (i < Z.to_nat n)%nat ->
  interpolate st acc (Z.of_nat i) = Some (interpolated st acc (Z.of_nat i))
  /\ (S (Z.to_nat (Int_part (srcPos st (Z.of_nat i)))) < length acc)%nat.
Proof.
  intros (Hi & Ho & Hratio & Hp) Hlen Hcons Hin.
  destruct (ratio_lower_bound _ _ Hi Ho) as [Hr _]. rewrite <- Hratio in Hr.
  apply interpolate_inside; try lia; try lra.
  unfold srcPos. rewrite minus_IZR in Hcons.
  apply Rlt_le_trans with (IZR n / ratio_ st); [|lra].
  apply Rdiv_lt_of_lt; [exact Hr|].
  assert (IZR (Z.of_nat i) <= IZR (n - 1)) by (apply IZR_le; lia).
  rewrite minus_IZR in H. lra.
Qed.

(** X10: what a returned block contains.  When the rates differ and a
    call returns a non-empty block, the block has [outputSize] samples and
    sample [i] is the linear interpolation, at source position
    [(i + phase) / ratio], between the two buffered samples around that
    position, both of which lie inside the accumulator. *)
Theorem process_interpolates
  (st st' : t) (input output : list R) (n : Z) :
  resampler_wf st ->
  inputSampleRate_ st <> outputSampleRate_ st ->
  (Z.of_nat (length (accumulator_ st ++ input)) <= INT_MAX)%Z ->
  process st input n = Ok (output, st') ->
  output <> [] ->
  length output = Z.to_nat n
  /\ forall i, (i < Z.to_nat n)%nat ->
       let p := (INR i + phase_ st) / ratio_ st in
       let k := Z.to_nat (Int_part p) in
       (S k < length (accumulator_ st ++ input))%nat
       /\ nth i output 0
          = nth k (accumulator_ st ++ input) 0 * (1 - frac_part p)
            + nth (S k) (accumulator_ st ++ input) 0 * frac_part p.
Proof.
  intros Hwf Hrate Hlen Hproc Hne.
  destruct (process_inversion _ _ _ _ _ Hwf Hrate Hlen Hproc)
    as (Hlen1 & [[-> _] | (Hn & Hcons & -> & _)]); [contradiction|].
  split; [now rewrite length_map, indices_length|].
  intros i Hin p k.
  assert (Hsrc : srcPos st (Z.of_nat i) = p).
  { unfold srcPos, p. now rewrite <- INR_IZR_INZ. }
  destruct (srcPos_inside st (accumulator_ st ++ input) n i Hwf)
    as [_ Hk]; try assumption; try lia.
  rewrite Hsrc in Hk. split; [exact Hk|].
  unfold indices. rewrite map_map.
  rewrite nth_map_seq by exact Hin.
  unfold interpolated. rewrite Hsrc. reflexivity.
Qed.

Lemma process_interpolates_witness :
  exists output st',
    process (StreamingResampler 48000 16000) [1; 2; 3; 4] 1
    = Ok (output, st')
    /\ length output = 1%nat
    /\ nth 0 output 0 = 1.
Proof.
  assert (Hwf : resampler_wf (StreamingResampler 48000 16000))
    by (apply StreamingResampler_wf; unfold INT_MAX; lia).
  destruct sample_call_ok as (out & st' & Hok).
  exists out, st'. split; [exact Hok|].
  assert (Hrate : inputSampleRate_ (StreamingResampler 48000 16000)
                  <> outputSampleRate_ (StreamingResampler 48000 16000))
    by (simpl; lia).
  assert (Hlen : (Z.of_nat
                    (length (accumulator_ (StreamingResampler 48000 16000)
                             ++ [1; 2; 3; 4]%R)) <= INT_MAX)%Z)
    by (simpl; unfold INT_MAX; lia).
  assert (Hne : out <> []).
  { intros ->.
    destruct (process_inversion _ _ _ _ _ Hwf Hrate Hlen Hok)
      as (_ & [[_ Hst] | (_ & _ & Hout & _)]).
    - destruct (process_ready_samples
                  (StreamingResampler 48000 16000) [1; 2; 3; 4] 1 1)
        as (_ & Hok');
        try (simpl; lia); try (simpl; lra); try (simpl; unfold INT_MAX; lia).
      { simpl. replace (3 * (16000 / 48000)) with (IZR 1) by (simpl; field).
        apply static_cast_int_IZR. unfold INT_MIN, INT_MAX. lia. }
      rewrite Hok' in Hok. discriminate Hok.
    - discriminate Hout. }
  destruct (process_interpolates _ _ _ _ _ Hwf Hrate Hlen Hok Hne)
    as (Hl & Hs).
  split; [exact Hl|].
  destruct (Hs 0%nat) as [_ Hv]; [simpl; lia|].
  rewrite Hv. cbn [phase_ ratio_ StreamingResampler accumulator_ app INR].
  replace ((0 + 0) / (16000 / 48000)) with (IZR 0) by (simpl; field).
  unfold frac_part. rewrite Int_part_IZR. simpl. lra.
Defined.

(** X11: interpolation stays within the buffered samples.  If every sample
    in the accumulator and in the new input lies between [lo] and [hi],
    so does every sample of a returned block (for equal rates the block
    is the input itself). *)
Theorem process_output_bounded
  (st st' : t) (input output : list R) (n : Z) (lo hi : R) :
  resampler_wf st ->
  (Z.of_nat (length (accumulator_ st ++ input)) <= INT_MAX)%Z ->
  Forall (fun s => lo <= s <= hi) (accumulator_ st ++ input) ->
  process st input n = Ok (output, st') ->
  Forall (fun s => lo <= s <= hi) output.
Proof.
  intros Hwf Hlen Hall Hproc.
  destruct (Z.eq_dec (inputSampleRate_ st) (outputSampleRate_ st)) as [E|Hrate].
  { unfold process in Hproc.
    replace (inputSampleRate_ st =? outputSampleRate_ st)%Z with true in Hproc
      by (symmetry; apply Z.eqb_eq; exact E).
    injection Hproc as <- _. apply Forall_app in Hall. tauto. }
  destruct (process_inversion _ _ _ _ _ Hwf Hrate Hlen Hproc)
    as (Hlen1 & [[-> _] | (Hn & Hcons & -> & _)]); [constructor|].
  apply Forall_map, Forall_forall. intros z Hz.
  unfold indices in Hz. apply in_map_iff in Hz as (i & <- & Hi).
  apply in_seq in Hi.
  destruct (srcPos_inside st (accumulator_ st ++ input) n i Hwf)
    as [_ Hk]; try assumption; try lia.
  rewrite Forall_forall in Hall. unfold interpolated.
  set (p := srcPos st (Z.of_nat i)) in *.
  pose proof (frac_part_range p) as Hf.
  assert (Ha : lo <= nth (Z.to_nat (Int_part p)) (accumulator_ st ++ input) 0
               <= hi) by (apply Hall, nth_In; lia).
  assert (Hb : lo <= nth (S (Z.to_nat (Int_part p)))
                       (accumulator_ st ++ input) 0 <= hi)
    by (apply Hall, nth_In; lia).
  split; nra.
Qed.

Lemma process_output_bounded_witness :
  exists output st',
    process (StreamingResampler 48000 16000) [1; 2; 3; 4] 1
    = Ok (output, st')
    /\ Forall (fun s => 1 <= s <= 4) output.
Proof.
  assert (Hwf : resampler_wf (StreamingResampler 48000 16000))
    by (apply StreamingResampler_wf; unfold INT_MAX; lia).
  destruct sample_call_ok as (out & st' & Hok).
  exists out, st'. split; [exact Hok|].
  apply (process_output_bounded _ _ _ _ _ 1 4 Hwf) in Hok;
    [exact Hok | simpl; unfold INT_MAX; lia |].
  cbn [accumulator_ StreamingResampler app].
  repeat (constructor; [lra|]). constructor.
Defined.

(** X12: whole-number decimation.  When the input rate is [d] times the
    output rate ([d >= 2]) and the phase is 0, a returned non-empty block
    is every [d]-th buffered sample, [d * outputSize] samples are dropped
    from the accumulator and the phase is 0 again. *)
Theorem process_decimates
  (st st' : t) (input output : list R) (n d : Z) :
  resampler_wf st ->
  (2 <= d)%Z ->
  inputSampleRate_ st = (d * outputSampleRate_ st)%Z ->
  phase_ st = 0 ->
  (Z.of_nat (length (accumulator_ st ++ input)) <= INT_MAX)%Z ->
  process st input n = Ok (output, st') ->
  output <> [] ->
  output = map (fun i => nth (Z.to_nat (d * i)) (accumulator_ st ++ input) 0)
             (indices n)
  /\ accumulator_ st' = skipn (Z.to_nat (d * n)) (accumulator_ st ++ input)
  /\ phase_ st' = 0.
Proof.
  intros Hwf Hd Hin Hph Hlen Hproc Hne.
  assert (Hrate : inputSampleRate_ st <> outputSampleRate_ st).
  { destruct Hwf as (_ & Ho & _). rewrite Hin. nia. }
  destruct (process_inversion _ _ _ _ _ Hwf Hrate Hlen Hproc)
    as (Hlen1 & [[-> _] | (Hn & Hcons & -> & ->)]); [contradiction|].
  destruct Hwf as (Hi & Ho & Hratio & Hp).
  assert (Hdiv : forall z, IZR z / ratio_ st = IZR (d * z)).
  { intros z. rewrite Hratio, Hin, !mult_IZR.
    assert (IZR (outputSampleRate_ st) <> 0)
      by (apply not_0_IZR; lia).
    assert (IZR d <> 0) by (apply not_0_IZR; lia).
    field. split; assumption. }
  assert (Hsrc : forall i, srcPos st i = IZR (d * i)).
  { intros i. unfold srcPos. rewrite Hph, Rplus_0_r. apply Hdiv. }
  assert (Hfrac : forall z, frac_part (IZR z) = 0).
  { intros z. unfold frac_part. rewrite Int_part_IZR. lra. }
  cbn [accumulator_ phase_].
  split; [|split].
  - apply map_ext. intros i. unfold interpolated.
    rewrite Hsrc, Hfrac, Int_part_IZR. lra.
  - rewrite Hdiv, Int_part_IZR. reflexivity.
  - unfold next_phase. rewrite Hph, Hdiv, Hfrac, Rplus_0_r.
    replace 0 with (IZR 0) by reflexivity. apply Hfrac.
Qed.

Lemma process_decimates_witness :
  exists output st',
    process (StreamingResampler 48000 16000) [1; 2; 3; 4] 1
    = Ok (output, st')
    /\ output = [1]
    /\ accumulator_ st' = [4]
    /\ phase_ st' = 0.
Proof.
  assert (Hwf : resampler_wf (StreamingResampler 48000 16000))
    by (apply StreamingResampler_wf; unfold INT_MAX; lia).
  destruct sample_call_ok as (out & st' & Hok).
  exists out, st'. split; [exact Hok|].
  assert (Hne : out <> []).
  { intros ->.
    destruct (process_ready_samples
                (StreamingResampler 48000 16000) [1; 2; 3; 4] 1 1)
      as (_ & Hok');
      try (simpl; lia); try (simpl; lra); try (simpl; unfold INT_MAX; lia).
    { simpl. replace (3 * (16000 / 48000)) with (IZR 1) by (simpl; field).
      apply static_cast_int_IZR. unfold INT_MIN, INT_MAX. lia. }
    rewrite Hok' in Hok. discriminate Hok. }
  destruct (process_decimates
              (StreamingResampler 48000 16000) st' [1; 2; 3; 4] out 1 3 Hwf)
    as (H1 & H2 & H3);
    try reflexivity; try lia; try exact Hne; try exact Hok;
    try (simpl; unfold INT_MAX; lia).
  split; [exact H1|]. split; [exact H2 | exact H3].
Defined.

End ResamplerExtras.

(** ** The frame processor: shape, counters, statistics, reset *)

Section ProcessorExtras.

Import Processor.

Lemma mean_bounds_within (audio : list R) (b : R) :
  0 <= b -> Forall (fun s => - b <= s <= b) audio -> - b <= mean audio <= b.
Proof.
  intros Hb H. unfold mean.
  destruct audio as [|s audio].
  - simpl. unfold Rdiv. rewrite Rmult_0_l. lra.
  - assert (Hn : 0 < INR (length (s :: audio)))
      by (apply lt_0_INR; simpl; lia).
    pose proof (sum_bounds (s :: audio) b H) as Hs.
    split.
    + apply Rmult_le_reg_r with (INR (length (s :: audio))); [exact Hn|].
      unfold Rdiv. rewrite Rmult_assoc, Rinv_l by lra. lra.
    + apply Rmult_le_reg_r with (INR (length (s :: audio))); [exact Hn|].
      unfold Rdiv. rewrite Rmult_assoc, Rinv_l by lra. lra.
Qed.

Lemma softLimit_within (audio : list R) :
  Forall (fun s => - (98 / 100) <= s <= 98 / 100) (softLimit audio).
Proof.
  eapply Forall_impl; [|apply peak_upper].
  intros s Hs. simpl in Hs.
  pose proof (softLimit_peak audio) as Hp.
  unfold SOFT_LIMITER_THRESHOLD in Hp.
  apply Rabs_le_between. lra.
Qed.

(** X13: the clamp never changes a sample.  After the limiter every
    sample is within 0.98 of zero, so for every frame the post-processing
    is the limiter followed by the DC removal, and every returned sample
    is within 1.96 of zero. *)
Theorem postprocessAudio_clamp_idle (audio : list R) :
  clip (softLimit audio) = softLimit audio
  /\ postprocessAudio audio = removeDC (softLimit audio)
  /\ Forall (fun s => Rabs s <= 196 / 100) (postprocessAudio audio).
Proof.
  split; [apply clip_softLimit|].
  assert (E : postprocessAudio audio = removeDC (softLimit audio)).
  { destruct audio as [|s audio].
    - unfold softLimit, peak. cbn [fold_left].
      rewrite Rgtb_false by (unfold SOFT_LIMITER_THRESHOLD; lra).
      reflexivity.
    - rewrite postprocessAudio_nonempty by discriminate.
      now rewrite clip_softLimit. }
  split; [exact E|].
  rewrite E.
  pose proof (softLimit_within audio) as Hc.
  assert (Hm := mean_bounds_within (softLimit audio) (98 / 100)
                  ltac:(lra) Hc).
  unfold removeDC. apply Forall_map.
  eapply Forall_impl; [|exact Hc].
  intros s Hs. simpl in Hs. apply Rabs_le. lra.
Qed.

Lemma peak_quiet (audio : list R) :
  Forall (fun s => Rabs s <= 98 / 100) audio ->
  peak audio <= SOFT_LIMITER_THRESHOLD.
Proof.
  intros H. unfold SOFT_LIMITER_THRESHOLD. apply peak_lub; [lra | exact H].
Qed.

(** X14: a frame that stays within the limiter's threshold only loses its
    mean.  If no sample exceeds 0.98 in magnitude, the post-processing
    subtracts the frame's mean from every sample and does nothing else; a
    frame whose mean is 0 is returned unchanged. *)
Theorem postprocessAudio_quiet (audio : list R) :
  Forall (fun s => Rabs s <= 98 / 100) audio ->
  postprocessAudio audio = map (fun s => s - mean audio) audio
  /\ (mean audio = 0 -> postprocessAudio audio = audio).
Proof.
  intros H.
  assert (E : postprocessAudio audio = map (fun s => s - mean audio) audio).
  { destruct audio as [|s audio]; [reflexivity|].
    rewrite postprocessAudio_nonempty by discriminate.
    rewrite clip_softLimit, softLimit_below by (apply peak_quiet; exact H).
    reflexivity. }
  split; [exact E|].
  intros Hm. rewrite E, Hm. rewrite <- (map_id audio) at 2.
  apply map_ext. intros s. lra.
Qed.

Lemma postprocessAudio_quiet_witness :
  Forall (fun s => Rabs s <= 98 / 100) [0.5; -0.5]
  /\ mean [0.5; -0.5] = 0
  /\ postprocessAudio [0.5; -0.5] = [0.5; -0.5].
Proof.
  assert (H : Forall (fun s => Rabs s <= 98 / 100) [0.5; -0.5])
    by (repeat (constructor; [apply Rabs_le; lra|]); constructor).
  assert (Hm : mean [0.5; -0.5] = 0) by (unfold mean; simpl; lra).
  split; [exact H|]. split; [exact Hm|].
  destruct (postprocessAudio_quiet [0.5; -0.5] H) as [_ Hq].
  exact (Hq Hm).
Defined.

Lemma normalizeOutputShape_length (p : t) (output fallback : list R) :
  length fallback = Z.to_nat (frameSize_ p) ->
  length (normalizeOutputShape p output fallback) = Z.to_nat (frameSize_ p).
Proof.
  intros Hf. destruct output as [|o output]; [exact Hf|].
  rewrite normalizeOutputShape_nonempty by discriminate.
  apply normalizeFrameSize_length.
Qed.

(** X15: every call of [processFrame] returns exactly [frameSize_]
    samples, whatever the length of the input frame and whatever the
    callback returns, and leaves the processor's configuration (the two
    thresholds, the frame size and the sample rate) as it was. *)
Theorem processFrame_shape {W : Type} (p : t) (inputFrame : list R)
    (cb : OnnxInferenceCallback W) (w : W) (elapsedMs : R) :
  let '(output, p', _) := processFrame p inputFrame cb w elapsedMs in
  length output = Z.to_nat (frameSize_ p)
  /\ frameSize_ p' = frameSize_ p
  /\ sampleRate_ p' = sampleRate_ p
  /\ vadThresholdDb_ p' = vadThresholdDb_ p
  /\ attenLimDb_ p' = attenLimDb_ p.
Proof.
  destruct (fst (VAD.isSpeech (vad_ p) (normalizeFrameSize p inputFrame)))
    eqn:E.
  - destruct (cb (normalizeFrameSize p inputFrame) (states_ p)
                (attenLimDb_ p) w) as [[enhanced states] w'] eqn:Hcb.
    rewrite (processFrame_speech p inputFrame cb w elapsedMs _ _ _ E Hcb).
    cbn [frameSize_ sampleRate_ vadThresholdDb_ attenLimDb_].
    repeat split.
    rewrite postprocessAudio_length. apply normalizeOutputShape_length.
    apply normalizeFrameSize_length.
  - rewrite (processFrame_silence p inputFrame cb w elapsedMs E).
    cbn [frameSize_ sampleRate_ vadThresholdDb_ attenLimDb_].
    repeat split. apply normalizeFrameSize_length.
Qed.

Lemma processor0_consistent : counters_consistent processor0.
Proof. unfold counters_consistent, processor0, vad0. cbn. lia. Qed.

(** X16: the frame counter and the detector's counters move together.
    If the processor's frame count equals the detector's count of active
    frames and the detector's total is active plus bypassed (true of a new
    and of a reset processor), the same holds after [processFrame], and
    [getStats] then reports [frameCount = vadActive] and
    [vadTotal = frameCount + vadBypassed], with [vadTotal] one more than
    before the call. *)
Theorem processFrame_counters {W : Type} (p : t) (inputFrame : list R)
    (cb : OnnxInferenceCallback W) (w : W) (elapsedMs : R) :
  counters_consistent p ->
  let '(_, p', _) := processFrame p inputFrame cb w elapsedMs in
  counters_consistent p'
  /\ frameCount (getStats p') = vadActive (getStats p')
  /\ vadTotal (getStats p')
     = (frameCount (getStats p') + vadBypassed (getStats p'))%Z
  /\ vadTotal (getStats p') = (vadTotal (getStats p) + 1)%Z.
Proof.
  intros (H1 & H2 & H3 & H4).
  pose proof (isSpeech_counters (vad_ p) (normalizeFrameSize p inputFrame))
    as (C1 & C2 & C3 & _).
  destruct (fst (VAD.isSpeech (vad_ p) (normalizeFrameSize p inputFrame)))
    eqn:E.
  - destruct (cb (normalizeFrameSize p inputFrame) (states_ p)
                (attenLimDb_ p) w) as [[enhanced states] w'] eqn:Hcb.
    rewrite (processFrame_speech p inputFrame cb w elapsedMs _ _ _ E Hcb).
    unfold counters_consistent, getStats, VAD.getStats.
    cbn [frameCount_ vad_ frameCount vadActive vadTotal vadBypassed
         VAD.total VAD.active VAD.bypassed].
    repeat split; lia.
  - rewrite (processFrame_silence p inputFrame cb w elapsedMs E).
    unfold counters_consistent, getStats, VAD.getStats.
    cbn [frameCount_ vad_ frameCount vadActive vadTotal vadBypassed
         VAD.total VAD.active VAD.bypassed].
    repeat split; lia.
Qed.

Lemma processFrame_counters_witness :
  PoiseProcessor (-40) (-60) = Some processor0
  /\ counters_consistent processor0
  /\ let '(_, p', _) := processFrame processor0 spike stub tt 0 in
     frameCount (getStats p') = vadActive (getStats p')
     /\ vadTotal (getStats p') = 1%Z.
Proof.
  split; [exact processor0_constructed|].
  split; [exact processor0_consistent|].
  pose proof (processFrame_counters processor0 spike stub tt 0
                processor0_consistent) as H.
  destruct (processFrame processor0 spike stub tt 0) as [[output p'] w'].
  destruct H as (_ & Ha & _ & Ht).
  split; [exact Ha | exact Ht].
Defined.

(** X17: the timing figures of [getStats].  With the constructor's frame
    size and sample rate a frame lasts 10 ms, so the real-time factor is
    the average time divided by 10.  The average times the frame count is
    the accumulated time when frames were counted, and it is 0 (no
    division by zero) when none was. *)
Theorem getStats_timing (p : t) :
  frameSize_ p = 480%Z -> sampleRate_ p = 48000%Z ->
  rtf (getStats p) = avgTimeMs (getStats p) / 10
  /\ avgTimeMs (getStats p) = getAverageProcessingTimeMs p
  /\ ((0 < frameCount_ p)%Z ->
      avgTimeMs (getStats p) * IZR (frameCount_ p) = totalProcessingTimeMs_ p)
  /\ ((frameCount_ p <= 0)%Z ->
      avgTimeMs (getStats p) = 0 /\ rtf (getStats p) = 0).
Proof.
  intros Hf Hs.
  assert (Hr : rtf (getStats p) = avgTimeMs (getStats p) / 10).
  { unfold getStats. cbn [rtf avgTimeMs]. rewrite Hf, Hs.
    replace (480 / 48000 * 1000) with 10 by field.
    rewrite Rgtb_true by lra. reflexivity. }
  split; [exact Hr|]. split; [reflexivity|]. split.
  - intros Hc. unfold getStats. cbn [avgTimeMs].
    unfold getAverageProcessingTimeMs.
    replace (0 <? frameCount_ p)%Z with true
      by (symmetry; apply Z.ltb_lt; exact Hc).
    assert (0 < IZR (frameCount_ p)) by (apply IZR_lt; exact Hc).
    field. lra.
  - intros Hc.
    assert (Ha : avgTimeMs (getStats p) = 0).
    { unfold getStats. cbn [avgTimeMs]. unfold getAverageProcessingTimeMs.
      replace (0 <? frameCount_ p)%Z with false
        by (symmetry; apply Z.ltb_ge; exact Hc).
      reflexivity. }
    split; [exact Ha|]. rewrite Hr, Ha. lra.
Qed.

Lemma getStats_timing_witness :
  frameSize_ processor0 = 480%Z
  /\ sampleRate_ processor0 = 48000%Z
  /\ avgTimeMs (getStats processor0) = 0
  /\ rtf (getStats processor0) = 0.
Proof.
  split; [reflexivity|]. split; [reflexivity|].
  destruct (getStats_timing processor0 eq_refl eq_refl) as (_ & _ & _ & H).
  apply H. cbn. lia.
Defined.

Lemma map_const_repeat {A B : Type} (c : B) (l : list A) :
  map (fun _ => c) l = repeat c (length l).
Proof. induction l as [|a l IH]; [reflexivity|]. cbn. now rewrite IH. Qed.

Lemma VAD_reset_isSpeech (v : VAD.t) (audio : list R) :
  VAD.reset (snd (VAD.isSpeech v audio)) = VAD.reset v.
Proof.
  unfold VAD.isSpeech.
  destruct (VAD.isActive v audio); [reflexivity|].
  destruct (_ <? _)%Z; reflexivity.
Qed.

(** X18: [reset] forgets what the calls before it did.  After a
    [processFrame] whose callback kept the length of the model state, and
    after any [updateStates], resetting gives the same processor as
    resetting before the call; resetting twice is resetting once; and a
    newly constructed processor is already in its reset state. *)
Theorem processor_reset_absorbs {W : Type} (p : t) (inputFrame : list R)
    (cb : OnnxInferenceCallback W) (w : W) (elapsedMs : R)
    (newStates : list R) :
  length (snd (fst (cb (normalizeFrameSize p inputFrame) (states_ p)
                      (attenLimDb_ p) w)))
  = length (states_ p) ->
  reset (snd (fst (processFrame p inputFrame cb w elapsedMs))) = reset p
  /\ reset (updateStates p newStates) = reset p
  /\ reset (reset p) = reset p
  /\ (forall vadThresholdDb attenLimDb p0,
         PoiseProcessor vadThresholdDb attenLimDb = Some p0 ->
         reset p0 = p0).
Proof.
  intros Hlen. split; [|split; [|split]].
  - destruct (fst (VAD.isSpeech (vad_ p) (normalizeFrameSize p inputFrame)))
      eqn:E.
    + destruct (cb (normalizeFrameSize p inputFrame) (states_ p)
                  (attenLimDb_ p) w) as [[enhanced states] w'] eqn:Hcb.
      rewrite (processFrame_speech p inputFrame cb w elapsedMs _ _ _ E Hcb).
      cbn [fst snd] in *. unfold reset.
      cbn [vadThresholdDb_ attenLimDb_ frameSize_ sampleRate_ states_ vad_].
      rewrite VAD_reset_isSpeech, !map_const_repeat, Hlen. reflexivity.
    + rewrite (processFrame_silence p inputFrame cb w elapsedMs E).
      cbn [fst snd]. unfold reset.
      cbn [vadThresholdDb_ attenLimDb_ frameSize_ sampleRate_ states_ vad_].
      rewrite VAD_reset_isSpeech. reflexivity.
  - unfold updateStates.
    destruct (Nat.eqb_spec (length newStates) (length (states_ p))) as [E|E];
      [|reflexivity].
    unfold reset.
    cbn [vadThresholdDb_ attenLimDb_ frameSize_ sampleRate_ states_ vad_].
    rewrite !map_const_repeat, E. reflexivity.
  - unfold reset.
    cbn [vadThresholdDb_ attenLimDb_ frameSize_ sampleRate_ states_ vad_].
    rewrite !map_const_repeat, repeat_length. reflexivity.
  - intros v a p0 Hp0. rewrite PoiseProcessor_default in Hp0.
    pose proof (f_equal (fun o => match o with Some x => x | None => p0 end)
                  Hp0) as E.
    cbv beta iota in E. rewrite <- E. unfold reset.
    cbn [vadThresholdDb_ attenLimDb_ frameSize_ sampleRate_ states_ vad_].
    rewrite map_const_repeat, repeat_length. reflexivity.
Qed.

Lemma processor_reset_absorbs_witness :
  length (snd (fst (stub (normalizeFrameSize processor0 spike)
                      (states_ processor0) (attenLimDb_ processor0) tt)))
  = length (states_ processor0)
  /\ reset (snd (fst (processFrame processor0 spike stub tt 0)))
     = reset processor0.
Proof.
  assert (H : length (snd (fst (stub (normalizeFrameSize processor0 spike)
                                  (states_ processor0)
                                  (attenLimDb_ processor0) tt)))
              = length (states_ processor0)) by reflexivity.
  split; [exact H|].
  exact (proj1 (processor_reset_absorbs processor0 spike stub tt 0 [] H)).
Defined.

(** X19: [normalizeFrameSize] keeps the samples it can and pads with
    zeros: below [frameSize_] the result has the input's sample where
    there is one and 0 where there is none, and normalizing a normalized
    frame changes nothing.  [normalizeOutputShape] does the same to a
    non-empty model output and returns the fallback for an empty one. *)
Theorem normalizeFrameSize_samples (p : t) (audio fallback : list R) (i : nat) :
  (i < Z.to_nat (frameSize_ p))%nat ->
  nth i (normalizeFrameSize p audio) 0
  = (if (i <? length audio)%nat then nth i audio 0 else 0)
  /\ normalizeFrameSize p (normalizeFrameSize p audio)
     = normalizeFrameSize p audio
  /\ (audio <> [] ->
      normalizeOutputShape p audio fallback = normalizeFrameSize p audio)
  /\ normalizeOutputShape p [] fallback = fallback.
Proof.
  intros Hi. split; [|split; [|split]].
  - unfold normalizeFrameSize.
    destruct (Nat.ltb_spec i (length audio)) as [H|H].
    + rewrite app_nth1 by (rewrite length_firstn; lia).
      apply nth_firstn_lt. exact Hi.
    + rewrite app_nth2 by (rewrite length_firstn; lia).
      apply nth_repeat.
  - apply normalizeFrameSize_exact, normalizeFrameSize_length.
  - apply normalizeOutputShape_nonempty.
  - reflexivity.
Qed.

Lemma normalizeFrameSize_samples_witness :
  nth 1 (normalizeFrameSize processor0 [0.5; 0.25]) 0 = 0.25
  /\ nth 2 (normalizeFrameSize processor0 [0.5; 0.25]) 0 = 0.
Proof.
  split.
  - apply (normalizeFrameSize_samples processor0 [0.5; 0.25] [] 1).
    cbn. lia.
  - apply (normalizeFrameSize_samples processor0 [0.5; 0.25] [] 2).
    cbn. lia.
Defined.

End ProcessorExtras.

(** ** The session bridge *)

Section BridgeExtras.

Import Bridge.

Lemma clipAndSum_from (audio done : list R) (m : R) :
  fold_left
    (fun '(done, mean) sample =>
       let sample := Processor.clamp sample (-1) 1 in
       (done ++ [sample], mean + sample))
    audio (done, m)
  = (done ++ Processor.clip audio,
     m + fold_left (fun m sample => m + sample) (Processor.clip audio) 0).
Proof.
  revert done m. induction audio as [|s audio IH]; intros done m.
  - cbn. rewrite app_nil_r. f_equal. lra.
  - cbn [fold_left]. cbv zeta. rewrite IH.
    unfold Processor.clip. cbn [map fold_left].
    rewrite <- app_assoc. cbn [app]. f_equal.
    rewrite (sum_from _ (0 + _)).
    unfold Processor.AUDIO_CLIP_MIN, Processor.AUDIO_CLIP_MAX. lra.
Qed.

Lemma clipAndSum_spec (audio : list R) :
  clipAndSum audio
  = (Processor.clip audio,
     fold_left (fun m sample => m + sample) (Processor.clip audio) 0).
Proof.
  unfold clipAndSum. rewrite clipAndSum_from. cbn [app]. f_equal. lra.
Qed.

(** The three loops of [nativePostProcess] on a frame. *)
Lemma postProcessSamples_stages (audio : list R) :
  postProcessSamples audio
  = Processor.removeDC (Processor.clip (Processor.softLimit audio)).
Proof.
  assert (E98 : 0.98 = Processor.SOFT_LIMITER_THRESHOLD)
    by (unfold Processor.SOFT_LIMITER_THRESHOLD; lra).
  unfold postProcessSamples. rewrite E98.
  change (fold_left (fun maxVal sample => Rmax maxVal (Rabs sample)) audio 0)
    with (Processor.peak audio).
  change (if Rgtb (Processor.peak audio) Processor.SOFT_LIMITER_THRESHOLD
             && Rgtb (Processor.peak audio) 0
          then map (fun sample =>
                      sample * (Processor.SOFT_LIMITER_THRESHOLD
                                / Processor.peak audio)) audio
          else audio)
    with (Processor.softLimit audio).
  rewrite clipAndSum_spec. reflexivity.
Qed.

(** The early return of [postprocessAudio] on an empty frame is what its
    three loops would give. *)
Lemma postprocessAudio_all (audio : list R) :
  Processor.postprocessAudio audio
  = Processor.removeDC (Processor.clip (Processor.softLimit audio)).
Proof.
  destruct audio as [|s audio]; [|reflexivity].
  unfold Processor.softLimit, Processor.peak. cbn [fold_left].
  rewrite Rgtb_false by (unfold Processor.SOFT_LIMITER_THRESHOLD; lra).
  reflexivity.
Qed.

(** X20: the bridge's own copy of the post-processing agrees with the
    processor's.  The limiter, the fused clamp-and-sum loop and the DC
    removal written out in [nativePostProcess] compute, for every frame
    (the empty one included), what [PoiseProcessor::postprocessAudio]
    computes. *)
Theorem postProcessSamples_agrees (audio : list R) :
  postProcessSamples audio = Processor.postprocessAudio audio.
Proof.
  rewrite postProcessSamples_stages, postprocessAudio_all. reflexivity.
Qed.

Lemma session0_init : nativeInit initial (-40) (-60) = Some (1%Z, session0).
Proof.
  unfold nativeInit. rewrite processor0_constructed. reflexivity.
Qed.

(** X21: post-processing through the bridge.  For a live handle with no
    output resampler, [nativePostProcess] returns what
    [PoiseProcessor::postprocessAudio] makes of the frame, with as many
    samples as it was given, and leaves the registry alone. *)
Theorem nativePostProcess_plain
  (reg : registry) (handle : Z) (p : Processor.t) (audioData : list R) :
  processors reg handle = Some p ->
  outputResamplers reg handle = None ->
  nativePostProcess reg handle audioData
  = Ok (Processor.postprocessAudio audioData, reg)
  /\ length (Processor.postprocessAudio audioData) = length audioData.
Proof.
  intros Hp Hr. unfold nativePostProcess.
  rewrite Hp, Hr, postProcessSamples_stages, <- postprocessAudio_all.
  split; [reflexivity | apply postprocessAudio_length].
Qed.

Lemma nativePostProcess_plain_witness :
  nativeInit initial (-40) (-60) = Some (1%Z, session0)
  /\ nativePostProcess session0 1 [0.5; -0.5]
     = Ok (Processor.postprocessAudio [0.5; -0.5], session0).
Proof.
  split; [exact session0_init|].
  apply (nativePostProcess_plain session0 1 processor0); reflexivity.
Defined.

Lemma resize480_normalize (p : Processor.t) (input : list R) :
  Processor.frameSize_ p = 480%Z ->
  resize480 input = Processor.normalizeFrameSize p input.
Proof.
  intros Hf. unfold resize480, Processor.normalizeFrameSize. rewrite Hf.
  change (Z.to_nat 480) with 480%nat.
  destruct (Nat.ltb_spec (length input) 480) as [H|H].
  - rewrite firstn_all2 by lia. reflexivity.
  - destruct (Nat.ltb_spec 480 (length input)) as [H'|H'].
    + replace (480 - length input)%nat with 0%nat by lia.
      cbn [repeat]. now rewrite app_nil_r.
    + assert (E : length input = 480%nat) by lia.
      rewrite <- E at 1. rewrite firstn_all.
      replace (480 - length input)%nat with 0%nat by lia.
      cbn [repeat]. now rewrite app_nil_r.
Qed.

Lemma resize480_length (input : list R) : length (resize480 input) = 480%nat.
Proof.
  unfold resize480.
  destruct (Nat.ltb_spec (length input) 480) as [H|H].
  - rewrite length_app, repeat_length. lia.
  - destruct (Nat.ltb_spec 480 (length input)) as [H'|H'].
    + rewrite length_firstn. lia.
    + lia.
Qed.

Lemma nativeProcessPreInference_registry
  (reg reg' : registry) (handle : Z) (audioData : list R)
  (result : option (list R)) :
  nativeProcessPreInference reg handle audioData = Ok (result, reg') ->
  processors reg' = processors reg
  /\ outputResamplers reg' = outputResamplers reg
  /\ nextHandle reg' = nextHandle reg.
Proof.
  unfold nativeProcessPreInference.
  destruct (processors reg handle); [|intros H; injection H as _ <-; tauto].
  destruct (inputResamplers reg handle);
    [|intros H; injection H as _ <-; tauto].
  destruct (Resampler.process _ _ _) as [[input r']| |]; try discriminate.
  destruct input; intros H; injection H as _ <-; cbn; tauto.
Qed.

(** X22: the frame [nativeProcessPreInference] hands to the model.  A
    call that returns an array returns exactly 480 samples, and only for
    a live handle; the processor table, the output resamplers and the
    handle counter are never touched.  Without an input resampler the
    array is the input normalized as [normalizeFrameSize] does it, and the
    registry is unchanged. *)
Theorem nativeProcessPreInference_frame
  (reg reg' : registry) (handle : Z) (audioData : list R)
  (result : option (list R)) :
  nativeProcessPreInference reg handle audioData = Ok (result, reg') ->
  processors reg' = processors reg
  /\ outputResamplers reg' = outputResamplers reg
  /\ nextHandle reg' = nextHandle reg
  /\ (forall frame, result = Some frame ->
        length frame = 480%nat /\ processors reg handle <> None)
  /\ (forall p, processors reg handle = Some p ->
        inputResamplers reg handle = None ->
        Processor.frameSize_ p = 480%Z ->
        result = Some (Processor.normalizeFrameSize p audioData)
        /\ reg' = reg).
Proof.
  intros H.
  destruct (nativeProcessPreInference_registry _ _ _ _ _ H) as (H1 & H2 & H3).
  split; [exact H1|]. split; [exact H2|]. split; [exact H3|].
  unfold nativeProcessPreInference in H. split.
  - intros frame ->.
    destruct (processors reg handle); [|discriminate].
    split; [|discriminate].
    destruct (inputResamplers reg handle).
    + destruct (Resampler.process _ _ _) as [[input r']| |];
        try discriminate.
      destruct input; [discriminate|].
      injection H as <- _. apply resize480_length.
    + injection H as <- _. apply resize480_length.
  - intros p Hp Hr Hf. rewrite Hp, Hr in H.
    injection H as <- <-.
    rewrite (resize480_normalize p) by exact Hf. tauto.
Qed.

Lemma nativeProcessPreInference_frame_witness :
  nativeProcessPreInference session0 1 [0.5; 0.25]
  = Ok (Some (Processor.normalizeFrameSize processor0 [0.5; 0.25]), session0)
  /\ length (Processor.normalizeFrameSize processor0 [0.5; 0.25]) = 480%nat.
Proof.
  assert (H : nativeProcessPreInference session0 1 [0.5; 0.25]
              = Ok (Some (resize480 [0.5; 0.25]), session0))
    by reflexivity.
  destruct (nativeProcessPreInference_frame _ _ _ _ _ H)
    as (_ & _ & _ & Hl & Hn).
  destruct (Hn processor0 eq_refl eq_refl eq_refl) as [E _].
  split; [rewrite H, E; reflexivity|]. exact (proj1 (Hl _ E)).
Defined.

Lemma Rgtb_ext (a b c d : R) : (a > b <-> c > d) -> Rgtb a b = Rgtb c d.
Proof.
  intros H. unfold Rgtb.
  destruct (Rgt_dec a b), (Rgt_dec c d); try reflexivity; tauto.
Qed.

Lemma ln_10_pos : 0 < ln 10.
Proof. rewrite <- ln_1. apply ln_increasing; lra. Qed.

(** A level in decibels is above [thr] exactly when the amplitude is above
    [10 ^ (thr / 20)]. *)
Lemma log10_gt (r thr : R) :
  0 < r -> (20 * log10 r > thr <-> r > Rpower 10 (thr / 20)).
Proof.
  intros Hr. pose proof ln_10_pos as L. unfold log10, Rpower.
  assert (Hq : ln r = ln r / ln 10 * ln 10) by (field; lra).
  split; intros H.
  - rewrite <- (exp_ln r Hr). apply exp_increasing. nra.
  - assert (Hl : thr / 20 * ln 10 < ln r).
    { rewrite <- (ln_exp (thr / 20 * ln 10)).
      apply ln_increasing; [apply exp_pos | exact H]. }
    nra.
Qed.

Lemma threshold_floor (thr : R) : -100 <= thr -> 1e-10 <= Rpower 10 (thr / 20).
Proof.
  intros H.
  apply Rle_trans with (Rpower 10 (- INR 10)).
  - rewrite Rpower_Ropp, Rpower_pow by lra. lra.
  - apply Rle_Rpower; [lra|]. simpl. lra.
Qed.

(** X23: the bridge's energy test and the detector's agree.  For a live
    handle whose processor has a threshold of at least -100 dB (and the
    linear threshold the constructor derives from it), [nativeCheckVAD],
    which compares [20 log10 rms] with the threshold in decibels, returns
    what [isActive] returns, which compares [rms] with the linear
    threshold; this includes the empty frame and frames at or below the
    [1e-10] floor. *)
Theorem nativeCheckVAD_agrees
  (reg : registry) (handle : Z) (p : Processor.t) (audioData : list R) :
  processors reg handle = Some p ->
  VAD.thresholdLinear_ (Processor.vad_ p)
  = Rpower 10 (Processor.vadThresholdDb_ p / 20) ->
  -100 <= Processor.vadThresholdDb_ p ->
  nativeCheckVAD reg handle audioData
  = VAD.isActive (Processor.vad_ p) audioData.
Proof.
  intros Hp Hlin Hthr. unfold nativeCheckVAD, VAD.isActive. rewrite Hp.
  destruct audioData as [|s audio].
  - apply Rgtb_false. cbn [energyDb]. lra.
  - unfold energyDb, VAD.rms. rewrite Hlin.
    set (r := sqrt (VAD.sumSquares (s :: audio) / INR (length (s :: audio)))).
    pose proof (threshold_floor _ Hthr) as Hfl.
    destruct (Rle_lt_dec r 1e-10) as [Hr|Hr].
    + rewrite (Rgtb_false r 1e-10) by exact Hr.
      rewrite !Rgtb_false by lra. reflexivity.
    + rewrite (Rgtb_true r 1e-10) by exact Hr.
      apply Rgtb_ext, log10_gt. lra.
Qed.

Lemma nativeCheckVAD_agrees_witness :
  processors session0 1%Z = Some processor0
  /\ -100 <= Processor.vadThresholdDb_ processor0
  /\ nativeCheckVAD session0 1 loud = true.
Proof.
  split; [reflexivity|].
  assert (H : -100 <= Processor.vadThresholdDb_ processor0) by (cbn; lra).
  split; [exact H|].
  rewrite (nativeCheckVAD_agrees session0 1 processor0 loud
             eq_refl eq_refl H).
  apply isActive_loud. apply threshold_minus40.
Defined.

Lemma initial_fresh : handles_fresh initial.
Proof. intros h _. reflexivity. Qed.

(** X24: [nativeInit] hands out a handle nobody holds.  In a registry
    where no handle at or above the counter is in use (true when the
    library is loaded), [nativeInit] always succeeds; the handle it returns
    was not in use, now names the newly constructed processor and no other
    handle's processor changed; the counter has moved past it, so the next
    call returns a different handle. *)
Theorem nativeInit_fresh_handle
  (reg : registry) (vadThresholdDb attenLimDb : R) :
  handles_fresh reg ->
  handles_fresh initial
  /\ exists handle reg' p,
       nativeInit reg vadThresholdDb attenLimDb = Some (handle, reg')
       /\ Processor.PoiseProcessor vadThresholdDb attenLimDb = Some p
       /\ processors reg handle = None
       /\ processors reg' handle = Some p
       /\ (forall h, h <> handle -> processors reg' h = processors reg h)
       /\ inputResamplers reg' = inputResamplers reg
       /\ outputResamplers reg' = outputResamplers reg
       /\ nextHandle reg' = (handle + 1)%Z
       /\ handles_fresh reg'.
Proof.
  intros Hfresh. split; [exact initial_fresh|].
  unfold nativeInit. rewrite PoiseProcessor_default.
  eexists _, _, _. split; [reflexivity|]. split; [reflexivity|].
  cbn [processors inputResamplers outputResamplers nextHandle].
  split; [apply Hfresh; lia|].
  split; [unfold insert; now rewrite Z.eqb_refl|].
  split.
  { intros h Hh. unfold insert.
    destruct (Z.eqb_spec h (nextHandle reg)); [contradiction | reflexivity]. }
  split; [reflexivity|]. split; [reflexivity|]. split; [reflexivity|].
  intros h Hh. cbn [processors nextHandle] in *. unfold insert.
  destruct (Z.eqb_spec h (nextHandle reg)); [lia|].
  apply Hfresh. lia.
Qed.

Lemma nativeInit_fresh_handle_witness :
  handles_fresh initial
  /\ exists reg',
       nativeInit initial (-40) (-60) = Some (1%Z, reg')
       /\ processors reg' 1%Z = Some processor0
       /\ handles_fresh reg'.
Proof.
  split; [exact initial_fresh|].
  destruct (nativeInit_fresh_handle initial (-40) (-60) initial_fresh)
    as (_ & handle & reg' & p & Hinit & Hp & _ & Hh & _ & _ & _ & _ & Hf).
  rewrite session0_init in Hinit.
  rewrite processor0_constructed in Hp.
  pose proof (f_equal (fun o => match o with
                                | Some x => fst x | None => handle end)
                Hinit) as E1.
  pose proof (f_equal (fun o => match o with
                                | Some x => snd x | None => reg' end)
                Hinit) as E2.
  pose proof (f_equal (fun o => match o with
                                | Some x => x | None => p end)
                Hp) as E3.
  cbv beta iota in E1, E2, E3. cbn [fst snd] in E1, E2.
  exists reg'. rewrite <- E2 at 1. split; [exact session0_init|].
  rewrite E1, E3. split; [exact Hh | exact Hf].
Defined.

Lemma nativePostProcess_registry
  (reg reg' : registry) (handle : Z) (audioData result : list R) :
  nativePostProcess reg handle audioData = Ok (result, reg') ->
  processors reg' = processors reg
  /\ inputResamplers reg' = inputResamplers reg
  /\ nextHandle reg' = nextHandle reg.
Proof.
  unfold nativePostProcess.
  destruct (processors reg handle); [|intros H; injection H as _ <-; tauto].
  destruct (outputResamplers reg handle);
    [|intros H; injection H as _ <-; tauto].
  destruct (outputSize _); [|discriminate].
  destruct (Resampler.process _ _ _) as [[audio r']| |]; try discriminate.
  intros H; injection H as _ <-; cbn; tauto.
Qed.

(** X25: no entry point brings an unused handle into use.  If no handle
    at or above the counter names a processor, the same is true after
    setting up a resampler, after a pre-inference or post-processing call
    that returns, after [nativeReset] and after [nativeDestroy], for any
    handle passed, valid or not. *)
Theorem session_keeps_handles_fresh
  (reg : registry) (handle a b : Z) (audioData : list R) :
  handles_fresh reg ->
  handles_fresh (nativeSetupInputResampler reg handle a b)
  /\ handles_fresh (nativeSetupOutputResampler reg handle a b)
  /\ (forall result reg',
         nativeProcessPreInference reg handle audioData = Ok (result, reg') ->
         handles_fresh reg')
  /\ (forall result reg',
         nativePostProcess reg handle audioData = Ok (result, reg') ->
         handles_fresh reg')
  /\ handles_fresh (nativeReset reg handle)
  /\ handles_fresh (nativeDestroy reg handle).
Proof.
  intros Hfresh. repeat split.
  - unfold nativeSetupInputResampler. destruct (negb _); exact Hfresh.
  - unfold nativeSetupOutputResampler. destruct (negb _); exact Hfresh.
  - intros result reg' H.
    destruct (nativeProcessPreInference_registry _ _ _ _ _ H) as (H1 & _ & H3).
    intros h Hh. rewrite H1. apply Hfresh. lia.
  - intros result reg' H.
    destruct (nativePostProcess_registry _ _ _ _ _ H) as (H1 & _ & H3).
    intros h Hh. rewrite H1. apply Hfresh. lia.
  - intros h Hh. unfold nativeReset in *. cbn [processors nextHandle] in *.
    destruct (processors reg handle) as [p|] eqn:Hp; [|apply Hfresh; exact Hh].
    unfold insert. destruct (Z.eqb_spec h handle) as [->|_].
    + rewrite (Hfresh handle Hh) in Hp. discriminate.
    + apply Hfresh. exact Hh.
  - intros h Hh. unfold nativeDestroy in *. cbn [processors nextHandle] in *.
    unfold erase. destruct (h =? handle)%Z; [reflexivity|].
    apply Hfresh. exact Hh.
Qed.

Lemma session0_fresh : handles_fresh session0.
Proof.
  intros h Hh. unfold session0 in *. cbn [processors nextHandle] in *.
  unfold insert. destruct (Z.eqb_spec h 1); [lia | reflexivity].
Qed.

Lemma session_keeps_handles_fresh_witness :
  handles_fresh session0
  /\ handles_fresh (nativeSetupInputResampler session0 1 16000 48000)
  /\ handles_fresh (nativeDestroy session0 1).
Proof.
  split; [exact session0_fresh|].
  destruct (session_keeps_handles_fresh session0 1 16000 48000 []
              session0_fresh) as (H1 & _ & _ & _ & _ & H6).
  split; [exact H1 | exact H6].
Defined.

(** X26: a destroyed handle is an invalid handle.  After [nativeDestroy]
    the handle names nothing in any of the three tables: a pre-inference
    call returns no array, [nativeCheckVAD] answers true,
    [nativePostProcess] returns its argument, [nativeReset] does nothing,
    each without touching the registry; every other handle keeps what it
    named. *)
Theorem destroyed_handle_is_invalid
  (reg : registry) (handle : Z) (audioData : list R) :
  let reg' := nativeDestroy reg handle in
  nativeProcessPreInference reg' handle audioData = Ok (None, reg')
  /\ nativeCheckVAD reg' handle audioData = true
  /\ nativePostProcess reg' handle audioData = Ok (audioData, reg')
  /\ nativeReset reg' handle = reg'
  /\ (forall h, h <> handle ->
        processors reg' h = processors reg h
        /\ inputResamplers reg' h = inputResamplers reg h
        /\ outputResamplers reg' h = outputResamplers reg h)
  /\ nextHandle reg' = nextHandle reg.
Proof.
  intros reg'.
  assert (Hp : processors reg' handle = None)
    by (unfold reg', nativeDestroy, erase; cbn; now rewrite Z.eqb_refl).
  assert (Hi : inputResamplers reg' handle = None)
    by (unfold reg', nativeDestroy, erase; cbn; now rewrite Z.eqb_refl).
  assert (Ho : outputResamplers reg' handle = None)
    by (unfold reg', nativeDestroy, erase; cbn; now rewrite Z.eqb_refl).
  split; [unfold nativeProcessPreInference; now rewrite Hp|].
  split; [unfold nativeCheckVAD; now rewrite Hp|].
  split; [unfold nativePostProcess; now rewrite Hp|].
  split; [unfold nativeReset; rewrite Hp, Hi, Ho; reflexivity|].
  split; [|reflexivity].
  intros h Hh. unfold reg', nativeDestroy, erase.
  cbn [processors inputResamplers outputResamplers].
  destruct (Z.eqb_spec h handle); [contradiction|]. tauto.
Qed.

Lemma destroyed_handle_is_invalid_witness :
  nativeProcessPreInference (nativeDestroy session0 1) 1 [0.5]
  = Ok (None, nativeDestroy session0 1)
  /\ nativeCheckVAD (nativeDestroy session0 1) 1 [0.5] = true
  /\ nativePostProcess (nativeDestroy session0 1) 1 [0.5]
     = Ok ([0.5], nativeDestroy session0 1).
Proof.
  pose proof (destroyed_handle_is_invalid session0 1 [0.5]) as H.
  cbv zeta in H. destruct H as (H1 & H2 & H3 & _).
  split; [exact H1|]. split; [exact H2 | exact H3].
Defined.

End BridgeExtras.

Section BridgeTransform.

Import STFT Bridge.

(** Analysis followed by synthesis on any two arrays that carry the 257
    bins: the chunk fed before comes out. *)
Lemma reconstruct_after_compute
  (st : t) (prev chunk realIn imagIn : list R) :
  primed st prev ->
  (forall k, (k < NUM_BINS)%nat ->
     nth k realIn 0 = nth k (fst (fst (computeSTFT st chunk))) 0) ->
  (forall k, (k < NUM_BINS)%nat ->
     nth k imagIn 0 = nth k (snd (fst (computeSTFT st chunk))) 0) ->
  fst (reconstructAudio (snd (computeSTFT st chunk)) realIn imagIn)
  = map (fun i => nth i prev 0) (seq 0 HOP_SIZE)
  /\ primed (snd (reconstructAudio (snd (computeSTFT st chunk)) realIn imagIn))
       chunk.
Proof.
  intros (Hw & Hs & Ho & Hz).
  destruct (computeSTFT_spec st chunk) as (buf & F & Hc & Hlo & Hhi & HF).
  rewrite Hc. cbn [fst snd]. intros Hre Him.
  set (st1 := {| window_ := window_ st;
                 stftBuffer_ := buf;
                 overlapBuffer_ := overlapBuffer_ st;
                 fftBuffer_ := F |}).
  set (x := fun i => mkC (buf i * window_ st i) 0).
  destruct (reconstructAudio_spec st1 realIn imagIn x)
    as (Hout & Hwin & Hbuf & Hov & Hzero).
  { intros k Hk. rewrite Hre, Him by exact Hk.
    rewrite (nth_map_seq (fun i => re (F i))) by exact Hk.
    rewrite (nth_map_seq (fun i => im (F i))) by exact Hk.
    unfold x. rewrite <- (HF k) by (unfold FFT_SIZE, NUM_BINS in *; lia).
    destruct (F k); reflexivity. }
  { intros j _. reflexivity. }
  split.
  - rewrite Hout. apply map_ext_in. intros i Hi. apply in_seq in Hi.
    cbn [overlapBuffer_ window_ st1 x re].
    rewrite Ho, Hlo, Hs, Hw by (unfold FFT_SIZE, HOP_SIZE in *; lia).
    rewrite Rmult_assoc, sqrt_hann_square.
    pose proof (hann_overlap i). nra.
  - unfold primed. rewrite Hwin, Hbuf. cbn [window_ stftBuffer_ st1].
    repeat split.
    + exact Hw.
    + exact Hhi.
    + intros i Hi. rewrite Hov by exact Hi.
      cbn [overlapBuffer_ window_ st1 x re].
      rewrite Hz, Hw by (unfold FFT_SIZE, HOP_SIZE in *; lia).
      rewrite (Nat.add_comm i HOP_SIZE), Hhi by exact Hi.
      rewrite Rmult_assoc, sqrt_hann_square. ring.
    + exact Hzero.
Qed.

Lemma insert_same {T : Type} (m : table T) (handle : Z) (obj : T) :
  insert m handle obj handle = Some obj.
Proof. unfold insert. now rewrite Z.eqb_refl. Qed.

Lemma computeSTFT_lengths (st : t) (chunk : list R) :
  length (fst (fst (computeSTFT st chunk))) = NUM_BINS
  /\ length (snd (fst (computeSTFT st chunk))) = NUM_BINS.
Proof.
  unfold computeSTFT. cbn [fst snd]. rewrite !length_map, length_seq.
  split; reflexivity.
Qed.

(** X27: the round trip through the bridge.  For a live transform handle
    whose engine last saw the chunk [prev], [nativeComputeSTFT] returns
    514 floats, and handing that array to [nativeReconstruct], which
    splits it at offset 257, returns the 256 samples of [prev]; the engine
    stored under the handle is then ready to return [chunk] in the same
    way. *)
Theorem bridge_stft_round_trip
  (reg : stftRegistry) (handle : Z) (st : t) (prev chunk : list R) :
  stftProcessors reg handle = Some st ->
  primed st prev ->
  exists data reg1 audioOut reg2 st2,
    nativeComputeSTFT reg handle chunk = (Some data, reg1)
    /\ length data = 514%nat
    /\ nativeReconstruct reg1 handle data = (Some audioOut, reg2)
    /\ audioOut = map (fun i => nth i prev 0) (seq 0 HOP_SIZE)
    /\ stftProcessors reg2 handle = Some st2
    /\ primed st2 chunk
    /\ nextStftHandle reg2 = nextStftHandle reg.
Proof.
  intros Hst Hprimed.
  destruct (computeSTFT_lengths st chunk) as [Lre Lim].
  pose proof (reconstruct_after_compute st prev chunk
                (fst (fst (computeSTFT st chunk))
                 ++ snd (fst (computeSTFT st chunk)))
                (skipn 257 (fst (fst (computeSTFT st chunk))
                            ++ snd (fst (computeSTFT st chunk))))
                Hprimed) as Hrt.
  unfold nativeComputeSTFT. rewrite Hst.
  destruct (computeSTFT st chunk) as [[realOut imagOut] st1].
  cbn [fst snd] in *.
  assert (Hskip : skipn 257 (realOut ++ imagOut) = imagOut).
  { change 257%nat with NUM_BINS. rewrite <- Lre.
    rewrite skipn_app, skipn_all, Nat.sub_diag. reflexivity. }
  destruct Hrt as [Hout Hpr].
  { intros k Hk. apply app_nth1. rewrite Lre. exact Hk. }
  { intros k Hk. rewrite Hskip. reflexivity. }
  destruct (reconstructAudio st1 (realOut ++ imagOut)
              (skipn 257 (realOut ++ imagOut))) as [audioOut st2] eqn:ER.
  cbn [fst snd] in *.
  exists (realOut ++ imagOut),
    {| stftProcessors := insert (stftProcessors reg) handle st1;
       nextStftHandle := nextStftHandle reg |},
    audioOut,
    {| stftProcessors :=
         insert (insert (stftProcessors reg) handle st1) handle st2;
       nextStftHandle := nextStftHandle reg |},
    st2.
  split; [reflexivity|].
  split; [rewrite length_app, Lre, Lim; reflexivity|].
  split.
  { unfold nativeReconstruct. cbn [stftProcessors nextStftHandle].
    rewrite insert_same, ER. reflexivity. }
  split; [exact Hout|].
  cbn [stftProcessors nextStftHandle].
  split; [apply insert_same|].
  split; [exact Hpr | reflexivity].
Qed.

Lemma bridge_stft_round_trip_witness :
  stftProcessors stftSession0 1%Z = Some STFTProcessor
  /\ primed STFTProcessor (repeat 0 HOP_SIZE)
  /\ exists data reg1 audioOut reg2,
       nativeComputeSTFT stftSession0 1 (repeat 1 HOP_SIZE) = (Some data, reg1)
       /\ nativeReconstruct reg1 1 data = (Some audioOut, reg2)
       /\ audioOut
          = map (fun i => nth i (repeat 0 HOP_SIZE) 0) (seq 0 HOP_SIZE).
Proof.
  assert (H1 : stftProcessors stftSession0 1%Z = Some STFTProcessor)
    by reflexivity.
  split; [exact H1|]. split; [exact STFTProcessor_primed|].
  destruct (bridge_stft_round_trip stftSession0 1 STFTProcessor
              (repeat 0 HOP_SIZE) (repeat 1 HOP_SIZE) H1 STFTProcessor_primed)
    as (data & reg1 & audioOut & reg2 & _ & Hc & _ & Hr & Ho & _).
  exists data, reg1, audioOut, reg2.
  split; [exact Hc|]. split; [exact Hr | exact Ho].
Defined.

End BridgeTransform.
